(** * Campaign-analysis backend: metric normalisation, pagination, prompt
      shares, credential check and response sanitiser

    A shallow embedding of [backend/meta_client.py], of
    [analyze_campaigns_with_gpt], the share columns and the style
    directives of [backend/ai_client.py], and of [_sanitize_analysis], the
    intent detection and the level selection of [backend/main.py].

    Conventions of the embedding:
    - a Python [str] is the list of its Unicode code points ([list N]);
    - a value that came out of [resp.json()] is a [json];
    - a Python [float] is a primitive binary64 [float]; the conversions
      between integers and floats go through [SpecFloat] so that they are
      correctly rounded, as CPython's are;
    - a raising computation is a [result]: [Ok v] or [Raise e];
    - what the interpreter decides by looking at Unicode tables or by
      parsing ([str.lower] beyond ASCII, [float] of a string, [str] of a
      number or container, the character classes beyond ASCII) is a field
      of the class [PyRuntime]; the ASCII rows are written out. *)

From stdpp Require Import gmap list strings.
From Stdlib Require Import ZArith QArith Qabs Qpower Floats Lia Lqa.

Open Scope Z_scope.
Set Warnings "-register-all".

(* ================================================================= *)
(** * The Python values the backend manipulates *)

Module Py.

Abbreviation pystr := (list N).

(** The code points of an ASCII literal. *)
Definition u (s : string) : pystr :=
  map Ascii.N_of_ascii (String.list_ascii_of_string s).
Arguments u : simpl never.

Inductive json : Type :=
| JNull
| JBool (b : bool)
| JInt (z : Z)
| JFloat (f : float)
| JStr (s : pystr)
| JList (l : list json)
| JObj (kv : list (pystr * json)).

Inductive exn : Type :=
| TypeError
| ValueError
| OverflowError
| AttributeError
| ZeroDivisionError
| RuntimeError (message : json).

Inductive result (A : Type) : Type :=
| Ok (a : A)
| Raise (e : exn).
Arguments Ok {A} a.
Arguments Raise {A} e.

#[export] Instance result_ret : MRet result := @Ok.
#[export] Instance result_bind : MBind result :=
  λ A B f m, match m with Ok a => f a | Raise e => Raise e end.

(** [for x in xs: acc = step(acc, x)] where [step] may raise. *)
Fixpoint foldM {A B : Type} (step : B → A → result B) (acc : B) (xs : list A)
  : result B :=
  match xs with
  | [] => Ok acc
  | x :: xs' => acc' ← step acc x; foldM step acc' xs'
  end.

(** [[f(x) for x in xs]] where [f] may raise. *)
Fixpoint traverse {A B : Type} (f : A → result B) (xs : list A)
  : result (list B) :=
  match xs with
  | [] => Ok []
  | x :: xs' => y ← f x; ys ← traverse f xs'; Ok (y :: ys)
  end.

(** ** What is left to the interpreter *)

Class PyRuntime : Type := {
  (** [float(s)] for a [str]; [None] stands for [ValueError]. *)
  float_of_str : pystr → option float;
  (** [str(v)] for a value that is not a [str]. *)
  str_of_value : json → pystr;
  (** [s.lower()] for a string with a code point above 127. *)
  lower_unicode : pystr → pystr;
  (** [unicodedata.category(c).startswith("C")], [c] above 127. *)
  category_C_unicode : N → bool;
  (** [unicodedata.normalize("NFKC", c)], [c] above 127. *)
  nfkc_unicode : N → pystr;
  (** [c.isspace()], which is also the regex class [\s], [c] above 127. *)
  isspace_unicode : N → bool;
  (** the regex class [\w], [c] above 127. *)
  isword_unicode : N → bool;
  (** the regex class [\d], [c] above 127. *)
  isdigit_unicode : N → bool
}.

(** ** Strings *)

Definition is_ascii (c : N) : bool := (c <? 128)%N.

Definition between (lo hi c : N) : bool := ((lo <=? c) && (c <=? hi))%N.

Definition lower_ascii (c : N) : N :=
  if between 65 90 c then (c + 32)%N else c.

Definition str_lower `{PyRuntime} (s : pystr) : pystr :=
  if forallb is_ascii s then map lower_ascii s else lower_unicode s.

(** [c.isspace()], also the regex class [\s]. *)
Definition is_space `{PyRuntime} (c : N) : bool :=
  if is_ascii c then between 9 13 c || between 28 32 c
  else isspace_unicode c.

Fixpoint drop_while (f : N → bool) (s : pystr) : pystr :=
  match s with
  | c :: s' => if f c then drop_while f s' else s
  | [] => []
  end.

(** [s.lstrip()], [s.rstrip()] and [s.strip()]. *)
Definition str_lstrip `{PyRuntime} (s : pystr) : pystr := drop_while is_space s.
Definition str_rstrip `{PyRuntime} (s : pystr) : pystr :=
  reverse (drop_while is_space (reverse s)).
Definition str_strip `{PyRuntime} (s : pystr) : pystr :=
  str_rstrip (str_lstrip s).

(** The regex classes [\w] and [\d]. *)
Definition is_word `{PyRuntime} (c : N) : bool :=
  if is_ascii c
  then between 48 57 c || between 65 90 c || between 97 122 c || (c =? 95)%N
  else isword_unicode c.

Definition is_digit `{PyRuntime} (c : N) : bool :=
  if is_ascii c then between 48 57 c else isdigit_unicode c.

(** [unicodedata.category(c).startswith("C")] *)
Definition is_control `{PyRuntime} (c : N) : bool :=
  if is_ascii c then (c <? 32)%N || (c =? 127)%N else category_C_unicode c.

(** [unicodedata.normalize("NFKC", c)] for one character. *)
Definition nfkc `{PyRuntime} (c : N) : pystr :=
  if is_ascii c then [c] else nfkc_unicode c.

Definition str_eqb (s t : pystr) : bool := bool_decide (s = t).

Definition endswith (s suffix : pystr) : bool :=
  let n := length s in
  let k := length suffix in
  bool_decide (k ≤ n)%nat && str_eqb (drop (n - k) s) suffix.

Definition py_str `{PyRuntime} (v : json) : pystr :=
  match v with
  | JStr s => s
  | _ => str_of_value v
  end.

(** ** Floats *)

(** The smallest magnitude that rounds (to nearest, ties to even) past the
    largest finite binary64: half-way between [2^1024 - 2^971] and [2^1024]. *)
Definition overflow_threshold : Z := 2 ^ 1024 - 2 ^ 970.

(** The largest finite binary64, an integer. *)
Definition max_float_int : Z := 2 ^ 1024 - 2 ^ 971.

(** The nearest binary64 to an integer. *)
Definition float_of_Z (z : Z) : float :=
  SF2Prim (binary_normalize prec emax z 0 false).

(** [float(z)] for an [int]. *)
Definition float_of_int (z : Z) : result float :=
  if Z.abs z <? overflow_threshold then Ok (float_of_Z z)
  else Raise OverflowError.

(** [int(f)]: truncation towards zero. *)
Definition int_of_float (f : float) : result Z :=
  match Prim2SF f with
  | S754_nan => Raise ValueError
  | S754_infinity _ => Raise OverflowError
  | S754_zero _ => Ok 0
  | S754_finite s m e =>
      let a := Z.shiftl (Z.pos m) e in
      Ok (if s then - a else a)
  end.

(** [a / b] on two [int]s: the correctly rounded quotient. *)
Definition int_true_div (a b : Z) : result float :=
  if b =? 0 then Raise ZeroDivisionError
  else if a =? 0 then Ok (if b <? 0 then (- 0)%float else 0%float)
  else if overflow_threshold * Z.abs b <=? Z.abs a then Raise OverflowError
  else Ok (SF2Prim (SFdiv prec emax
                      (S754_finite (a <? 0) (Z.to_pos (Z.abs a)) 0)
                      (S754_finite (b <? 0) (Z.to_pos (Z.abs b)) 0))).

(** [x / y] on two [float]s. *)
Definition float_div (x y : float) : result float :=
  if (y =? 0)%float then Raise ZeroDivisionError else Ok (x / y)%float.

(** The integer nearest to [n / d], ties to even ([0 < d]). *)
Definition div_half_even (n d : Z) : Z :=
  let q := n / d in
  let r := n mod d in
  match 2 * r ?= d with
  | Lt => q
  | Gt => q + 1
  | Eq => if Z.even q then q else q + 1
  end.

(** [round(x, 4)]: the exact value of [x] is rounded to four decimals,
    ties to even, and the decimal result is read back as a binary64. An
    infinity or a NaN rounds to itself. *)
Definition round4 (x : float) : float :=
  match Prim2SF x with
  | S754_finite s m e =>
      let scaled :=
        if 0 <=? e then Z.pos m * 10000 * 2 ^ e
        else div_half_even (Z.pos m * 10000) (2 ^ (- e)) in
      match scaled with
      | Z.pos n =>
          SF2Prim (SFdiv prec emax (S754_finite s n 0)
                                    (S754_finite false 10000 0))
      | _ => SF2Prim (S754_zero s)
      end
  | _ => x
  end.

(** ** Truthiness, [or], attribute access, iteration *)

Definition truthy (v : json) : bool :=
  match v with
  | JNull => false
  | JBool b => b
  | JInt z => negb (z =? 0)
  | JFloat f => negb (f =? 0)%float
  | JStr s => negb (bool_decide (s = []))
  | JList l => match l with [] => false | _ => true end
  | JObj kv => match kv with [] => false | _ => true end
  end.

(** [a or b] *)
Definition py_or (a b : json) : json := if truthy a then a else b.

(** The value stored under [k] in a [dict]. *)
Fixpoint dict_lookup (kv : list (pystr * json)) (k : pystr) : option json :=
  match kv with
  | [] => None
  | (k', v) :: kv' => if str_eqb k' k then Some v else dict_lookup kv' k
  end.

(** [d.get(k, dflt)] on a [dict]. *)
Definition dict_get (kv : list (pystr * json)) (k : pystr) (dflt : json) : json :=
  default dflt (dict_lookup kv k).

(** [v.get(k, dflt)] on any value: only a [dict] has the method. *)
Definition py_get (v : json) (k : pystr) (dflt : json) : result json :=
  match v with
  | JObj kv => Ok (dict_get kv k dflt)
  | _ => Raise AttributeError
  end.

(** The elements [for x in v] visits. *)
Definition py_iter (v : json) : result (list json) :=
  match v with
  | JList l => Ok l
  | JStr s => Ok (map (λ c, JStr [c]) s)
  | JObj kv => Ok (map (λ p, JStr (fst p)) kv)
  | _ => Raise TypeError
  end.

Fixpoint is_prefix (p s : pystr) : bool :=
  match p, s with
  | [], _ => true
  | c :: p', d :: s' => (c =? d)%N && is_prefix p' s'
  | _ :: _, [] => false
  end.

Fixpoint is_substring (p s : pystr) : bool :=
  is_prefix p s
  || match s with [] => false | _ :: s' => is_substring p s' end.

(** [needle in v] for a [str] needle: a key of a [dict], an element of a
    [list], a substring of a [str]. *)
Definition py_in (needle : pystr) (v : json) : result bool :=
  match v with
  | JObj kv => Ok (existsb (λ p, str_eqb (fst p) needle) kv)
  | JList l =>
      Ok (existsb (λ x, match x with
                        | JStr s => str_eqb s needle
                        | _ => false
                        end) l)
  | JStr s => Ok (is_substring needle s)
  | _ => Raise TypeError
  end.

(** [s.replace(old, new)] for a non-empty [old]: the occurrences are
    taken from left to right and do not overlap. [skip] counts the
    characters of an occurrence still to be passed over. *)
Fixpoint replace_from (old new : pystr) (skip : nat) (s : pystr) : pystr :=
  match s with
  | [] => []
  | c :: s' =>
      match skip with
      | S k => replace_from old new k s'
      | O => if is_prefix old s
             then new ++ replace_from old new (length old - 1) s'
             else c :: replace_from old new 0 s'
      end
  end.

Definition str_replace (old new s : pystr) : pystr := replace_from old new 0 s.

(** [s.split(sep)] for a one-character separator. *)
Fixpoint str_split (sep : N) (s : pystr) : list pystr :=
  match s with
  | [] => [[]]
  | c :: s' =>
      if (c =? sep)%N then [] :: str_split sep s'
      else match str_split sep s' with
           | part :: parts => (c :: part) :: parts
           | [] => [[c]]
           end
  end.

(** [sep.join(parts)] *)
Fixpoint str_join (sep : pystr) (parts : list pystr) : pystr :=
  match parts with
  | [] => []
  | [x] => x
  | x :: rest => x ++ sep ++ str_join sep rest
  end.

(** [float(v)] *)
Definition py_float `{PyRuntime} (v : json) : result float :=
  match v with
  | JFloat f => Ok f
  | JInt z => float_of_int z
  | JBool b => Ok (if b then 1%float else 0%float)
  | JStr s => match float_of_str s with
              | Some f => Ok f
              | None => Raise ValueError
              end
  | JNull | JList _ | JObj _ => Raise TypeError
  end.

(** [v.strip()]: only a [str] has the method. *)
Definition strip_method `{PyRuntime} (v : json) : result pystr :=
  match v with
  | JStr s => Ok (str_strip s)
  | _ => Raise AttributeError
  end.

(** ** A runtime for worked examples

    The tables are cut down to their ASCII rows, [float] reads plain
    decimal literals ([sign] digits [. digits]), and [str] is given for
    [None] and the booleans; nothing else is needed to run the functions
    below on the inputs of the examples. *)

Definition digit_value (c : N) : option Z :=
  if between 48 57 c then Some (Z.of_N c - 48) else None.

(** Reads a run of digits after the mantissa [m], counting them in [k]. *)
Fixpoint read_digits (s : pystr) (m : Z) (k : nat) : Z * nat * pystr :=
  match s with
  | c :: s' =>
      match digit_value c with
      | Some d => read_digits s' (10 * m + d) (S k)
      | None => (m, k, s)
      end
  | [] => (m, k, s)
  end.

Definition decimal_value (neg : bool) (m : Z) (frac_digits : nat) : float :=
  match m with
  | Z.pos p =>
      SF2Prim (SFdiv prec emax (S754_finite neg p 0)
                 (S754_finite false (Pos.pow 10 (Pos.of_nat frac_digits)) 0))
  | _ => SF2Prim (S754_zero neg)
  end.

Definition integer_value (neg : bool) (m : Z) : float :=
  SF2Prim (binary_normalize prec emax (if neg then - m else m) 0 neg).

Definition parse_unsigned (neg : bool) (s : pystr) : option float :=
  let '(m, k, rest) := read_digits s 0 0 in
  match rest with
  | [] => if bool_decide (k = 0%nat) then None else Some (integer_value neg m)
  | 46%N :: frac =>
      let '(m', k', rest') := read_digits frac m 0 in
      match rest' with
      | [] => if bool_decide ((k + k')%nat = 0%nat) then None
              else if bool_decide (k' = 0%nat) then Some (integer_value neg m')
              else Some (decimal_value neg m' k')
      | _ => None
      end
  | _ => None
  end.

Definition parse_decimal (s : pystr) : option float :=
  match s with
  | 45%N :: s' => parse_unsigned true s'
  | 43%N :: s' => parse_unsigned false s'
  | _ => parse_unsigned false s
  end.

Definition ascii_runtime : PyRuntime := {|
  float_of_str := parse_decimal;
  str_of_value := λ v, match v with
                       | JNull => u "None"
                       | JBool true => u "True"
                       | JBool false => u "False"
                       | _ => []
                       end;
  lower_unicode := λ s, s;
  category_C_unicode := λ _, false;
  nfkc_unicode := λ c, [c];
  isspace_unicode := λ _, false;
  isword_unicode := λ _, false;
  isdigit_unicode := λ _, false
|}.

End Py.

Import Py.

(* ================================================================= *)
(** * [backend/meta_client.py] *)

Module MetaClient.

Section WithRuntime.
Context `{PyRuntime}.

Definition _to_int (x : json) : Z :=
  match f ← py_float x; int_of_float f with
  | Ok z => z
  | Raise _ => 0
  end.

Definition _to_float (x : json) : float :=
  match py_float x with
  | Ok f => f
  | Raise _ => 0%float
  end.

Definition allowed : list pystr :=
  [ u "purchase"; u "fb_pixel_purchase"; u "offsite_conversion.purchase";
    u "offsite_conversion.fb_pixel_purchase"; u "onsite_conversion.purchase";
    u "omni_purchase" ].

(** [s.lower()] as a method call: only a [str] has it. *)
Definition lower_method (v : json) : result pystr :=
  match v with
  | JStr s => Ok (str_lower s)
  | _ => Raise AttributeError
  end.

Definition _is_purchase_type (action_type : json) : result bool :=
  at_ ← lower_method (py_or action_type (JStr []));
  Ok (bool_decide (at_ ∈ allowed)
      || endswith at_ (u ".purchase") || endswith at_ (u "_purchase")).

Definition PURCHASE_PRIORITY : list pystr :=
  [ u "omni_purchase"; u "offsite_conversion.fb_pixel_purchase";
    u "offsite_conversion.purchase"; u "onsite_conversion.purchase";
    u "fb_pixel_purchase"; u "purchase" ].

(** [{str(a.get("action_type", "")).lower(): a for a in entries}]: a later
    entry with the same key replaces the earlier one. *)
Definition index_by_type (entries : list json) : result (gmap pystr json) :=
  foldM (λ by_type a,
           t ← py_get a (u "action_type") (JStr []);
           Ok (<[str_lower (py_str t) := a]> by_type))
        ∅ entries.

(** [for t in PURCHASE_PRIORITY: a = by_type.get(t); if a is not None: ...] *)
Fixpoint first_by_priority (by_type : gmap pystr json) (tags : list pystr)
  : option json :=
  match tags with
  | [] => None
  | t :: tags' =>
      match by_type !! t with
      | Some a => Some a
      | None => first_by_priority by_type tags'
      end
  end.

Definition _pick_purchase_count (actions : json) : result Z :=
  entries ← py_iter (py_or actions (JList []));
  by_type ← index_by_type entries;
  match first_by_priority by_type PURCHASE_PRIORITY with
  | Some a => v ← py_get a (u "value") (JInt 0); Ok (_to_int v)
  | None =>
      foldM (λ total a,
               t ← py_get a (u "action_type") JNull;
               is_purchase ← _is_purchase_type t;
               if is_purchase : bool
               then v ← py_get a (u "value") (JInt 0); Ok (total + _to_int v)
               else Ok total)
            0 entries
  end.

Definition _pick_purchase_value (action_values : json) : result float :=
  entries ← py_iter (py_or action_values (JList []));
  by_type ← index_by_type entries;
  match first_by_priority by_type PURCHASE_PRIORITY with
  | Some a => v ← py_get a (u "value") (JFloat 0); Ok (_to_float v)
  | None =>
      foldM (λ total av,
               t ← py_get av (u "action_type") JNull;
               is_purchase ← _is_purchase_type t;
               if is_purchase : bool
               then v ← py_get av (u "value") (JFloat 0);
                    Ok (total + _to_float v)%float
               else Ok total)
            0%float entries
  end.

(** *** Vocabulary for statements about purchase resolution *)

(** An action entry is a [dict]; this is the key under which
    [index_by_type] files it. *)
Definition index_key (e : list (pystr * json)) : pystr :=
  str_lower (py_str (dict_get e (u "action_type") (JStr []))).

(** The entry's tag is text: the key is absent, or holds a [str]. *)
Definition has_text_tag (e : list (pystr * json)) : bool :=
  match dict_lookup e (u "action_type") with
  | None | Some (JStr _) => true
  | Some _ => false
  end.

(** The text of the tag, empty when the key is absent. *)
Definition text_tag (e : list (pystr * json)) : pystr :=
  match dict_lookup e (u "action_type") with
  | Some (JStr s) => s
  | _ => []
  end.

(** The purchase-like predicate on an already lowercased tag. *)
Definition purchase_like (at_ : pystr) : bool :=
  bool_decide (at_ ∈ allowed)
  || endswith at_ (u ".purchase") || endswith at_ (u "_purchase").

(** Whether the fallback loop adds the entry's value. *)
Definition counted (e : list (pystr * json)) : bool :=
  purchase_like (str_lower (text_tag e)).

(** One step of the dictionary comprehension of [index_by_type]. *)
Definition file_entry (by_type : gmap pystr json) (e : list (pystr * json))
  : gmap pystr json :=
  <[index_key e := JObj e]> by_type.

(** [total = 0; for v in values: total += v], for [int] and for [float]. *)
Definition sum_int (values : list Z) : Z := foldl Z.add 0 values.
Definition sum_float (values : list float) : float :=
  foldl PrimFloat.add 0%float values.

(** The numeric part of one normalised record. *)
Record metrics : Type := {
  impressions : Z;
  clicks : Z;
  spend : float;
  cpm : float;
  cpc : float;
  ctr : float;
  purchases : Z;
  purchase_value : float;
  roas : float
}.

Record campaign_record : Type := {
  campaign_id : json;
  campaign_name : json;
  campaign_metrics : metrics
}.

Record adset_record : Type := {
  adset_id : json;
  adset_name : json;
  adset_campaign_id : json;
  adset_metrics : metrics
}.

Record ad_record : Type := {
  ad_id : json;
  ad_name : json;
  ad_adset_id : json;
  ad_campaign_id : json;
  ad_metrics : metrics
}.

(** [(clicks / impressions * 100.0) if impressions > 0 else 0.0] *)
Definition ctr_calc_of (clicks impressions : Z) : result float :=
  if 0 <? impressions
  then q ← int_true_div clicks impressions; Ok (q * 100)%float
  else Ok 0%float.

(** [(purchase_value / spend) if spend > 0 else 0.0] *)
Definition roas_of (purchase_value spend : float) : result float :=
  if (0 <? spend)%float then float_div purchase_value spend else Ok 0%float.

(** The body shared, statement for statement, by the three normalisers:
    everything from [impressions = ...] to [roas = ...], and the rounding
    done while the record is built. *)
Definition row_metrics (row : list (pystr * json)) : result metrics :=
  let impressions := _to_int (dict_get row (u "impressions") (JInt 0)) in
  let clicks := _to_int (dict_get row (u "clicks") (JInt 0)) in
  let spend := _to_float (dict_get row (u "spend") (JFloat 0)) in
  let cpm := _to_float (dict_get row (u "cpm") (JFloat 0)) in
  let cpc := _to_float (dict_get row (u "cpc") (JFloat 0)) in
  let ctr_raw := _to_float (dict_get row (u "ctr") (JFloat 0)) in
  ctr_calc ← ctr_calc_of clicks impressions;
  let ctr := if (0 <? ctr_calc)%float then ctr_calc else ctr_raw in
  let actions := py_or (dict_get row (u "actions") (JList [])) (JList []) in
  let action_values :=
    py_or (dict_get row (u "action_values") (JList [])) (JList []) in
  purchases ← _pick_purchase_count actions;
  purchase_value ← _pick_purchase_value action_values;
  roas ← roas_of purchase_value spend;
  Ok {| impressions := impressions;
        clicks := clicks;
        spend := round4 spend;
        cpm := round4 cpm;
        cpc := round4 cpc;
        ctr := round4 ctr;
        purchases := purchases;
        purchase_value := round4 purchase_value;
        roas := round4 roas |}.

Definition sem_nome : json := JStr (u "(sem nome)").

Definition normalize_insights (raw : list (list (pystr * json)))
  : result (list campaign_record) :=
  traverse (λ row,
              m ← row_metrics row;
              Ok {| campaign_id := dict_get row (u "campaign_id") (JStr []);
                    campaign_name := dict_get row (u "campaign_name") sem_nome;
                    campaign_metrics := m |}) raw.

Definition normalize_insights_adset (raw : list (list (pystr * json)))
  : result (list adset_record) :=
  traverse (λ row,
              m ← row_metrics row;
              Ok {| adset_id := dict_get row (u "adset_id") (JStr []);
                    adset_name := dict_get row (u "adset_name") sem_nome;
                    adset_campaign_id := dict_get row (u "campaign_id") JNull;
                    adset_metrics := m |}) raw.

Definition normalize_insights_ad (raw : list (list (pystr * json)))
  : result (list ad_record) :=
  traverse (λ row,
              m ← row_metrics row;
              Ok {| ad_id := dict_get row (u "ad_id") (JStr []);
                    ad_name := dict_get row (u "ad_name") sem_nome;
                    ad_adset_id := dict_get row (u "adset_id") JNull;
                    ad_campaign_id := dict_get row (u "campaign_id") JNull;
                    ad_metrics := m |}) raw.

(** *** Vocabulary for statements about normalisation *)

Definition raises {A : Type} (r : result A) : bool :=
  match r with Ok _ => false | Raise _ => true end.

(** [actions] / [action_values] as the resolution expects them: a list of
    dictionaries whose tag, when present, is text; or a falsy value, which
    [or []] replaces by the empty list. *)
Definition entries_shaped (v : json) : bool :=
  match v with
  | JList l =>
      forallb (λ x, match x with JObj e => has_text_tag e | _ => false end) l
  | _ => negb (truthy v)
  end.

Definition row_shaped (row : list (pystr * json)) : bool :=
  entries_shaped (dict_get row (u "actions") (JList []))
  && entries_shaped (dict_get row (u "action_values") (JList [])).

(** The metrics that one of the three normalisers produced for [raw]. *)
Definition normalized_metrics (raw : list (list (pystr * json)))
    (ms : list metrics) : Prop :=
  (∃ out, normalize_insights raw = Ok out ∧ ms = campaign_metrics <$> out)
  ∨ (∃ out, normalize_insights_adset raw = Ok out ∧ ms = adset_metrics <$> out)
  ∨ (∃ out, normalize_insights_ad raw = Ok out ∧ ms = ad_metrics <$> out).

(** A field whose conversion raised is zero in the record. *)
Definition lenient (row : list (pystr * json)) (m : metrics) : Prop :=
  (raises (f ← py_float (dict_get row (u "impressions") (JInt 0));
           int_of_float f) = true → impressions m = 0)
  ∧ (raises (f ← py_float (dict_get row (u "clicks") (JInt 0));
             int_of_float f) = true → clicks m = 0)
  ∧ (raises (py_float (dict_get row (u "spend") (JFloat 0))) = true →
     spend m = 0%float)
  ∧ (raises (py_float (dict_get row (u "cpm") (JFloat 0))) = true →
     cpm m = 0%float)
  ∧ (raises (py_float (dict_get row (u "cpc") (JFloat 0))) = true →
     cpc m = 0%float).

(** The rule for [ctr], on the coerced fields of the row. *)
Definition ctr_rule (row : list (pystr * json)) (m : metrics) : Prop :=
  let impressions := _to_int (dict_get row (u "impressions") (JInt 0)) in
  let clicks := _to_int (dict_get row (u "clicks") (JInt 0)) in
  let ctr_raw := _to_float (dict_get row (u "ctr") (JFloat 0)) in
  (0 < impressions →
   ∃ q, int_true_div clicks impressions = Ok q
        ∧ ((0 <? q * 100)%float = true → ctr m = round4 (q * 100)%float)
        ∧ ((0 <? q * 100)%float = false → ctr m = round4 ctr_raw))
  ∧ (impressions ≤ 0 → ctr m = round4 ctr_raw).

(** The rule for [roas], on the coerced spend of the row and the resolved
    purchase value, both before rounding. *)
Definition roas_rule (row : list (pystr * json)) (m : metrics) : Prop :=
  let spend := _to_float (dict_get row (u "spend") (JFloat 0)) in
  ∃ purchase_value,
    _pick_purchase_value
      (py_or (dict_get row (u "action_values") (JList [])) (JList []))
    = Ok purchase_value
    ∧ ((0 <? spend)%float = true →
       roas m = round4 (purchase_value / spend)%float)
    ∧ ((0 <? spend)%float = false → roas m = 0%float).

End WithRuntime.

(** *** Inputs of the worked examples *)

Definition entry (tag : string) (value : json) : list (pystr * json) :=
  [(u "action_type", JStr (u tag)); (u "value", value)].

(** A row whose [actions] field is a number. *)
Definition row_actions_number : list (pystr * json) :=
  [(u "campaign_id", JStr (u "1")); (u "impressions", JStr (u "10"));
   (u "actions", JInt 7)].

(** A row whose [actions] field is a list of strings. *)
Definition row_actions_strings : list (pystr * json) :=
  [(u "campaign_id", JStr (u "1")); (u "actions", JList [JStr (u "purchase")])].

(** A row with malformed numbers and one purchase. *)
Definition row_malformed : list (pystr * json) :=
  [(u "campaign_id", JStr (u "1")); (u "impressions", JStr (u "abc"));
   (u "clicks", JNull); (u "spend", JList []); (u "ctr", JStr (u "1.5"));
   (u "actions", JList [JObj (entry "purchase" (JStr (u "4")))])].

(** A row with 1000 impressions, 37 clicks and an API ctr of 9.9. *)
Definition row_clicked : list (pystr * json) :=
  [(u "impressions", JStr (u "1000")); (u "clicks", JStr (u "37"));
   (u "ctr", JStr (u "9.9")); (u "spend", JStr (u "12.5"));
   (u "action_values", JList [JObj (entry "purchase" (JStr (u "50")))])].

(** A row that spent four thousandths of a cent and sold for 2. *)
Definition row_tiny_spend : list (pystr * json) :=
  [(u "spend", JStr (u "0.00004"));
   (u "action_values", JList [JObj (entry "purchase" (JStr (u "2")))])].

(** The metrics of a result, when there is one. *)
Definition campaign_metrics_of (r : result (list campaign_record))
  : list metrics :=
  match r with Ok out => campaign_metrics <$> out | Raise _ => [] end.

Definition metrics_malformed_clicked : list metrics :=
  Eval vm_compute in
    campaign_metrics_of
      (normalize_insights (H := ascii_runtime) [row_malformed; row_clicked]).

Definition metrics_tiny_spend : list metrics :=
  Eval vm_compute in
    campaign_metrics_of
      (normalize_insights (H := ascii_runtime) [row_tiny_spend]).

End MetaClient.

(* ================================================================= *)
(** * [backend/meta_client.py]: the paginated fetchers *)

Module Fetch.

Definition GRAPH_BASE : pystr := u "https://graph.facebook.com/v24.0".

(** One call [requests.get(url, params=params, timeout=timeout)]. *)
Record request : Type := {
  req_url : json;
  req_params : list (pystr * json);
  req_timeout : Z
}.

(** What the code reads of a response: [resp.status_code] and
    [resp.json()], which raises on a body that is not JSON. *)
Record response : Type := {
  status_code : Z;
  json_body : result json
}.

(** How one pass through the body of [while True] ends. *)
Inductive pass : Type :=
| Break (all_data : list json)
| Continue (next_url : json) (all_data : list json).

(** The body of the loop after [requests.get] returned [resp]. *)
Definition read_page (resp : response) (all_data : list json) : result pass :=
  data ← json_body resp;
  failed ← (if negb (status_code resp =? 200) then Ok true
            else py_in (u "error") data);
  if failed : bool then
    err ← py_get data (u "error") (JObj []);
    message ← py_get err (u "message")
                (JStr (u "Erro ao consultar Meta Graph API"));
    Raise (RuntimeError message)
  else
    page ← py_get data (u "data") (JList []);
    rows ← py_iter page;
    let all_data := all_data ++ rows in
    paging ← py_get data (u "paging") (JObj []);
    next_url ← py_get paging (u "next") JNull;
    if negb (truthy next_url) then Ok (Break all_data)
    else Ok (Continue next_url all_data).

Section WithServer.
(** The remote side: a state [W] and what a call returns and changes.
    [requests.get] itself may raise. *)
Context {W : Type} (http_get : request → W → result response * W).

(** What a fetch leaves behind: its result, the calls it issued, in order,
    and the state of the remote side. *)
Record fetched : Type := {
  outcome : result (list json);
  calls : list request;
  world : W
}.

(** [while True: ...]; [fuel] bounds the number of passes, and [None]
    means that the bound was reached. *)
Fixpoint fetch_loop (fuel : nat) (timeout : Z) (url : json)
    (params : list (pystr * json)) (all_data : list json)
    (issued : list request) (w : W) : option fetched :=
  match fuel with
  | O => None
  | S fuel' =>
      let req := {| req_url := url; req_params := params;
                    req_timeout := timeout |} in
      let '(r, w') := http_get req w in
      let issued := issued ++ [req] in
      match resp ← r; read_page resp all_data with
      | Raise e => Some {| outcome := Raise e; calls := issued; world := w' |}
      | Ok (Break all_data) =>
          Some {| outcome := Ok all_data; calls := issued; world := w' |}
      | Ok (Continue next_url all_data) =>
          fetch_loop fuel' timeout next_url [] all_data issued w'
      end
  end.

Definition common_fields : list pystr :=
  [ u "impressions"; u "clicks"; u "spend"; u "cpm"; u "cpc"; u "ctr";
    u "actions"; u "action_values" ].

(** The query parameters shared by both fetchers, after the field list. *)
Definition window_params (since until : option pystr) (date_preset : pystr)
  : list (pystr * json) :=
  match since, until with
  | Some (c :: s), Some (d :: t) =>
      [(u "time_range", JObj [(u "since", JStr (c :: s));
                              (u "until", JStr (d :: t))])]
  | _, _ => [(u "date_preset", JStr date_preset)]
  end.

Definition query_params (fields : list pystr) (level access_token : pystr)
    (since until : option pystr) (date_preset : pystr)
  : list (pystr * json) :=
  [ (u "fields", JStr (str_join (u ",") fields));
    (u "level", JStr level);
    (u "limit", JInt 5000);
    (u "access_token", JStr access_token);
    (u "action_report_time", JStr (u "conversion"));
    (u "use_unified_attribution_setting", JBool true) ]
  ++ window_params since until date_preset.

Definition insights_url (ad_account_id : pystr) : json :=
  JStr (GRAPH_BASE ++ u "/act_" ++ ad_account_id ++ u "/insights").

Definition fetch_insights (fuel : nat) (access_token ad_account_id : pystr)
    (date_preset : pystr) (since until : option pystr) (timeout : Z) (w : W)
  : option fetched :=
  fetch_loop fuel timeout (insights_url ad_account_id)
    (query_params ([u "campaign_id"; u "campaign_name"] ++ common_fields)
       (u "campaign") access_token since until date_preset)
    [] [] w.

Definition id_fields (level : pystr) : option (list pystr) :=
  if str_eqb level (u "campaign") then Some [u "campaign_id"; u "campaign_name"]
  else if str_eqb level (u "adset")
       then Some [u "adset_id"; u "adset_name"; u "campaign_id"]
  else if str_eqb level (u "ad")
       then Some [u "ad_id"; u "ad_name"; u "adset_id"; u "campaign_id"]
  else None.

Definition fetch_insights_by_level (fuel : nat)
    (access_token ad_account_id level date_preset : pystr)
    (since until : option pystr) (timeout : Z) (w : W) : option fetched :=
  match id_fields level with
  | None => Some {| outcome := Raise ValueError; calls := []; world := w |}
  | Some ids =>
      fetch_loop fuel timeout (insights_url ad_account_id)
        (query_params (ids ++ common_fields) level access_token
           since until date_preset)
        [] [] w
  end.

(** The first request of [fetch_insights]. *)
Definition first_request (access_token ad_account_id date_preset : pystr)
    (since until : option pystr) (timeout : Z) : request :=
  {| req_url := insights_url ad_account_id;
     req_params :=
       query_params ([u "campaign_id"; u "campaign_name"] ++ common_fields)
         (u "campaign") access_token since until date_preset;
     req_timeout := timeout |}.

(** The request that follows a cursor. *)
Definition cursor_request (cursor : json) (timeout : Z) : request :=
  {| req_url := cursor; req_params := []; req_timeout := timeout |}.

End WithServer.

(** A successful page: status 200, a JSON object without an [error] key
    whose [data] is the array [rows]. *)
Definition page_of (resp : response) (body : list (pystr * json))
    (rows : list json) : Prop :=
  status_code resp = 200
  ∧ json_body resp = Ok (JObj body)
  ∧ py_in (u "error") (JObj body) = Ok false
  ∧ dict_lookup body (u "data") = Some (JList rows).

(** The page names a next page: [paging.next] is a non-empty string. *)
Definition has_next (body : list (pystr * json)) (cursor : pystr) : Prop :=
  ∃ paging, dict_lookup body (u "paging") = Some (JObj paging)
            ∧ dict_lookup paging (u "next") = Some (JStr cursor)
            ∧ cursor ≠ [].

(** The page names no next page: no [paging], or no truthy [next] in it. *)
Definition no_next (body : list (pystr * json)) : Prop :=
  ∃ paging, dict_get body (u "paging") (JObj []) = JObj paging
            ∧ truthy (dict_get paging (u "next") JNull) = false.

(** *** A mock server with two pages *)

Definition row_of (id : string) : json := JObj [(u "campaign_id", JStr (u id))].

Definition mock_page_1 : response :=
  {| status_code := 200;
     json_body :=
       Ok (JObj [(u "data", JList [row_of "1"; row_of "2"]);
                 (u "paging", JObj [(u "next", JStr (u "https://next/2"))])]) |}.

Definition mock_page_2 : response :=
  {| status_code := 200;
     json_body := Ok (JObj [(u "data", JList [row_of "3"])]) |}.

(** The state counts the calls; the first call gets page 1, any later
    call page 2. *)
Definition mock_get (req : request) (served : nat) : result response * nat :=
  match served with
  | O => (Ok mock_page_1, 1%nat)
  | S _ => (Ok mock_page_2, S served)
  end.

End Fetch.

(* ================================================================= *)
(** * [backend/ai_client.py] *)

Module AiClient.

(** ** The analysis client *)

Record chat_message : Type := {
  role : pystr;
  content : json
}.

Record chat_request : Type := {
  model : pystr;
  messages : list chat_message;
  temperature : Q;
  max_tokens : Z;
  frequency_penalty : Q;
  presence_penalty : Q
}.

(** What [analyze_campaigns_with_gpt] does to the outside, in order. *)
Inductive event : Type :=
| ClientCreated (api_key : pystr)
| ChatCompletionRequested (req : chat_request).

(** A computation that may raise and that leaves a trace of events. *)
Definition io (A : Type) : Type := (result A * list event)%type.

#[export] Instance io_ret : MRet io := λ A a, (Ok a, []).
#[export] Instance io_bind : MBind io :=
  λ A B k m,
    match m with
    | (Ok a, t) => let '(r, t') := k a in (r, t ++ t')
    | (Raise e, t) => (Raise e, t)
    end.

Definition emit (ev : event) : io unit := (Ok (), [ev]).
Definition lift {A : Type} (r : result A) : io A := (r, []).

(** The arguments that only [_build_prompt] reads. *)
Record prompt_inputs : Type := {
  campaigns : option (list json);
  adsets : option (list json);
  ads : option (list json);
  user_query : option pystr;
  period_label : option pystr;
  intents : option (list pystr)
}.

Definition missing_key_message : pystr :=
  u "OPENAI_API_KEY n" ++ [227%N] ++ u "o encontrado nas vari" ++ [225%N]
  ++ u "veis de ambiente.".

Definition system_message : chat_message :=
  {| role := u "system";
     content :=
       JStr (u "Voc" ++ [234%N] ++ u " " ++ [233%N]
             ++ u " um analista de m" ++ [237%N] ++ u "dia s" ++ [234%N]
             ++ u "nior especializado em Meta Ads. "
             ++ u "Nunca invente dados; se n" ++ [227%N]
             ++ u "o houver dado, diga claramente. "
             ++ u "Responda primeiro " ++ [224%N]
             ++ u " pergunta, depois mostre evid" ++ [234%N]
             ++ u "ncias e a" ++ [231%N; 245%N] ++ u "es.") |}.

(** [r = m.get("role", "user"); if r not in ("user", "assistant"): r = "user"] *)
Definition supported_role (r : json) : pystr :=
  match r with
  | JStr s => if str_eqb s (u "user") || str_eqb s (u "assistant")
              then s else u "user"
  | _ => u "user"
  end.

(** [history[-8:]] *)
Definition last_eight {A : Type} (l : list A) : list A :=
  drop (length l - 8) l.

(** The turns taken over from [history]. *)
Definition history_messages (history : option (list json))
  : result (list chat_message) :=
  match history with
  | None | Some [] => Ok []
  | Some turns =>
      traverse (λ m,
                  r ← py_get m (u "role") (JStr (u "user"));
                  c ← py_get m (u "content") (JStr []);
                  Ok {| role := supported_role r; content := c |})
               (last_eight turns)
  end.

Section WithProvider.
Context `{PyRuntime}.
(** The provider's client object, its constructor [OpenAI(api_key=...)],
    and [client.chat.completions.create(...)] followed by
    [.choices[0].message.content]; each may raise. *)
Context {Client : Type}.
Context (openai_client : pystr → result Client).
Context (chat_completions_create : Client → chat_request → result json).
(** The text that [_build_prompt] assembles from its arguments. The
    function renders frames as CSV and computes quantiles with pandas;
    the client only passes its result on, so it is a parameter here. Its
    share-of-total columns are embedded further down. *)
Context (_build_prompt : prompt_inputs → result pystr).

Definition analyze_campaigns_with_gpt (inputs : prompt_inputs)
    (api_key : pystr) (history : option (list json)) : io pystr :=
  if negb (truthy (JStr api_key))
  then lift (Raise (RuntimeError (JStr missing_key_message)))
  else
    _ ← emit (ClientCreated api_key);
    client ← lift (openai_client api_key);
    prompt ← lift (_build_prompt inputs);
    past ← lift (history_messages history);
    let req :=
      {| model := u "gpt-4o-mini";
         messages := system_message :: past
                     ++ [ {| role := u "user"; content := JStr prompt |} ];
         temperature := 0.25;
         max_tokens := 1600;
         frequency_penalty := 0.2;
         presence_penalty := 0.1 |} in
    _ ← emit (ChatCompletionRequested req);
    answer ← lift (chat_completions_create client req);
    lift (strip_method answer).

End WithProvider.

(** ** The share-of-total columns of [_build_prompt]

    The columns hold the floats that the normaliser wrote, so pandas
    gives them the type float64: the sum, the division and the
    multiplication below are binary64 operations. *)

(** The columns of a frame of normalised records that the computation
    reads. *)
Record frame_row : Type := {
  row_spend : float;
  row_purchase_value : float;
  row_roas : float
}.

(** A row of the frame after [spend_share] and [rev_share] were added. *)
Record shared_row : Type := {
  source_row : frame_row;
  spend_share : float;
  rev_share : float
}.

(** [float(total) or 1.0]: a zero of either sign is false, anything else,
    a NaN and an infinity too, is true. *)
Definition or_one (total : float) : float :=
  if truthy (JFloat total) then total else 1%float.

Section WithPandas.
(** [df[column].sum()]: pandas counts a NaN as zero and hands the column
    to NumPy, which chooses the order of the additions (a long column is
    added pairwise, in blocks). The result is whatever that order gives;
    it is a parameter here. *)
Context (series_sum : list float → float).

(** The four statements under [if not df.empty:]. A division by zero or
    by an infinity raises nothing: the cell is an infinity, a NaN or a
    zero. *)
Definition with_shares (df : list frame_row) : list shared_row :=
  let total_spend := or_one (series_sum (row_spend <$> df)) in
  let total_rev := or_one (series_sum (row_purchase_value <$> df)) in
  (λ r, {| source_row := r;
           spend_share := (row_spend r / total_spend * 100)%float;
           rev_share := (row_purchase_value r / total_rev * 100)%float |})
    <$> df.

(** [df.sort_values(by="roas", ascending=False)]: some reordering of the
    rows (the order among equal keys is the library's choice). *)
Context (sort_by_roas : list shared_row → list shared_row).

(** The frame written under one heading of the CSV view, for one
    granularity; [None] when [if records:] is false. *)
Definition csv_frame (records : list frame_row) : option (list shared_row) :=
  match records with
  | [] => None
  | _ => Some (sort_by_roas (with_shares records))
  end.

End WithPandas.

(** The additions in the order of the rows, from zero, a NaN counting as
    zero: one of the orders that [series_sum] can stand for. On the
    columns of the examples below every order gives the same total. *)
Definition sum_in_order (xs : list float) : float :=
  fold_left (λ acc x, (acc + (if is_nan x then 0 else x))%float) xs 0%float.

(** *** Reading a column as numbers *)

(** Neither an infinity nor a NaN. *)
Definition is_finite (f : float) : bool :=
  match Prim2SF f with
  | S754_zero _ | S754_finite _ _ _ => true
  | S754_infinity _ | S754_nan => false
  end.

(** The number that a finite float stands for (and 0 for the others). *)
Definition float_value (f : float) : Q :=
  match Prim2SF f with
  | S754_finite s m e =>
      ((if s then -1 else 1) * inject_Z (Z.pos m) * 2 ^ e)%Q
  | _ => 0%Q
  end.

(** The sum of a column in exact arithmetic. *)
Definition exact_sum (xs : list float) : Q :=
  foldr (λ x acc, (float_value x + acc)%Q) 0%Q xs.

(** Half the gap between 1 and the next binary64, and half the smallest
    positive binary64. *)
Definition unit_roundoff : Q := (2 ^ (-53))%Q.
Definition tiny : Q := (2 ^ (-1075))%Q.

(** A column that the claim is about: finite values, none negative, a
    finite positive total, and no share that overflowed. *)
Definition shareable (values : list float) (total : float)
    (shares : list float) : Prop :=
  Forall (λ x, is_finite x = true ∧ (0 <= float_value x)%Q) values
  ∧ is_finite total = true ∧ (0 < float_value total)%Q
  ∧ Forall (λ s, is_finite s = true) shares.

(** The total is the exact sum of the values within the relative error
    [accuracy]. *)
Definition total_within (accuracy : Q) (values : list float) (total : float)
  : Prop :=
  (Qabs (float_value total - exact_sum values)
   <= accuracy * exact_sum values)%Q.

(** The shares add up to 100 within the rounding of the total, of the
    divisions and of the multiplications, and within the underflow of
    each share. *)
Definition sums_to_100_within (accuracy : Q) (values : list float)
    (total : float) (shares : list float) : Prop :=
  (Qabs (exact_sum shares - 100)
   <= 100 * (accuracy + 2 * unit_roundoff + unit_roundoff * unit_roundoff)
      * (exact_sum values / float_value total)
      + 102 * inject_Z (Z.of_nat (length values)) * tiny)%Q.

(** *** Inputs of the worked examples *)

Definition frame_three : list frame_row :=
  [ {| row_spend := 10; row_purchase_value := 0; row_roas := 0 |};
    {| row_spend := 30; row_purchase_value := 0; row_roas := 0 |};
    {| row_spend := 60; row_purchase_value := 0; row_roas := 0 |} ].

(** Two records that spent 1e308 each (the float nearest to it, written
    in hexadecimal): the total is beyond the largest binary64. *)
Definition frame_huge : list frame_row :=
  [ {| row_spend := 0x1.1ccf385ebc8ap+1023; row_purchase_value := 0; row_roas := 0 |};
    {| row_spend := 0x1.1ccf385ebc8ap+1023; row_purchase_value := 0; row_roas := 0 |} ].

End AiClient.

(* ================================================================= *)
(** * [backend/main.py]: the response sanitiser *)

Module Main.

(** ** The regular expressions of the sanitiser

    Python's [re] searches by backtracking: alternatives are tried in
    order, a quantifier first takes as much as it can, and the first way
    to match is the match. [run] lists the ways a pattern matches at a
    position in that order, so that its head is the match [re] finds. *)

Inductive regex : Type :=
| Eps
| Chr (c : N)
| Class (f : N → bool)
| Seq (a b : regex)
| Alt (a b : regex)
| Star (a : regex)
| Group (a : regex)
| Behind (f : N → bool)
| Ahead (f : N → bool)
| AtEnd.

(** A position in the subject: the character before it, the text from it
    on, and the groups captured so far (the last one first). *)
Record cursor : Type := {
  prev : option N;
  rest : pystr;
  groups : list pystr
}.

Definition step_over (st : cursor) (c : N) (s : pystr) : cursor :=
  {| prev := Some c; rest := s; groups := groups st |}.

(** The text between two positions of the same subject. *)
Definition consumed (from to : cursor) : pystr :=
  take (length (rest from) - length (rest to)) (rest from).

(** [a*]: one more round of [a] when it moves forward, else stop. *)
Fixpoint star_loop (step : cursor → list cursor) (fuel : nat) (st : cursor)
  : list cursor :=
  match fuel with
  | O => [st]
  | S fuel' =>
      flat_map (λ st', if (length (rest st') <? length (rest st))%nat
                       then star_loop step fuel' st' else [])
               (step st)
      ++ [st]
  end.

Fixpoint run (r : regex) (st : cursor) : list cursor :=
  match r with
  | Eps => [st]
  | Chr c =>
      match rest st with
      | d :: s => if (c =? d)%N then [step_over st d s] else []
      | [] => []
      end
  | Class f =>
      match rest st with
      | d :: s => if f d then [step_over st d s] else []
      | [] => []
      end
  | Seq a b => flat_map (run b) (run a st)
  | Alt a b => run a st ++ run b st
  | Star a => star_loop (run a) (length (rest st)) st
  | Group a =>
      map (λ st', {| prev := prev st'; rest := rest st';
                     groups := consumed st st' :: groups st' |})
          (run a st)
  | Behind f =>
      match prev st with
      | Some p => if f p then [st] else []
      | None => []
      end
  | Ahead f =>
      match rest st with
      | d :: _ => if f d then [st] else []
      | [] => []
      end
  | AtEnd =>
      match rest st with
      | [] | [10%N] => [st]
      | _ => []
      end
  end.

Definition start_of (s : pystr) : cursor :=
  {| prev := None; rest := s; groups := [] |}.

(** [a+], [a?], a sequence, a literal, [[...]] and [.] *)
Definition plus (a : regex) : regex := Seq a (Star a).
Definition opt (a : regex) : regex := Alt a Eps.
Definition seq (parts : list regex) : regex := foldr Seq Eps parts.
Definition lit (s : pystr) : regex := seq (Chr <$> s).
Definition one_of (cs : pystr) : regex := Class (λ c, bool_decide (c ∈ cs)).
Definition dot : regex := Class (λ c, negb (c =? 10)%N).

(** [re.match(r, s) is not None] *)
Definition re_match (r : regex) (s : pystr) : bool :=
  match run r (start_of s) with [] => false | _ :: _ => true end.

(** [re.sub(r, repl, s)] for a pattern that starts with [^]: it can match
    at the start of the subject only. [repl] builds the replacement from
    the match: the text matched and the groups, last first. *)
Definition sub_at_start (r : regex) (repl : pystr → list pystr → pystr)
    (s : pystr) : pystr :=
  match run r (start_of s) with
  | st :: _ => repl (consumed (start_of s) st) (groups st) ++ rest st
  | [] => s
  end.

(** [re.sub(r, repl, s)]: the subject is scanned from left to right, a
    match is replaced and the scan goes on after it. [skip] counts the
    characters of a match still to be passed over. Every pattern of the
    sanitiser consumes at least one character, so a match is never
    empty. *)
Fixpoint sub_from (r : regex) (repl : pystr → list pystr → pystr)
    (skip : nat) (before : option N) (s : pystr) : pystr :=
  match s with
  | [] => []
  | c :: s' =>
      match skip with
      | S k => sub_from r repl k (Some c) s'
      | O =>
          let here := {| prev := before; rest := s; groups := [] |} in
          match run r here with
          | st :: _ =>
              match length (consumed here st) with
              | S k => repl (consumed here st) (groups st)
                       ++ sub_from r repl k (Some c) s'
              | O => c :: sub_from r repl 0 (Some c) s'
              end
          | [] => c :: sub_from r repl 0 (Some c) s'
          end
      end
  end.

Definition re_sub (r : regex) (repl : pystr → list pystr → pystr) (s : pystr)
  : pystr :=
  sub_from r repl 0 None s.

(** A replacement that is a constant text. *)
Definition constant (t : pystr) : pystr → list pystr → pystr := λ _ _, t.

Section WithRuntime.
Context `{PyRuntime}.

Definition ws : regex := Class is_space.
Definition digit : regex := Class is_digit.
Definition colon : regex := Chr 58.

(** [.*$] *)
Definition to_end : list regex := [Star dot; AtEnd].

(** The five header patterns, in the order of [banned]. *)
Definition banned : list regex :=
  [ (* ^\s*resposta\s+direta\s*:.*$ *)
    seq ([Star ws; lit (u "resposta"); plus ws; lit (u "direta"); Star ws;
          colon] ++ to_end);
    (* ^\s*evid[eê]ncias\s*:.*$ *)
    seq ([Star ws; lit (u "evid"); one_of [101; 234]%N; lit (u "ncias");
          Star ws; colon] ++ to_end);
    (* ^\s*a[cç][oõ]es\s+recomendadas\s*:.*$ *)
    seq ([Star ws; lit (u "a"); one_of [99; 231]%N; one_of [111; 245]%N;
          lit (u "es"); plus ws; lit (u "recomendadas"); Star ws; colon]
         ++ to_end);
    (* ^\s*riscos(?:/[oó]bserva[cç][oõ]es)?\s*:.*$ *)
    seq ([Star ws; lit (u "riscos");
          opt (seq [lit (u "/"); one_of [111; 243]%N; lit (u "bserva");
                    one_of [99; 231]%N; one_of [111; 245]%N; lit (u "es")]);
          Star ws; colon] ++ to_end);
    (* ^\s*pr[oó]ximos\s+passos\s*:.*$ *)
    seq ([Star ws; lit (u "pr"); one_of [111; 243]%N; lit (u "ximos");
          plus ws; lit (u "passos"); Star ws; colon] ++ to_end) ].

(** [^\s*[\-\*•]\s+] *)
Definition bullet_marker : regex :=
  seq [Star ws; one_of [45; 42; 8226]%N; plus ws].

(** [^\s*\d+[\.)\-]\s+] *)
Definition number_marker : regex :=
  seq [Star ws; plus digit; one_of [46; 41; 45]%N; plus ws].

(** [\n{3,}] *)
Definition blank_lines : regex := seq [Chr 10; Chr 10; Chr 10; Star (Chr 10)].

(** [(?<=\w)\n(?=\w)] *)
Definition wrapped_word : regex := seq [Behind is_word; Chr 10; Ahead is_word].

(** [\s*\\\s*] *)
Definition stray_backslash : regex := seq [Star ws; Chr 92; Star ws].

(** [[ \t]{2,}] *)
Definition blanks : regex :=
  seq [one_of [32; 9]%N; one_of [32; 9]%N; Star (one_of [32; 9]%N)].

(** [\s+([,.;:!?])] *)
Definition space_before_punctuation : regex :=
  seq [plus ws; Group (one_of [44; 46; 59; 58; 33; 63]%N)].

(** [\(\s+] and [\s+\)] *)
Definition space_after_paren : regex := seq [Chr 40; plus ws].
Definition space_before_paren : regex := seq [plus ws; Chr 41].

(** [R\$\s+] *)
Definition currency_space : regex := seq [Chr 82; Chr 36; plus ws].

(** [(\d)\s*,\s*(\d{1,2})] *)
Definition decimal_comma : regex :=
  seq [Group digit; Star ws; Chr 44; Star ws; Group (seq [digit; opt digit])].

(** The replacement [\1]. *)
Definition group_1 : pystr → list pystr → pystr :=
  λ _ gs, default [] (last gs).

(** The replacement [\1,\2]. *)
Definition group_1_comma_group_2 : pystr → list pystr → pystr :=
  λ _ gs, default [] (last gs) ++ [44%N] ++ default [] (head gs).

Definition PARA : pystr := u "<<PARA>>".

(** The loop over [t]: whitespace is kept, control and format characters
    are dropped, anything else is normalised. *)
Definition filter_characters (t : pystr) : pystr :=
  flat_map (λ ch,
              if bool_decide (ch ∈ [10; 32; 9]%N) then [ch]
              else if is_control ch then []
              else nfkc ch) t.

(** The loop over [lines]. *)
Definition clean_lines (lines : list pystr) : list pystr :=
  flat_map (λ ln,
              let low := str_lower (str_strip ln) in
              if existsb (λ p, re_match p low) banned then []
              else
                let ln := sub_at_start bullet_marker (constant []) ln in
                let ln := sub_at_start number_marker (constant []) ln in
                [ln]) lines.

Definition _sanitize_analysis (text : pystr) : pystr :=
  if negb (truthy (JStr text)) then text
  else
    let t := str_replace [13]%N [10]%N (str_replace [13; 10]%N [10]%N text) in
    let t := filter_characters t in
    let lines := str_split 10 t in
    let cleaned := clean_lines lines in
    let t := str_join [10]%N cleaned in
    let t := re_sub blank_lines (constant [10; 10]%N) t in
    let t := str_strip t in
    let t := str_replace [9]%N [32]%N t in
    let t := str_replace [10; 10]%N PARA t in
    let t := re_sub wrapped_word (constant []) t in
    let t := re_sub stray_backslash (constant []) t in
    let t := str_replace [10]%N [32]%N t in
    let t := str_replace PARA [10; 10]%N t in
    let t := re_sub blanks (constant [32]%N) t in
    let t := re_sub space_before_punctuation group_1 t in
    let t := re_sub space_after_paren (constant [40]%N) t in
    let t := re_sub space_before_paren (constant [41]%N) t in
    let t := str_replace (u "R $") (u "R$") t in
    let t := re_sub currency_space (constant (u "R$ ")) t in
    let t := re_sub decimal_comma group_1_comma_group_2 t in
    str_strip t.

End WithRuntime.

(** Every match of the pattern contains a character that satisfies [P]. *)
Fixpoint requires (P : N → Prop) (r : regex) : Prop :=
  match r with
  | Chr c => P c
  | Class f => ∀ c, f c = true → P c
  | Seq a b => requires P a ∨ requires P b
  | Alt a b => requires P a ∧ requires P b
  | Group a => requires P a
  | Eps | Star _ | Behind _ | Ahead _ | AtEnd => False
  end.

(** *** Inputs of the worked examples *)

(** The text of the specification's example:
    "Resposta direta: X", a bullet line, three blank lines, "Fim." *)
Definition reply_with_header : pystr :=
  u "Resposta direta: X" ++ [10%N] ++ u "- item um" ++ [10; 10; 10; 10]%N
  ++ u "Fim.".

End Main.

(* ================================================================= *)
(** * Pagination at large *)

Module Pages.
Import Fetch.

Section WithServer.
Context {W : Type} (http_get : request → W → result response * W).
Context (timeout : Z).

(** [followed req w rows issued req' w']: starting with the request [req]
    in the state [w], the server answers with successful pages that each
    name a next page; [rows] are their rows in the order served, [issued]
    the requests made for them, and [req'] is the request that the last
    of these pages asks for, to be made in the state [w']. *)
Inductive followed
  : request → W → list json → list request → request → W → Prop :=
| followed_none req w : followed req w [] [] req w
| followed_page req w resp w1 body rows cursor rows' issued req' w' :
    http_get req w = (Ok resp, w1) →
    page_of resp body rows →
    has_next body cursor →
    followed (cursor_request (JStr cursor) timeout) w1 rows' issued req' w' →
    followed req w (rows ++ rows') (req :: issued) req' w'.

(** Each request of [later] goes to the URL that the response to the
    request before it named as next: the truthy value of [paging.next] in
    its body. *)
Fixpoint cursors_followed (req : request) (w : W) (later : list request)
  : Prop :=
  match later with
  | [] => True
  | next :: later' =>
      ∃ resp w1 data paging,
        http_get req w = (Ok resp, w1)
        ∧ json_body resp = Ok data
        ∧ py_get data (u "paging") (JObj []) = Ok paging
        ∧ py_get paging (u "next") JNull = Ok (req_url next)
        ∧ truthy (req_url next) = true
        ∧ cursors_followed next w1 later'
  end.

End WithServer.

(** [valid_levels] of [fetch_insights_by_level]. *)
Definition valid_levels : list pystr := [u "campaign"; u "adset"; u "ad"].

(** The first request of [fetch_insights_by_level] at a level whose
    identification fields are [ids]. *)
Definition level_request (access_token ad_account_id level : pystr)
    (ids : list pystr) (date_preset : pystr) (since until : option pystr)
    (timeout : Z) : request :=
  {| req_url := insights_url ad_account_id;
     req_params := query_params (ids ++ common_fields) level access_token
                     since until date_preset;
     req_timeout := timeout |}.

(** A request that follows a cursor: no parameters, the caller's
    timeout. *)
Definition follow_up (timeout : Z) (req : request) : Prop :=
  req_params req = [] ∧ req_timeout req = timeout.

(** A response that the loop treats as a failure: its body is a JSON
    object, and the status is not 200 or the body has an [error] key. *)
Definition failed_page (resp : response) (body : list (pystr * json)) : Prop :=
  json_body resp = Ok (JObj body)
  ∧ (status_code resp ≠ 200 ∨ py_in (u "error") (JObj body) = Ok true).

Definition default_error_message : json :=
  JStr (u "Erro ao consultar Meta Graph API").

(** *** A mock server whose second page fails *)

Definition mock_error_page : response :=
  {| status_code := 400;
     json_body :=
       Ok (JObj [(u "error",
                  JObj [(u "message", JStr (u "(#17) User request limit reached"));
                        (u "code", JInt 17)])]) |}.

Definition mock_get_failing (req : request) (served : nat)
  : result response * nat :=
  match served with
  | O => (Ok mock_page_1, 1%nat)
  | S _ => (Ok mock_error_page, S served)
  end.

(** *** A mock server with three pages *)

Definition mock_page_middle : response :=
  {| status_code := 200;
     json_body :=
       Ok (JObj [(u "data", JList [row_of "2a"]);
                 (u "paging", JObj [(u "next", JStr (u "https://next/3"))])]) |}.

Definition mock_get_three (req : request) (served : nat)
  : result response * nat :=
  match served with
  | 0%nat => (Ok mock_page_1, 1%nat)
  | 1%nat => (Ok mock_page_middle, 2%nat)
  | _ => (Ok mock_page_2, S served)
  end.

End Pages.

(* ================================================================= *)
(** * Vocabulary for the conversation sent to the provider *)

Module Dialogue.
Import AiClient.

(** A role that [analyze_campaigns_with_gpt] lets through for a turn of
    the history. *)
Definition conversational (m : chat_message) : Prop :=
  role m = u "user" ∨ role m = u "assistant".

(** The message that carries the prompt. *)
Definition prompt_message (prompt : pystr) : chat_message :=
  {| role := u "user"; content := JStr prompt |}.

(** *** A mock provider and a history of nine turns *)

Definition mock_openai_client (api_key : pystr) : result unit := Ok ().

Definition mock_create (client : unit) (req : chat_request) : result json :=
  Ok (JStr (u "  ROAS 2.1 na campanha A. ")).

Definition mock_prompt (inputs : prompt_inputs) : result pystr :=
  Ok (u "Contexto: ...").

Definition no_inputs : prompt_inputs :=
  {| campaigns := None; adsets := None; ads := None; user_query := None;
     period_label := None; intents := None |}.

Definition turn (role content : string) : json :=
  JObj [(u "role", JStr (u role)); (u "content", JStr (u content))].

(** The first turn is not even a dictionary; the fourth has a role the
    provider does not know and the fifth has none. *)
Definition mock_history : list json :=
  [ JInt 0; turn "user" "q1"; turn "assistant" "a1"; turn "tool" "x";
    JObj [(u "content", JStr (u "q2"))]; turn "assistant" "a2";
    turn "user" "q3"; turn "assistant" "a3"; turn "user" "q4" ].

(** The eight turns taken over from [mock_history]. *)
Definition mock_past : list chat_message :=
  [ {| role := u "user"; content := JStr (u "q1") |};
    {| role := u "assistant"; content := JStr (u "a1") |};
    {| role := u "user"; content := JStr (u "x") |};
    {| role := u "user"; content := JStr (u "q2") |};
    {| role := u "assistant"; content := JStr (u "a2") |};
    {| role := u "user"; content := JStr (u "q3") |};
    {| role := u "assistant"; content := JStr (u "a3") |};
    {| role := u "user"; content := JStr (u "q4") |} ].

Definition mock_request : chat_request :=
  {| model := u "gpt-4o-mini";
     messages := system_message :: mock_past
                 ++ [prompt_message (u "Contexto: ...")];
     temperature := 0.25;
     max_tokens := 1600;
     frequency_penalty := 0.2;
     presence_penalty := 0.1 |}.

End Dialogue.

(* ================================================================= *)
(** * Vocabulary for the shape of sanitised text *)

Module Tidy.
Import Main.

(** What is left of the subject and what the groups hold are made of
    characters that satisfy [P]. *)
Definition from_subject (P : N → Prop) (st : cursor) : Prop :=
  Forall P (rest st) ∧ Forall (Forall P) (groups st).

Section WithRuntime.
Context `{PyRuntime}.

(** Neither the first nor the last character is white space. *)
Definition trimmed (s : pystr) : Prop :=
  (∀ c, head s = Some c → is_space c = false)
  ∧ (∀ c, last s = Some c → is_space c = false).

End WithRuntime.

(** A printable ASCII character or a newline; the same or a tab. *)
Definition printable (c : N) : bool := between 32 126 c || (c =? 10)%N.
Definition printable_or_tab (c : N) : bool := printable c || (c =? 9)%N.

(** A reply with tabs, a stray backslash and white space at both ends. *)
Definition reply_with_tabs : pystr :=
  u " " ++ [9%N] ++ u "ROAS" ++ [9%N] ++ u "2,1 " ++ [92%N] ++ u " ok"
  ++ [9; 10]%N.

End Tidy.

(* ================================================================= *)
(** * [backend/main.py] and [backend/ai_client.py]: intents and style *)

Module Intents.

(** ** The keywords of the analysis endpoints *)

(** [any(k in t for k in keywords)] on a text [t]. *)
Definition any_keyword (keywords : list pystr) (t : pystr) : bool :=
  existsb (λ k, is_substring k t) keywords.

Definition creative_keywords : list pystr :=
  [ u "criativo";
    u "criativos";
    u "anuncio";
    u "an" ++ [250]%N ++ u "ncio";
    u "ads" ].

Definition adset_keywords : list pystr :=
  [ u "conjunto";
    u "conjuntos";
    u "adset" ].

Definition budget_keywords : list pystr :=
  [ u "or" ++ [231]%N ++ u "amento";
    u "budget";
    u "gastar";
    u "investir";
    u "escala" ].

Definition diagnosis_keywords : list pystr :=
  [ u "problema";
    u "cairam";
    u "queda";
    u "queda de desempenho";
    u "troubleshooting" ].

Definition product_keywords : list pystr :=
  [ u "novo produto";
    u "novos produtos";
    u "lan" ++ [231]%N ++ u "ar";
    u "lan" ++ [231]%N ++ u "amento";
    u "go to market" ].

Definition structure_keywords : list pystr :=
  [ u "estrutura";
    u "funnel";
    u "funil";
    u "campanhas";
    u "conjuntos" ].

Section WithRuntime.
Context `{PyRuntime}.

(** [any(k in text for k in [...]) if user_message else False], where
    [text = (user_message or "").lower()]. *)
Definition wants_ads (user_message : option pystr) : bool :=
  if truthy (default JNull (JStr <$> user_message))
  then any_keyword creative_keywords (str_lower (default [] user_message))
  else false.

Definition wants_adsets (user_message : option pystr) : bool :=
  if truthy (default JNull (JStr <$> user_message))
  then any_keyword adset_keywords (str_lower (default [] user_message))
  else false.

(** [intent = []; if user_message: t = user_message.lower(); ...] *)
Definition intent (user_message : option pystr) : list pystr :=
  if truthy (default JNull (JStr <$> user_message))
  then
    let t := str_lower (default [] user_message) in
    (if any_keyword creative_keywords t then [u "analise_criativos"] else [])
    ++ (if any_keyword budget_keywords t then [u "alocacao_orcamento"] else [])
    ++ (if any_keyword diagnosis_keywords t then [u "diagnostico"] else [])
    ++ (if any_keyword product_keywords t then [u "novo_produto"] else [])
    ++ (if any_keyword structure_keywords t then [u "estrutura"] else [])
  else [].

(** [augmented_query]: the message, followed by the detected intents
    when there are any. *)
Definition augmented_query (user_message : option pystr) : option pystr :=
  match intent user_message with
  | [] => user_message
  | tags =>
      Some (default (u "None") user_message
            ++ [10; 10]%N ++ u "Inten" ++ [231; 227]%N ++ u "o detectada: "
            ++ str_join (u ", ") tags)
  end.

(** [include_levels] of [analyze_post], once the user's message has
    refined it. *)
Definition include_levels (given : option (list pystr))
    (user_message : option pystr) : list pystr :=
  let include_levels :=
    match given with
    | Some (l :: ls) => l :: ls
    | _ => [u "campaign"; u "adset"; u "ad"]
    end in
  let text := str_lower (default [] user_message) in
  let include_levels :=
    if negb (bool_decide (u "ad" ∈ include_levels))
       && any_keyword creative_keywords text
    then include_levels ++ [u "ad"] else include_levels in
  if negb (bool_decide (u "adset" ∈ include_levels))
     && any_keyword adset_keywords text
  then include_levels ++ [u "adset"] else include_levels.

End WithRuntime.

(** ** The style directives of [_build_prompt] *)

Definition creative_mode : pystr :=
  u "Modo: Relat" ++ [243]%N ++ u "rio de criativos " ++ [8212]%N
  ++ u " comece listando os 3" ++ [8211]%N ++ u "5 melhores an" ++ [250]%N
  ++ u "ncios por objetivo (ROAS, compras, CTR), depois insights sobre padr"
  ++ [245]%N ++ u "es de criativos (formato, " ++ [226]%N
  ++ u "ngulos, hooks) e um plano de teste A/B multivariado (3 hip"
  ++ [243]%N ++ u "teses).".

Definition budget_mode : pystr :=
  u "Modo: Plano de or" ++ [231]%N ++ u "amento " ++ [8212]%N
  ++ u " traga uma tabela (texto) de realoca" ++ [231; 227]%N
  ++ u "o com campanha/conjunto/an" ++ [250]%N
  ++ u "ncio, spend_share atual " ++ [8594]%N
  ++ u " sugerido, e justificativa breve; finalize com regras autom"
  ++ [225]%N ++ u "ticas (limiares de pausa/escala).".

Definition diagnosis_mode : pystr :=
  u "Modo: Diagn" ++ [243]%N ++ u "stico " ++ [8212]%N
  ++ u " destaque quedas versus mediana (p50) e aponte 3 causas prov"
  ++ [225]%N ++ u "veis por n" ++ [237]%N ++ u "vel, com passos de corre"
  ++ [231; 227]%N ++ u "o imediatos.".

Definition go_to_market_mode : pystr :=
  u "Modo: Go-to-market " ++ [8212]%N
  ++ u " proponha estrutura Prospecting/Retargeting/Retention, com metas"
  ++ u " de CTR/CPC/ROAS e or" ++ [231]%N
  ++ u "amentos iniciais proporcionais; inclua timeline de 2 semanas com"
  ++ u " checkpoints.".

Definition default_mode : pystr :=
  u "Modo: Responda de forma espec" ++ [237]%N
  ++ u "fica para a pergunta do usu" ++ [225]%N
  ++ u "rio, sem formato fixo, escolhendo o estilo mais adequado (lista,"
  ++ u " passos, mini-tabela, ou plano).".

(** [any(i in intents for i in tags)] on a list [intents]. *)
Definition any_tag (tags intents : list pystr) : bool :=
  existsb (λ i, bool_decide (i ∈ intents)) tags.

(** [style_guidance], from [intents = intents or []] to the default
    directive. *)
Definition style_guidance (intents : option (list pystr)) : list pystr :=
  let intents := default [] intents in
  let style_guidance :=
    (if any_tag [u "analise_criativos"; u "creative_strategy"; u "criativos"]
          intents
     then [creative_mode] else [])
    ++ (if any_tag [u "alocacao_orcamento"; u "budget_plan"; u "escala";
                    u "growth"] intents
        then [budget_mode] else [])
    ++ (if any_tag [u "diagnostico"; u "troubleshooting"; u "queda"] intents
        then [diagnosis_mode] else [])
    ++ (if any_tag [u "novo_produto"; u "go_to_market"; u "estrutura";
                    u "funnel"; u "funil"] intents
        then [go_to_market_mode] else []) in
  match style_guidance with
  | [] => [default_mode]
  | _ :: _ => style_guidance
  end.

(** [style_text] *)
Definition style_text (intents : option (list pystr)) : pystr :=
  str_join [10%N] (style_guidance intents).

End Intents.

(* ================================================================= *)
(** * Vocabulary and inputs for more on purchase resolution *)

Module Actions.
Import MetaClient.

(** What [_pick_purchase_count] reads of an entry. *)
Definition count_of `{PyRuntime} (e : list (pystr * json)) : Z :=
  _to_int (dict_get e (u "value") (JInt 0)).

(** What [_pick_purchase_value] reads of an entry. *)
Definition value_of `{PyRuntime} (e : list (pystr * json)) : float :=
  _to_float (dict_get e (u "value") (JFloat 0)).

Section WithRuntime.
Context `{PyRuntime}.

(** The row has no purchase-like entry: [actions] and [action_values] are
    each absent or a list of dictionaries with text tags, none of them
    purchase-like. *)
Definition without_purchases (row : list (pystr * json)) : Prop :=
  ∃ acts vals,
    dict_get row (u "actions") (JList []) = JList (JObj <$> acts)
    ∧ dict_get row (u "action_values") (JList []) = JList (JObj <$> vals)
    ∧ Forall (λ e, has_text_tag e = true) (acts ++ vals)
    ∧ Forall (λ e, counted e = false) (acts ++ vals).

(** The row was shown and never clicked, after coercion. *)
Definition unclicked (row : list (pystr * json)) : Prop :=
  0 < _to_int (dict_get row (u "impressions") (JInt 0))
  ∧ _to_int (dict_get row (u "clicks") (JInt 0)) = 0.

End WithRuntime.

Definition sold_nothing (m : metrics) : Prop :=
  purchases m = 0 ∧ purchase_value m = 0%float ∧ roas m = 0%float.

(** The two suffixes that [_is_purchase_type] accepts, on a lowercased
    tag. *)
Definition purchase_suffix (at_ : pystr) : bool :=
  endswith at_ (u ".purchase") || endswith at_ (u "_purchase").

(** Clicks, one purchase, and an addition to the cart. *)
Definition actions_mixed : list (list (pystr * json)) :=
  [ entry "link_click" (JStr (u "10")); entry "purchase" (JStr (u "3"));
    entry "add_to_cart" (JStr (u "7")) ].

(** Two custom conversions and a page view, no tag of the priority list. *)
Definition actions_custom : list (list (pystr * json)) :=
  [ entry "offsite_conversion.custom_purchase" (JStr (u "2"));
    entry "page_view" (JStr (u "40"));
    entry "app_custom_event.fb_mobile_purchase" (JStr (u "5")) ].

(** A row that was shown 500 times and never clicked, for which the API
    reports a ctr of 1.5. *)
Definition row_without_clicks : list (pystr * json) :=
  [ (u "impressions", JStr (u "500")); (u "clicks", JStr (u "0"));
    (u "ctr", JStr (u "1.5")) ].

(** A row that was shown and clicked but sold nothing. *)
Definition row_without_purchases : list (pystr * json) :=
  [ (u "campaign_id", JStr (u "9")); (u "impressions", JStr (u "200"));
    (u "clicks", JStr (u "4")); (u "spend", JStr (u "12.5"));
    (u "actions", JList [JObj (entry "link_click" (JStr (u "4")))]) ].

End Actions.

(* ================================================================= *)
(** * Vocabulary for text that the sanitiser leaves as it is *)

Module Settled.
Import Main.

(** What it means for a pattern to match between two positions, whatever
    the order in which the matcher tries the ways to match. *)
Inductive matches : regex → cursor → cursor → Prop :=
| matches_eps st : matches Eps st st
| matches_chr c st s :
    rest st = c :: s → matches (Chr c) st (step_over st c s)
| matches_class (f : N → bool) d st s :
    rest st = d :: s → f d = true → matches (Class f) st (step_over st d s)
| matches_seq a b st mid st' :
    matches a st mid → matches b mid st' → matches (Seq a b) st st'
| matches_alt_l a b st st' : matches a st st' → matches (Alt a b) st st'
| matches_alt_r a b st st' : matches b st st' → matches (Alt a b) st st'
| matches_star_stop a st : matches (Star a) st st
| matches_star_more a st mid st' :
    matches a st mid → matches (Star a) mid st' → matches (Star a) st st'
| matches_group a st st' :
    matches a st st' →
    matches (Group a) st
      {| prev := prev st'; rest := rest st';
         groups := consumed st st' :: groups st' |}
| matches_behind (f : N → bool) p st :
    prev st = Some p → f p = true → matches (Behind f) st st
| matches_ahead (f : N → bool) d s st :
    rest st = d :: s → f d = true → matches (Ahead f) st st
| matches_at_end st :
    rest st = [] ∨ rest st = [10%N] → matches AtEnd st st.

(** The test [bad] fails on the text and on what is left of it from every
    later position. *)
Fixpoint nowhere (bad : pystr → bool) (s : pystr) : bool :=
  negb (bad s)
  && match s with
     | [] => true
     | _ :: s' => nowhere bad s'
     end.

(** A substitution leaves the text from this position as it is: the
    pattern does not match here, or what replaces the match is the text
    matched. *)
Definition fixed_at (r : regex) (repl : pystr → list pystr → pystr)
    (before : option N) (s : pystr) : Prop :=
  let here := {| prev := before; rest := s; groups := [] |} in
  match run r here with
  | [] => True
  | st :: _ => repl (consumed here st) (groups st) = consumed here st
  end.

Section WithRuntime.
Context `{PyRuntime}.

(** A character that the first steps keep as it is: a newline, a space,
    or a character that is no control character, no backslash, and its
    own NFKC form. *)
Definition settled_character (c : N) : bool :=
  (c =? 10)%N || (c =? 32)%N
  || (negb (is_control c) && bool_decide (nfkc c = [c]) && negb (c =? 92)%N).

(** The line is one of the banned headers; the line begins with a list
    marker. *)
Definition is_header (ln : pystr) : bool :=
  existsb (λ p, re_match p (str_lower (str_strip ln))) banned.
Definition is_marked (ln : pystr) : bool :=
  re_match bullet_marker ln || re_match number_marker ln.

Definition punctuation (c : N) : bool :=
  bool_decide (c ∈ [44; 46; 59; 58; 33; 63]%N).

(** White space, if any, and then a digit. *)
Fixpoint reaches_digit (s : pystr) : bool :=
  match s with
  | c :: s' => is_digit c || (is_space c && reaches_digit s')
  | [] => false
  end.

(** What a later step would change, as a test on the text from a
    position on. Two spaces: *)
Definition double_space (s : pystr) : bool :=
  match s with
  | a :: b :: _ => (a =? 32)%N && (b =? 32)%N
  | _ => false
  end.

(** white space before a punctuation mark or a closing parenthesis, or
    after an opening one: *)
Definition space_then_punctuation (s : pystr) : bool :=
  match s with
  | a :: b :: _ => is_space a && punctuation b
  | _ => false
  end.
Definition space_then_paren (s : pystr) : bool :=
  match s with
  | a :: b :: _ => is_space a && (b =? 41)%N
  | _ => false
  end.
Definition paren_then_space (s : pystr) : bool :=
  match s with
  | a :: b :: _ => (a =? 40)%N && is_space b
  | _ => false
  end.

(** a newline after another character that is not followed by a second
    newline: *)
Definition lone_newline (s : pystr) : bool :=
  match s with
  | a :: b :: s' =>
      negb (a =? 10)%N && (b =? 10)%N
      && match s' with
         | c :: _ => negb (c =? 10)%N
         | [] => true
         end
  | _ => false
  end.

(** "R$" and then white space other than one space before the amount: *)
Definition loose_currency (s : pystr) : bool :=
  match s with
  | a :: b :: w :: s' =>
      (a =? 82)%N && (b =? 36)%N && is_space w
      && negb ((w =? 32)%N
               && match s' with
                  | x :: _ => negb (is_space x)
                  | [] => true
                  end)
  | _ => false
  end.

(** a digit, a comma, white space and a digit. *)
Definition spaced_decimal (s : pystr) : bool :=
  match s with
  | a :: b :: w :: s' =>
      is_digit a && (b =? 44)%N && is_space w && reaches_digit (w :: s')
  | _ => false
  end.

(** Something that a later step would change begins at this position:
    one of the above, three newlines, the paragraph token or "R $". *)
Definition unsettled_at (s : pystr) : bool :=
  is_prefix [10; 10; 10]%N s
  || is_prefix PARA s
  || is_prefix (u "R $") s
  || double_space s
  || space_then_punctuation s
  || space_then_paren s
  || paren_then_space s
  || lone_newline s
  || loose_currency s
  || spaced_decimal s.

(** White space neither at the start nor at the end. *)
Definition no_outer_space (t : pystr) : bool :=
  match t with
  | c :: _ => negb (is_space c)
  | [] => true
  end
  && match last t with
     | Some c => negb (is_space c)
     | None => true
     end.

(** Text in which the sanitiser finds nothing to do: settled characters
    only, no line that is a banned header or begins with a list marker,
    no white space around it, and nothing unsettled anywhere. *)
Definition settled (t : pystr) : bool :=
  forallb settled_character t
  && forallb (λ ln, negb (is_header ln || is_marked ln)) (str_split 10 t)
  && no_outer_space t
  && nowhere unsettled_at t.

End WithRuntime.

End Settled.

(* ================================================================= *)
(** * Vocabulary for the rounding of a binary64 operation *)

Module Rounding.

(** Where the exact mantissa [m + a / b] lies between [m] and [m + 1],
    as a location says it. *)
Definition inbetween (l : location) (a b : Z) : Prop :=
  match l with
  | loc_Exact => a = 0
  | loc_Inexact Lt => 0 < a ∧ 2 * a < b
  | loc_Inexact Eq => 0 < a ∧ 2 * a = b
  | loc_Inexact Gt => b < 2 * a
  end.

End Rounding.

(* ================================================================= *)
(** * Facts about raising computations *)

Module PyFacts.

Lemma bind_Ok {A B : Type} (x : A) (k : A → result B) : (Ok x ≫= k) = k x.
Proof. reflexivity. Qed.

End PyFacts.

Import PyFacts.

(* ================================================================= *)
(** * Properties of [backend/meta_client.py] *)

Module MetaClientProofs.
Import MetaClient.

Section WithRuntime.
Context `{PyRuntime}.

Implicit Types (e a : list (pystr * json)) (es : list (list (pystr * json))).
Implicit Types (t : pystr) (by_type : gmap pystr json).

(** [actions or []] followed by iteration visits the entries in order. *)
Lemma iter_or_empty (l : list json) :
  py_iter (py_or (JList l) (JList [])) = Ok l.
Proof. by destruct l. Qed.

Lemma index_by_type_from by_type es :
  foldM (λ (m : gmap pystr json) (x : json),
           k ← py_get x (u "action_type") (JStr []);
           Ok (<[str_lower (py_str k) := x]> m))
        by_type (JObj <$> es)
  = Ok (foldl file_entry by_type es).
Proof.
  revert by_type. induction es as [|e es IH]; intros by_type; [done|].
  cbn. apply IH.
Qed.

Lemma index_by_type_dicts es :
  index_by_type (JObj <$> es) = Ok (foldl file_entry ∅ es).
Proof. apply index_by_type_from. Qed.

(** Entries filed under other keys leave the slot of [t] alone. *)
Lemma lookup_index_other t by_type es :
  Forall (λ e, index_key e ≠ t) es →
  foldl file_entry by_type es !! t = by_type !! t.
Proof.
  revert by_type. induction es as [|e es IH]; intros by_type Hes; [done|].
  inversion Hes as [|?? Hne Hes']; subst. cbn.
  rewrite IH by done. unfold file_entry. by rewrite lookup_insert_ne.
Qed.

(** The slot of [t] holds the last entry filed under [t]. *)
Lemma lookup_index_last t by_type before a after :
  index_key a = t →
  Forall (λ e, index_key e ≠ t) after →
  foldl file_entry by_type (before ++ a :: after) !! t = Some (JObj a).
Proof.
  intros Ha Hafter. rewrite foldl_app. cbn.
  rewrite lookup_index_other by done.
  unfold file_entry. rewrite Ha. apply lookup_insert_eq.
Qed.

Lemma first_by_priority_skip by_type pre tags :
  Forall (λ t, by_type !! t = None) pre →
  first_by_priority by_type (pre ++ tags) = first_by_priority by_type tags.
Proof.
  induction 1 as [|t pre Ht _ IH]; [done|]. cbn. by rewrite Ht.
Qed.

Lemma first_by_priority_none by_type tags :
  Forall (λ t, by_type !! t = None) tags →
  first_by_priority by_type tags = None.
Proof.
  intros Hall. rewrite <- (app_nil_r tags).
  by rewrite first_by_priority_skip.
Qed.

(** The priority scan stops at the earliest tag that some entry carries,
    and yields the last entry carrying it. *)
Lemma priority_scan pre t post es before a after :
  PURCHASE_PRIORITY = pre ++ t :: post →
  Forall (λ t', Forall (λ e, index_key e ≠ t') es) pre →
  es = before ++ a :: after →
  index_key a = t →
  Forall (λ e, index_key e ≠ t) after →
  first_by_priority (foldl file_entry ∅ es) PURCHASE_PRIORITY = Some (JObj a).
Proof.
  intros -> Hpre -> Ha Hafter.
  rewrite first_by_priority_skip.
  - cbn. by rewrite lookup_index_last.
  - eapply Forall_impl; [exact Hpre|]. intros t' Ht'. cbn in Ht'.
    by rewrite lookup_index_other.
Qed.

Lemma pick_count_by_priority pre t post es before a after :
  PURCHASE_PRIORITY = pre ++ t :: post →
  Forall (λ t', Forall (λ e, index_key e ≠ t') es) pre →
  es = before ++ a :: after →
  index_key a = t →
  Forall (λ e, index_key e ≠ t) after →
  _pick_purchase_count (JList (JObj <$> es))
  = Ok (_to_int (dict_get a (u "value") (JInt 0))).
Proof.
  intros Hprio Hpre Hes Ha Hafter. unfold _pick_purchase_count.
  rewrite iter_or_empty, bind_Ok, index_by_type_dicts, bind_Ok.
  by rewrite (priority_scan pre t post es before a after).
Qed.

Lemma pick_value_by_priority pre t post es before a after :
  PURCHASE_PRIORITY = pre ++ t :: post →
  Forall (λ t', Forall (λ e, index_key e ≠ t') es) pre →
  es = before ++ a :: after →
  index_key a = t →
  Forall (λ e, index_key e ≠ t) after →
  _pick_purchase_value (JList (JObj <$> es))
  = Ok (_to_float (dict_get a (u "value") (JFloat 0))).
Proof.
  intros Hprio Hpre Hes Ha Hafter. unfold _pick_purchase_value.
  rewrite iter_or_empty, bind_Ok, index_by_type_dicts, bind_Ok.
  by rewrite (priority_scan pre t post es before a after).
Qed.

(** *** The fallback sum *)

Lemma text_tag_get e :
  has_text_tag e = true →
  dict_get e (u "action_type") (JStr []) = JStr (text_tag e).
Proof.
  unfold has_text_tag, text_tag, dict_get.
  destruct (dict_lookup e (u "action_type")) as [[]|]; done.
Qed.

Lemma text_tag_index_key e :
  has_text_tag e = true → index_key e = str_lower (text_tag e).
Proof. intros He. unfold index_key. by rewrite text_tag_get. Qed.

Lemma text_tag_is_purchase_type e :
  has_text_tag e = true →
  _is_purchase_type (dict_get e (u "action_type") JNull)
  = Ok (purchase_like (str_lower (text_tag e))).
Proof.
  unfold has_text_tag, text_tag, dict_get.
  destruct (dict_lookup e (u "action_type")) as [[| | | |s| |]|]; try done.
  intros _. cbn [default]. by destruct s.
Qed.

Lemma fallback_count_from (total : Z) es :
  Forall (λ e, has_text_tag e = true) es →
  foldM (λ (total : Z) (x : json),
           k ← py_get x (u "action_type") JNull;
           is_purchase ← _is_purchase_type k;
           if is_purchase : bool
           then v ← py_get x (u "value") (JInt 0); Ok (total + _to_int v)
           else Ok total)
        total (JObj <$> es)
  = Ok (foldl Z.add total
          ((λ e, _to_int (dict_get e (u "value") (JInt 0)))
             <$> filter (λ e, counted e = true) es)).
Proof.
  intros Hes. revert total.
  induction Hes as [|e es He _ IH]; intros total; [done|].
  rewrite fmap_cons. cbn [foldM py_get]. rewrite bind_Ok.
  rewrite text_tag_is_purchase_type, bind_Ok by done.
  rewrite filter_cons. fold (counted e).
  destruct (counted e) eqn:Hc.
  - rewrite decide_True by done. rewrite bind_Ok, bind_Ok, IH. done.
  - rewrite decide_False by (by intros ?). rewrite bind_Ok, IH. done.
Qed.

Lemma no_priority_tag_scan es :
  Forall (λ e, index_key e ∉ PURCHASE_PRIORITY) es →
  first_by_priority (foldl file_entry ∅ es) PURCHASE_PRIORITY = None.
Proof.
  intros Hes. apply first_by_priority_none, Forall_forall. intros t Ht.
  rewrite lookup_index_other; [done|].
  eapply Forall_impl; [exact Hes|].
  intros e He Heq. apply He. by rewrite Heq.
Qed.

(** *** Integers and floats *)

Lemma digits2_pos_bound (m : positive) : Z.pos m < 2 ^ Z.pos (digits2_pos m).
Proof.
  induction m as [m IH|m IH|]; cbn [digits2_pos]; [| |done].
  - rewrite Pos2Z.inj_succ, Z.pow_succ_r by lia. lia.
  - rewrite Pos2Z.inj_succ, Z.pow_succ_r by lia. lia.
Qed.

(** A finite binary64 has at most 53 significant bits and an exponent of
    at most 971. *)
Lemma valid_finite_bounds (s : bool) (m : positive) (e : Z) :
  valid_binary (S754_finite s m e) = true → Z.pos m < 2 ^ 53 ∧ e ≤ 971.
Proof.
  unfold valid_binary, bounded, canonical_mantissa, fexp, SpecFloat.emin.
  intros Hv. apply andb_prop in Hv as [Hc He].
  apply Z.eqb_eq in Hc. apply Z.leb_le in He.
  change (emax - prec) with 971 in He. change (prec) with 53 in Hc.
  split; [|done].
  pose proof (digits2_pos_bound m) as Hd.
  assert (Z.pos (digits2_pos m) ≤ 53) as Hle by lia.
  eapply Z.lt_le_trans; [exact Hd|]. by apply Z.pow_le_mono_r.
Qed.

Lemma int_of_float_bound (f : float) (z : Z) :
  int_of_float f = Ok z → Z.abs z ≤ max_float_int.
Proof.
  unfold int_of_float. pose proof (Prim2SF_valid f) as Hv.
  destruct (Prim2SF f) as [| | |s m e]; try discriminate.
  { by intros [= <-]. }
  intros [= <-]. apply valid_finite_bounds in Hv as [Hm He].
  assert (0 ≤ Z.shiftl (Z.pos m) e ≤ max_float_int) as Hsh.
  { destruct (Z.le_gt_cases 0 e) as [Hpos|Hneg].
    - rewrite Z.shiftl_mul_pow2 by done.
      assert (0 < 2 ^ e ≤ 2 ^ 971) as Hp.
      { split; [by apply Z.pow_pos_nonneg|by apply Z.pow_le_mono_r]. }
      change max_float_int with ((2 ^ 53 - 1) * 2 ^ 971).
      generalize dependent (2 ^ e). generalize dependent (2 ^ 971).
      generalize dependent (2 ^ 53). intros. nia.
    - rewrite Z.shiftl_div_pow2 by lia.
      assert (0 < 2 ^ (- e)) as Hp by (apply Z.pow_pos_nonneg; lia).
      split; [apply Z.div_pos; lia|].
      assert (2 ^ 53 ≤ max_float_int) as Hmax by done.
      assert (Z.pos m / 2 ^ (- e) ≤ Z.pos m); [|lia].
      apply Z.div_le_upper_bound; [done|]. nia. }
  destruct s; lia.
Qed.

Lemma to_int_bound (v : json) : Z.abs (_to_int v) ≤ max_float_int.
Proof.
  unfold _to_int. destruct (py_float v) as [f|]; [|done].
  rewrite bind_Ok. destruct (int_of_float f) as [z|] eqn:Hz; [|done].
  by apply int_of_float_bound in Hz.
Qed.

(** The division of the click count by a positive impression count never
    raises. *)
Lemma int_true_div_to_int (v : json) (impressions : Z) :
  0 < impressions → ∃ q, int_true_div (_to_int v) impressions = Ok q.
Proof.
  intros Hpos. pose proof (to_int_bound v) as Hb. unfold int_true_div.
  rewrite (proj2 (Z.eqb_neq impressions 0)) by lia.
  destruct (_ =? 0); [by eexists|].
  assert (max_float_int < overflow_threshold) as Hlt by done.
  rewrite (proj2 (Z.leb_gt _ _)); [by eexists|].
  generalize dependent max_float_int. generalize dependent overflow_threshold.
  intros. nia.
Qed.

Lemma positive_float_not_zero (x : float) :
  (0 <? x)%float = true → (x =? 0)%float = false.
Proof.
  rewrite ltb_spec, eqb_spec. change (Prim2SF 0) with (S754_zero false).
  by destruct (Prim2SF x) as [[]|[]| |[] ??].
Qed.

Lemma round4_zero : round4 0 = 0%float.
Proof. reflexivity. Qed.

(** Coercion is lenient: a conversion that raises yields zero. *)
Lemma to_int_lenient (v : json) :
  raises (f ← py_float v; int_of_float f) = true → _to_int v = 0.
Proof. unfold _to_int. by destruct (_ ≫= _). Qed.

Lemma to_float_lenient (v : json) :
  raises (py_float v) = true → _to_float v = 0%float.
Proof. unfold _to_float. by destruct (py_float v). Qed.

(** *** Lists of results *)

Lemma traverse_Forall2 {A B : Type} (f : A → result B) xs ys :
  traverse f xs = Ok ys → Forall2 (λ x y, f x = Ok y) xs ys.
Proof.
  revert ys. induction xs as [|x xs IH]; intros ys; cbn.
  { intros [= <-]. constructor. }
  destruct (f x) as [y|] eqn:Hy; [|done]. rewrite bind_Ok.
  destruct (traverse f xs) as [ys'|]; [|done]. rewrite bind_Ok.
  intros [= <-]. constructor; [done|]. by apply IH.
Qed.

Lemma Forall2_traverse {A B : Type} (f : A → result B) xs ys :
  Forall2 (λ x y, f x = Ok y) xs ys → traverse f xs = Ok ys.
Proof.
  induction 1 as [|x y xs ys Hxy _ IH]; [done|].
  cbn. by rewrite Hxy, bind_Ok, IH.
Qed.

(** ** The claims on purchase resolution *)

(** C1: when some entry carries a tag of the priority list (compared after
    lowercasing), the resolved purchase count is the integer-coerced value
    of one entry: the one whose tag [t] comes earliest in the priority
    list (no entry carries a tag of [pre], the tags before [t]); where
    several entries carry [t], it is the last of them. Nothing is added to
    that value. Purchase-value resolution follows the same rule with the
    float coercion. *)
Theorem purchase_resolution_by_priority pre t post es before a after :
  PURCHASE_PRIORITY = pre ++ t :: post →
  Forall (λ t', Forall (λ e, index_key e ≠ t') es) pre →
  es = before ++ a :: after →
  index_key a = t →
  Forall (λ e, index_key e ≠ t) after →
  _pick_purchase_count (JList (JObj <$> es))
  = Ok (_to_int (dict_get a (u "value") (JInt 0)))
  ∧ _pick_purchase_value (JList (JObj <$> es))
    = Ok (_to_float (dict_get a (u "value") (JFloat 0))).
Proof.
  intros Hprio Hpre Hes Ha Hafter. split.
  - by apply (pick_count_by_priority pre t post es before a after).
  - by apply (pick_value_by_priority pre t post es before a after).
Qed.

(** Among the entries carrying [t] there is a last one. *)
Lemma last_entry_with_key t es :
  Exists (λ e, index_key e = t) es →
  ∃ before a after,
    es = before ++ a :: after ∧ index_key a = t
    ∧ Forall (λ e, index_key e ≠ t) after.
Proof.
  induction es as [|e es IH]; intros Hex; [by apply Exists_nil in Hex|].
  destruct (decide (Exists (λ e, index_key e = t) es)) as [Hlater|Hnone].
  - destruct (IH Hlater) as (before & a & after & -> & Ha & Hafter).
    by exists (e :: before), a, after.
  - apply Exists_cons in Hex as [He|Hex]; [|done].
    exists [], e, es. repeat split; [done|].
    by apply (not_Exists_Forall _) in Hnone.
Qed.

(** The hypotheses of the priority rule can be met whenever some entry
    carries a tag of the priority list. *)
Lemma earliest_priority_tag es (tags : list pystr) :
  (∃ e, e ∈ es ∧ index_key e ∈ tags) →
  ∃ pre t post before a after,
    tags = pre ++ t :: post
    ∧ Forall (λ t', Forall (λ e, index_key e ≠ t') es) pre
    ∧ es = before ++ a :: after
    ∧ index_key a = t
    ∧ Forall (λ e, index_key e ≠ t) after.
Proof.
  induction tags as [|t tags IH]; intros (e & He & Hin).
  { by apply elem_of_nil in Hin. }
  destruct (decide (Exists (λ e, index_key e = t) es)) as [Hex|Hno].
  - destruct (last_entry_with_key t es Hex) as (before & a & after & ? & ? & ?).
    by exists [], t, tags, before, a, after.
  - apply (not_Exists_Forall _) in Hno.
    apply elem_of_cons in Hin as [Heq|Hin].
    { exfalso. rewrite Forall_forall in Hno. by apply (Hno e He). }
    destruct IH as (pre & t' & post & before & a & after & -> & Hpre & ? & ? & ?).
    { by exists e. }
    exists (t :: pre), t', post, before, a, after.
    repeat split; try done. by constructor.
Qed.

(** C2: when no entry carries a tag of the priority list, the resolved
    purchase count is the sum of the integer-coerced values of exactly
    those entries whose lowercased tag is in the allowed set or ends with
    ".purchase" or "_purchase". Entries are dictionaries whose tag, when
    present, is text. *)
Theorem purchase_resolution_fallback es :
  Forall (λ e, has_text_tag e = true) es →
  Forall (λ e, str_lower (text_tag e) ∉ PURCHASE_PRIORITY) es →
  _pick_purchase_count (JList (JObj <$> es))
  = Ok (sum_int
          ((λ e, _to_int (dict_get e (u "value") (JInt 0)))
             <$> filter (λ e, purchase_like (str_lower (text_tag e)) = true) es)).
Proof.
  intros Htext Hnone. unfold _pick_purchase_count.
  rewrite iter_or_empty, bind_Ok, index_by_type_dicts, bind_Ok.
  rewrite no_priority_tag_scan.
  - by apply fallback_count_from.
  - apply Forall_forall. intros e He.
    rewrite Forall_forall in Htext, Hnone.
    rewrite text_tag_index_key by auto. auto.
Qed.

(** C10, as amended: when two or more entries carry the same tag [t] of
    the priority list and no entry carries a tag that comes before [t] in
    that list, purchase-count resolution returns the integer-coerced value
    of the last entry carrying [t] (the later entry replaced the earlier
    ones in the index), and purchase-value resolution its float-coerced
    value. *)
Theorem duplicate_tag_last_wins pre t post es before a after :
  PURCHASE_PRIORITY = pre ++ t :: post →
  Forall (λ t', Forall (λ e, index_key e ≠ t') es) pre →
  es = before ++ a :: after →
  Exists (λ e, index_key e = t) before →
  index_key a = t →
  Forall (λ e, index_key e ≠ t) after →
  _pick_purchase_count (JList (JObj <$> es))
  = Ok (_to_int (dict_get a (u "value") (JInt 0)))
  ∧ _pick_purchase_value (JList (JObj <$> es))
    = Ok (_to_float (dict_get a (u "value") (JFloat 0))).
Proof.
  intros Hprio Hpre Hes _ Ha Hafter. split.
  - by apply (pick_count_by_priority pre t post es before a after).
  - by apply (pick_value_by_priority pre t post es before a after).
Qed.

(** ** Normalisation *)

Lemma fallback_value_from (total : float) es :
  Forall (λ e, has_text_tag e = true) es →
  foldM (λ (total : float) (x : json),
           k ← py_get x (u "action_type") JNull;
           is_purchase ← _is_purchase_type k;
           if is_purchase : bool
           then v ← py_get x (u "value") (JFloat 0);
                Ok (total + _to_float v)%float
           else Ok total)
        total (JObj <$> es)
  = Ok (foldl PrimFloat.add total
          ((λ e, _to_float (dict_get e (u "value") (JFloat 0)))
             <$> filter (λ e, counted e = true) es)).
Proof.
  intros Hes. revert total.
  induction Hes as [|e es He _ IH]; intros total; [done|].
  rewrite fmap_cons. cbn [foldM py_get]. rewrite bind_Ok.
  rewrite text_tag_is_purchase_type, bind_Ok by done.
  rewrite filter_cons. fold (counted e).
  destruct (counted e) eqn:Hc.
  - rewrite decide_True by done. rewrite bind_Ok, bind_Ok, IH. done.
  - rewrite decide_False by (by intros ?). rewrite bind_Ok, IH. done.
Qed.

(** The same for purchase-value resolution: the float-coerced values of
    the same entries, added from left to right. *)
Lemma purchase_value_fallback es :
  Forall (λ e, has_text_tag e = true) es →
  Forall (λ e, str_lower (text_tag e) ∉ PURCHASE_PRIORITY) es →
  _pick_purchase_value (JList (JObj <$> es))
  = Ok (sum_float
          ((λ e, _to_float (dict_get e (u "value") (JFloat 0)))
             <$> filter (λ e, purchase_like (str_lower (text_tag e)) = true) es)).
Proof.
  intros Htext Hnone. unfold _pick_purchase_value.
  rewrite iter_or_empty, bind_Ok, index_by_type_dicts, bind_Ok.
  rewrite no_priority_tag_scan.
  - by apply fallback_value_from.
  - apply Forall_forall. intros e He.
    rewrite Forall_forall in Htext, Hnone.
    rewrite text_tag_index_key by auto. auto.
Qed.

(** Either some entry carries a priority tag, or none does. *)
Lemma priority_tag_cases es :
  (∃ pre t post before a after,
      PURCHASE_PRIORITY = pre ++ t :: post
      ∧ Forall (λ t', Forall (λ e, index_key e ≠ t') es) pre
      ∧ es = before ++ a :: after
      ∧ index_key a = t
      ∧ Forall (λ e, index_key e ≠ t) after)
  ∨ Forall (λ e, index_key e ∉ PURCHASE_PRIORITY) es.
Proof.
  destruct (decide (Exists (λ e, index_key e ∈ PURCHASE_PRIORITY) es))
    as [Hex|Hno].
  - left. apply earliest_priority_tag. by apply Exists_exists in Hex.
  - right. by apply (not_Exists_Forall _) in Hno.
Qed.

Lemma pick_count_total es :
  Forall (λ e, has_text_tag e = true) es →
  ∃ n, _pick_purchase_count (JList (JObj <$> es)) = Ok n.
Proof.
  intros Htext.
  destruct (priority_tag_cases es)
    as [(pre & t & post & before & a & after & ? & ? & ? & ? & ?)|Hnone].
  - eexists. by apply (pick_count_by_priority pre t post es before a after).
  - eexists. unfold _pick_purchase_count.
    rewrite iter_or_empty, bind_Ok, index_by_type_dicts, bind_Ok.
    rewrite no_priority_tag_scan by done. by apply fallback_count_from.
Qed.

Lemma pick_value_total es :
  Forall (λ e, has_text_tag e = true) es →
  ∃ x, _pick_purchase_value (JList (JObj <$> es)) = Ok x.
Proof.
  intros Htext.
  destruct (priority_tag_cases es)
    as [(pre & t & post & before & a & after & ? & ? & ? & ? & ?)|Hnone].
  - eexists. by apply (pick_value_by_priority pre t post es before a after).
  - eexists. unfold _pick_purchase_value.
    rewrite iter_or_empty, bind_Ok, index_by_type_dicts, bind_Ok.
    rewrite no_priority_tag_scan by done. by apply fallback_value_from.
Qed.

(** What [... or []] hands to the resolution when the field is shaped. *)
Lemma shaped_entries_dicts (v : json) :
  entries_shaped v = true →
  ∃ es, py_or v (JList []) = JList (JObj <$> es)
        ∧ Forall (λ e, has_text_tag e = true) es.
Proof.
  destruct v as [| | | | |l|]; cbn [entries_shaped];
    try (intros Hf; exists []; unfold py_or;
         by rewrite (proj1 (negb_true_iff _) Hf)).
  intros Hall.
  assert (∃ es, l = JObj <$> es ∧ Forall (λ e, has_text_tag e = true) es)
    as (es & -> & Hes).
  { induction l as [|x l IH]; [by exists []|].
    cbn in Hall. apply andb_prop in Hall as [Hx Hl].
    destruct x as [| | | | | |e]; try done.
    destruct (IH Hl) as (es & -> & Hes).
    exists (e :: es). split; [done|by constructor]. }
  exists es. split; [|done]. by destruct es.
Qed.

Lemma row_metrics_total (row : list (pystr * json)) :
  row_shaped row = true → ∃ m, row_metrics row = Ok m.
Proof.
  unfold row_shaped. intros Hrow. apply andb_prop in Hrow as [Ha Hv].
  apply shaped_entries_dicts in Ha as (es & Hes & Htext).
  apply shaped_entries_dicts in Hv as (vs & Hvs & Hvtext).
  destruct (pick_count_total es Htext) as [n Hn].
  destruct (pick_value_total vs Hvtext) as [x Hx].
  assert (∃ c, ctr_calc_of
                 (_to_int (dict_get row (u "clicks") (JInt 0)))
                 (_to_int (dict_get row (u "impressions") (JInt 0))) = Ok c)
    as [c Hc].
  { unfold ctr_calc_of. destruct (0 <? _) eqn:Hpos; [|by eexists].
    apply Z.ltb_lt in Hpos.
    destruct (int_true_div_to_int (dict_get row (u "clicks") (JInt 0)) _ Hpos)
      as [q ->].
    by eexists. }
  assert (∃ r, roas_of x (_to_float (dict_get row (u "spend") (JFloat 0))) = Ok r)
    as [r Hr].
  { unfold roas_of, float_div. destruct (0 <? _)%float eqn:Hpos; [|by eexists].
    rewrite positive_float_not_zero by done. by eexists. }
  unfold row_metrics. cbv zeta.
  rewrite Hc, bind_Ok, Hes, Hn, bind_Ok, Hvs, Hx, bind_Ok, Hr, bind_Ok.
  by eexists.
Qed.

(** The three rules read off a record that [row_metrics] built. *)
Lemma row_metrics_rules (row : list (pystr * json)) (m : metrics) :
  row_metrics row = Ok m → lenient row m ∧ ctr_rule row m ∧ roas_rule row m.
Proof.
  unfold row_metrics.
  destruct (ctr_calc_of _ _) as [c|] eqn:Hc; [|done]. rewrite bind_Ok.
  destruct (_pick_purchase_count _) as [n|]; [|done]. rewrite bind_Ok.
  destruct (_pick_purchase_value _) as [x|] eqn:Hx; [|done]. rewrite bind_Ok.
  destruct (roas_of _ _) as [r|] eqn:Hr; [|done]. rewrite bind_Ok.
  intros [= <-]. split; [|split].
  - unfold lenient. cbn [impressions clicks spend cpm cpc].
    repeat split; intros Hraise;
      rewrite ?to_int_lenient, ?to_float_lenient by done; done.
  - unfold ctr_rule, ctr_calc_of in *. cbn [ctr]. split.
    + intros Hpos. rewrite (proj2 (Z.ltb_lt _ _) Hpos) in Hc.
      destruct (int_true_div _ _) as [q|]; [|done]. rewrite bind_Ok in Hc.
      injection Hc as <-. exists q. split; [done|].
      split; intros ->; done.
    + intros Hle. rewrite (proj2 (Z.ltb_ge _ _) Hle) in Hc.
      by injection Hc as <-.
  - unfold roas_rule, roas_of, float_div in *. cbn [roas]. exists x.
    split; [done|]. split; intros Hs; rewrite Hs in Hr.
    + rewrite positive_float_not_zero in Hr by done. by injection Hr as <-.
    + by injection Hr as <-.
Qed.

(** Each normaliser maps [row_metrics] over the rows. *)
Lemma normalized_metrics_rows raw ms :
  normalized_metrics raw ms → Forall2 (λ row m, row_metrics row = Ok m) raw ms.
Proof.
  intros [(out & Hout & ->)|[(out & Hout & ->)|(out & Hout & ->)]];
    apply traverse_Forall2 in Hout; apply Forall2_fmap_r;
    (eapply Forall2_impl; [exact Hout|]); cbn; intros row r;
    (destruct (row_metrics row) as [m|]; [|done]);
    rewrite bind_Ok; by intros [= <-].
Qed.

Lemma normaliser_maps_row_metrics {R : Type}
    (wrap : list (pystr * json) → metrics → R) (proj : R → metrics) raw ms :
  (∀ row m, proj (wrap row m) = m) →
  Forall2 (λ row m, row_metrics row = Ok m) raw ms →
  ∃ out, traverse (λ row, m ← row_metrics row; Ok (wrap row m)) raw = Ok out
         ∧ proj <$> out = ms.
Proof.
  intros Hproj. induction 1 as [|row m raw ms Hrow _ (out & Hout & Hms)].
  { by exists []. }
  exists (wrap row m :: out). cbn [traverse].
  rewrite Hrow, !bind_Ok, Hout, bind_Ok. split; [done|].
  by rewrite fmap_cons, Hproj, Hms.
Qed.

(** C3, as amended: on raw rows whose [actions] and [action_values] are
    absent, falsy, or lists of dictionaries whose tag (when present) is
    text, each of the three normalisers returns normally, with one record
    per row and the same metrics; and a numeric field whose conversion
    raises is zero in the record instead of failing the row. *)
Theorem normalization_total raw :
  Forall (λ row, row_shaped row = true) raw →
  ∃ ms, length ms = length raw
        ∧ Forall2 lenient raw ms
        ∧ (∃ out, normalize_insights raw = Ok out
                  ∧ campaign_metrics <$> out = ms)
        ∧ (∃ out, normalize_insights_adset raw = Ok out
                  ∧ adset_metrics <$> out = ms)
        ∧ (∃ out, normalize_insights_ad raw = Ok out
                  ∧ ad_metrics <$> out = ms).
Proof.
  intros Hraw.
  assert (∃ ms, Forall2 (λ row m, row_metrics row = Ok m) raw ms) as [ms Hms].
  { induction Hraw as [|row raw Hrow _ [ms Hms]]; [by exists []|].
    destruct (row_metrics_total row Hrow) as [m Hm].
    exists (m :: ms). by constructor. }
  exists ms. split; [symmetry; by eapply Forall2_length|].
  split.
  { eapply Forall2_impl; [exact Hms|]. intros row m Hm.
    by apply row_metrics_rules in Hm as (? & _). }
  split; [|split].
  - by apply (normaliser_maps_row_metrics _ campaign_metrics).
  - by apply (normaliser_maps_row_metrics _ adset_metrics).
  - by apply (normaliser_maps_row_metrics _ ad_metrics).
Qed.


(** C5, as amended: in every record that a normaliser produced, [roas] is
    [round(purchase_value / spend, 4)] when the row's coerced spend, before
    it is rounded into the record, is positive, and [0.0] otherwise;
    [purchase_value] is the resolved purchase value of the row. *)
Theorem roas_rule_on_coerced_spend raw ms :
  normalized_metrics raw ms → Forall2 roas_rule raw ms.
Proof.
  intros Hms. apply normalized_metrics_rows in Hms.
  eapply Forall2_impl; [exact Hms|]. intros row m Hm.
  by apply row_metrics_rules in Hm as (_ & _ & ?).
Qed.

End WithRuntime.
End MetaClientProofs.

(* ================================================================= *)
(** * Properties of the paginated fetchers *)

Module FetchProofs.
Import Fetch.

Lemma read_page_next resp body rows cursor all_data :
  page_of resp body rows → has_next body cursor →
  read_page resp all_data = Ok (Continue (JStr cursor) (all_data ++ rows)).
Proof.
  intros (Hstatus & Hbody & Herr & Hdata) (paging & Hpaging & Hnext & Hne).
  unfold read_page. rewrite Hbody, bind_Ok, Hstatus.
  change (negb (200 =? 200)) with false. cbv iota.
  rewrite Herr, bind_Ok. cbv iota.
  cbn [py_get]. unfold dict_get. rewrite Hdata, Hpaging.
  cbn [default from_option id]. rewrite bind_Ok.
  cbn [py_iter]. rewrite !bind_Ok.
  cbn [py_get]. unfold dict_get. rewrite Hnext.
  cbn [default from_option id]. rewrite bind_Ok. cbn [truthy].
  by rewrite bool_decide_eq_false_2.
Qed.

Lemma read_page_last resp body rows all_data :
  page_of resp body rows → no_next body →
  read_page resp all_data = Ok (Break (all_data ++ rows)).
Proof.
  intros (Hstatus & Hbody & Herr & Hdata) (paging & Hpaging & Hnext).
  unfold read_page. rewrite Hbody, bind_Ok, Hstatus.
  change (negb (200 =? 200)) with false. cbv iota.
  rewrite Herr, bind_Ok. cbv iota.
  cbn [py_get]. rewrite Hpaging. unfold dict_get at 1. rewrite Hdata.
  cbn [default from_option id]. rewrite bind_Ok.
  cbn [py_iter]. rewrite !bind_Ok.
  cbn [py_get]. rewrite bind_Ok. by rewrite Hnext.
Qed.

Section WithServer.
Context {W : Type} (http_get : request → W → result response * W).

(** Two passes of the loop, from any first request. *)
Lemma fetch_loop_two_pages fuel timeout url params w0 w1 w2
    resp1 resp2 body1 body2 rows1 rows2 cursor :
  http_get {| req_url := url; req_params := params; req_timeout := timeout |} w0
  = (Ok resp1, w1) →
  page_of resp1 body1 rows1 →
  has_next body1 cursor →
  http_get (cursor_request (JStr cursor) timeout) w1 = (Ok resp2, w2) →
  page_of resp2 body2 rows2 →
  no_next body2 →
  (2 ≤ fuel)%nat →
  fetch_loop http_get fuel timeout url params [] [] w0
  = Some {| outcome := Ok (rows1 ++ rows2);
            calls := [ {| req_url := url; req_params := params;
                          req_timeout := timeout |};
                       cursor_request (JStr cursor) timeout ];
            world := w2 |}.
Proof.
  intros Hget1 Hpage1 Hnext Hget2 Hpage2 Hlast Hfuel.
  destruct fuel as [|[|fuel]]; [lia|lia|].
  cbn [fetch_loop]. rewrite Hget1, bind_Ok.
  rewrite (read_page_next resp1 body1 rows1 cursor) by done.
  cbn [fetch_loop]. fold (cursor_request (JStr cursor) timeout).
  rewrite Hget2, bind_Ok.
  by rewrite (read_page_last resp2 body2 rows2) by done.
Qed.

(** C8: when the first response is a successful page with a [data] array
    and a [paging.next] cursor, and the response fetched from that cursor
    is a successful page with a [data] array and no next cursor, the
    fetcher issues exactly two requests, the second to the cursor with no
    parameters, and returns the rows of the first page followed by those
    of the second. *)
Theorem pagination_concatenates_two_pages
    fuel access_token ad_account_id date_preset since until timeout
    w0 w1 w2 resp1 resp2 body1 body2 rows1 rows2 cursor :
  http_get (first_request access_token ad_account_id date_preset
              since until timeout) w0 = (Ok resp1, w1) →
  page_of resp1 body1 rows1 →
  has_next body1 cursor →
  http_get (cursor_request (JStr cursor) timeout) w1 = (Ok resp2, w2) →
  page_of resp2 body2 rows2 →
  no_next body2 →
  (2 ≤ fuel)%nat →
  fetch_insights http_get fuel access_token ad_account_id date_preset
    since until timeout w0
  = Some {| outcome := Ok (rows1 ++ rows2);
            calls := [ first_request access_token ad_account_id date_preset
                         since until timeout;
                       cursor_request (JStr cursor) timeout ];
            world := w2 |}.
Proof.
  intros. unfold fetch_insights, first_request.
  by eapply fetch_loop_two_pages.
Qed.

(** The same holds of the fetcher that takes the level as a parameter. *)
Lemma pagination_by_level_two_pages
    fuel access_token ad_account_id level ids date_preset since until timeout
    w0 w1 w2 resp1 resp2 body1 body2 rows1 rows2 cursor :
  id_fields level = Some ids →
  http_get {| req_url := insights_url ad_account_id;
              req_params := query_params (ids ++ common_fields) level
                              access_token since until date_preset;
              req_timeout := timeout |} w0 = (Ok resp1, w1) →
  page_of resp1 body1 rows1 →
  has_next body1 cursor →
  http_get (cursor_request (JStr cursor) timeout) w1 = (Ok resp2, w2) →
  page_of resp2 body2 rows2 →
  no_next body2 →
  (2 ≤ fuel)%nat →
  outcome <$> fetch_insights_by_level http_get fuel access_token ad_account_id
                level date_preset since until timeout w0
  = Some (Ok (rows1 ++ rows2)).
Proof.
  intros Hlevel **. unfold fetch_insights_by_level. rewrite Hlevel.
  by erewrite fetch_loop_two_pages.
Qed.

End WithServer.

(** C8 on the mock server: three rows in the order served, two calls. *)
Lemma pagination_concatenates_two_pages_witness :
  fetch_insights mock_get 5 (u "token") (u "42") (u "last_7d") None None 30 0%nat
  = Some {| outcome := Ok [row_of "1"; row_of "2"; row_of "3"];
            calls := [ first_request (u "token") (u "42") (u "last_7d")
                         None None 30;
                       cursor_request (JStr (u "https://next/2")) 30 ];
            world := 2%nat |}.
Proof.
  apply (pagination_concatenates_two_pages mock_get 5 (u "token") (u "42")
           (u "last_7d") None None 30 0%nat 1%nat 2%nat
           mock_page_1 mock_page_2
           [(u "data", JList [row_of "1"; row_of "2"]);
            (u "paging", JObj [(u "next", JStr (u "https://next/2"))])]
           [(u "data", JList [row_of "3"])]
           [row_of "1"; row_of "2"] [row_of "3"] (u "https://next/2")).
  - reflexivity.
  - by repeat split.
  - exists [(u "next", JStr (u "https://next/2"))]. by repeat split.
  - reflexivity.
  - by repeat split.
  - by exists [].
  - lia.
Defined.

End FetchProofs.

(** ** Worked examples of purchase resolution *)

Module MetaClientExamples.
Import MetaClient MetaClientProofs.

(** C1, the example of the specification: the pixel purchase (3) and the
    omni purchase (5) are not added up; the omni purchase wins. *)
Lemma purchase_resolution_by_priority_witness :
  _pick_purchase_count (H := ascii_runtime)
    (JList [JObj (entry "fb_pixel_purchase" (JInt 3));
            JObj (entry "omni_purchase" (JInt 5))]) = Ok 5
  ∧ _pick_purchase_value (H := ascii_runtime)
      (JList [JObj (entry "fb_pixel_purchase" (JInt 3));
              JObj (entry "omni_purchase" (JInt 5))]) = Ok 5%float.
Proof.
  apply (purchase_resolution_by_priority (H := ascii_runtime)
           [] (u "omni_purchase")
           [u "offsite_conversion.fb_pixel_purchase";
            u "offsite_conversion.purchase"; u "onsite_conversion.purchase";
            u "fb_pixel_purchase"; u "purchase"]
           [entry "fb_pixel_purchase" (JInt 3); entry "omni_purchase" (JInt 5)]
           [entry "fb_pixel_purchase" (JInt 3)]
           (entry "omni_purchase" (JInt 5)) []).
  - reflexivity.
  - constructor.
  - reflexivity.
  - reflexivity.
  - constructor.
Defined.

(** C2, the example of the specification: a custom conversion whose tag
    ends with "_purchase" is counted by the fallback. *)
Lemma purchase_resolution_fallback_witness :
  _pick_purchase_count (H := ascii_runtime)
    (JList [JObj (entry "offsite_conversion.custom_purchase" (JInt 2))])
  = Ok 2.
Proof.
  apply (purchase_resolution_fallback (H := ascii_runtime)
           [entry "offsite_conversion.custom_purchase" (JInt 2)]).
  - repeat constructor.
  - repeat constructor. vm_compute. intros Hin.
    repeat (apply elem_of_cons in Hin as [Heq|Hin]; [discriminate Heq|]).
    by apply elem_of_nil in Hin.
Defined.

(** C10 as stated fails: two entries carry "purchase", the last of them
    has the value 2, and the resolution returns 7, the value of the
    "omni_purchase" entry, which comes first in the priority list. *)
Lemma duplicate_tag_counterexample :
  index_key (H := ascii_runtime) (entry "purchase" (JInt 1)) = u "purchase"
  ∧ index_key (H := ascii_runtime) (entry "purchase" (JInt 2)) = u "purchase"
  ∧ u "purchase" ∈ PURCHASE_PRIORITY
  ∧ _to_int (H := ascii_runtime)
      (dict_get (entry "purchase" (JInt 2)) (u "value") (JInt 0)) = 2
  ∧ _pick_purchase_count (H := ascii_runtime)
      (JList [JObj (entry "purchase" (JInt 1));
              JObj (entry "purchase" (JInt 2));
              JObj (entry "omni_purchase" (JInt 7))]) = Ok 7
  ∧ _pick_purchase_value (H := ascii_runtime)
      (JList [JObj (entry "purchase" (JInt 1));
              JObj (entry "purchase" (JInt 2));
              JObj (entry "omni_purchase" (JInt 7))]) = Ok 7%float.
Proof.
  repeat split; try reflexivity.
  unfold PURCHASE_PRIORITY. do 5 apply list_elem_of_further.
  apply list_elem_of_here.
Qed.

(** C10 as amended, on two "purchase" entries: 2, not 1 and not 3. *)
Lemma duplicate_tag_last_wins_witness :
  _pick_purchase_count (H := ascii_runtime)
    (JList [JObj (entry "purchase" (JInt 1));
            JObj (entry "purchase" (JInt 2))]) = Ok 2
  ∧ _pick_purchase_value (H := ascii_runtime)
      (JList [JObj (entry "purchase" (JInt 1));
              JObj (entry "purchase" (JInt 2))]) = Ok 2%float.
Proof.
  apply (duplicate_tag_last_wins (H := ascii_runtime)
           [u "omni_purchase"; u "offsite_conversion.fb_pixel_purchase";
            u "offsite_conversion.purchase"; u "onsite_conversion.purchase";
            u "fb_pixel_purchase"]
           (u "purchase") []
           [entry "purchase" (JInt 1); entry "purchase" (JInt 2)]
           [entry "purchase" (JInt 1)]
           (entry "purchase" (JInt 2)) []).
  - reflexivity.
  - repeat constructor; by vm_compute.
  - reflexivity.
  - by constructor.
  - reflexivity.
  - constructor.
Defined.

(** C3 as stated fails: a row whose [actions] is a number, or a list of
    strings, makes every normaliser raise. *)
Lemma normalization_total_counterexample :
  normalize_insights (H := ascii_runtime) [row_actions_number]
  = Raise TypeError
  ∧ normalize_insights_adset (H := ascii_runtime) [row_actions_number]
    = Raise TypeError
  ∧ normalize_insights_ad (H := ascii_runtime) [row_actions_number]
    = Raise TypeError
  ∧ normalize_insights (H := ascii_runtime) [row_actions_strings]
    = Raise AttributeError.
Proof. repeat split; reflexivity. Qed.

(** C3 as amended, on a row with three malformed numbers and on a row
    without [actions]. *)
Lemma normalization_total_witness :
  ∃ ms, length ms = 2%nat
        ∧ Forall2 (lenient (H := ascii_runtime)) [row_malformed; row_clicked] ms
        ∧ (∃ out, normalize_insights (H := ascii_runtime)
                    [row_malformed; row_clicked] = Ok out
                  ∧ campaign_metrics <$> out = ms)
        ∧ (∃ out, normalize_insights_adset (H := ascii_runtime)
                    [row_malformed; row_clicked] = Ok out
                  ∧ adset_metrics <$> out = ms)
        ∧ (∃ out, normalize_insights_ad (H := ascii_runtime)
                    [row_malformed; row_clicked] = Ok out
                  ∧ ad_metrics <$> out = ms).
Proof.
  apply (normalization_total (H := ascii_runtime) [row_malformed; row_clicked]).
  repeat constructor.
Defined.

(** The records behind the examples: malformed numbers became zeros, the
    recomputed ctr (3.7) replaced the API's (9.9), and the ROAS is 50/12.5. *)
Lemma metrics_malformed_clicked_values :
  metrics_malformed_clicked
  = [ {| impressions := 0; clicks := 0; spend := 0; cpm := 0; cpc := 0;
         ctr := 1.5; purchases := 4; purchase_value := 0; roas := 0 |};
      {| impressions := 1000; clicks := 37; spend := 12.5; cpm := 0; cpc := 0;
         ctr := round4 (37 / 1000 * 100); purchases := 0;
         purchase_value := 50; roas := 4 |} ].
Proof. reflexivity. Qed.


(** C5 as stated fails on the record's own fields: the record of a row
    that spent 0.00004 has [spend = 0.0] (rounded to four decimals) and
    [roas = 50000.0]. *)
Lemma roas_rule_counterexample :
  normalize_insights (H := ascii_runtime) [row_tiny_spend]
  = Ok [ {| campaign_id := JStr [];
            campaign_name := sem_nome;
            campaign_metrics :=
              {| impressions := 0; clicks := 0; spend := 0; cpm := 0;
                 cpc := 0; ctr := 0; purchases := 0; purchase_value := 2;
                 roas := 50000 |} |} ].
Proof. reflexivity. Qed.

(** C5 as amended, on that row. *)
Lemma roas_rule_on_coerced_spend_witness :
  Forall2 (roas_rule (H := ascii_runtime)) [row_tiny_spend] metrics_tiny_spend.
Proof.
  apply (roas_rule_on_coerced_spend (H := ascii_runtime)).
  left. eexists. split; [vm_compute; reflexivity|reflexivity].
Defined.

End MetaClientExamples.

(* ================================================================= *)
(** * Properties of [backend/ai_client.py] *)

Module AiClientProofs.
Import AiClient.

Section WithProvider.
Context `{PyRuntime} {Client : Type}.
Context (openai_client : pystr → result Client).
Context (chat_completions_create : Client → chat_request → result json).
Context (_build_prompt : prompt_inputs → result pystr).

(** With a key, the first thing that happens is the construction of the
    client: the credential check let the call through. *)
Lemma first_event_with_key inputs (c : N) (key : pystr) history :
  ∃ r rest,
    analyze_campaigns_with_gpt openai_client chat_completions_create
      _build_prompt inputs (c :: key) history
    = (r, ClientCreated (c :: key) :: rest).
Proof.
  unfold analyze_campaigns_with_gpt. cbn [truthy negb].
  rewrite bool_decide_eq_false_2 by done. cbn [negb].
  unfold emit, lift. cbn [mbind io_bind].
  destruct (openai_client (c :: key)) as [client|e]; [|by eexists _, _].
  destruct (_build_prompt inputs) as [prompt|e]; [|by eexists _, _].
  destruct (history_messages history) as [past|e]; [|by eexists _, _].
  destruct (chat_completions_create client _) as [answer|e]; by eexists _, _.
Qed.

(** C9: with an empty API key the client fails with the configuration
    error and has done nothing to the outside: no client was constructed
    and no request was sent. With a non-empty key that error is not
    raised at that point: the run goes on to construct the client. *)
Theorem eager_credential_check inputs history :
  analyze_campaigns_with_gpt openai_client chat_completions_create
    _build_prompt inputs [] history
  = (Raise (RuntimeError (JStr missing_key_message)), [])
  ∧ ∀ (c : N) (key : pystr),
      ∃ r rest,
        analyze_campaigns_with_gpt openai_client chat_completions_create
          _build_prompt inputs (c :: key) history
        = (r, ClientCreated (c :: key) :: rest).
Proof.
  split; [reflexivity|]. intros c key. apply first_event_with_key.
Qed.

End WithProvider.

End AiClientProofs.

(* ================================================================= *)
(** * Properties of the response sanitiser *)

Module MainProofs.
Import Main.

(** ** The matcher never looks back *)

Lemma flat_map_nil {A B : Type} (f : A → list B) (l : list A) :
  (∀ x, In x l → f x = []) → flat_map f l = [].
Proof.
  induction l as [|x l IH]; intros Hall; [done|].
  cbn. rewrite (Hall x) by (by left). apply IH. intros y Hy. apply Hall. by right.
Qed.

Lemma star_loop_suffix (step : cursor → list cursor) :
  (∀ st st', In st' (step st) → rest st' `suffix_of` rest st) →
  ∀ fuel st st', In st' (star_loop step fuel st) → rest st' `suffix_of` rest st.
Proof.
  intros Hstep. induction fuel as [|fuel IH]; intros st st'; cbn [star_loop].
  { by intros [<-|[]]. }
  rewrite in_app_iff, in_flat_map. intros [(mid & Hmid & Hin)|[<-|[]]]; [|done].
  destruct (_ <? _)%nat; [|done].
  etrans; [by apply IH|by apply Hstep].
Qed.

Lemma run_suffix (r : regex) :
  ∀ st st', In st' (run r st) → rest st' `suffix_of` rest st.
Proof.
  induction r as [|c|f|a IHa b IHb|a IHa b IHb|a IHa|a IHa|f|f|];
    intros st st'; cbn [run].
  - by intros [<-|[]].
  - destruct (rest st) as [|d s]; [done|]. destruct (c =? d)%N; [|done].
    intros [<-|[]]. by apply suffix_cons_r.
  - destruct (rest st) as [|d s]; [done|]. destruct (f d); [|done].
    intros [<-|[]]. by apply suffix_cons_r.
  - rewrite in_flat_map. intros (mid & Hmid & Hin).
    etrans; [by apply IHb|by apply IHa].
  - rewrite in_app_iff. intros [Hin|Hin]; [by apply IHa|by apply IHb].
  - by apply star_loop_suffix.
  - rewrite in_map_iff. intros (mid & <- & Hmid). cbn [rest]. by apply IHa.
  - destruct (prev st) as [p|]; [|done]. destruct (f p); [|done].
    by intros [<-|[]].
  - destruct (rest st) as [|d s] eqn:E; [done|]. destruct (f d); [|done].
    intros [<-|[]]. by rewrite E.
  - intros Hin. assert (st' = st) as ->; [|done].
    repeat case_match; try done; by destruct Hin as [<-|[]].
Qed.

(** A pattern that requires a character the subject does not have does
    not match. *)
Lemma run_requires (P : N → Prop) (r : regex) :
  requires P r →
  ∀ st, Forall (λ c, ¬ P c) (rest st) → run r st = [].
Proof.
  induction r as [|c|f|a IHa b IHb|a IHa b IHb|a IHa|a IHa|f|f|];
    cbn [requires run]; try done.
  - intros Hc st Hst. destruct (rest st) as [|d s]; [done|].
    destruct (N.eqb_spec c d) as [<-|]; [|done].
    by inversion Hst.
  - intros Hf st Hst. destruct (rest st) as [|d s]; [done|].
    destruct (f d) eqn:Hd; [|done]. inversion Hst; subst. by destruct (H1 (Hf d Hd)).
  - intros [Ha|Hb] st Hst.
    + by rewrite IHa.
    + apply flat_map_nil. intros mid Hmid. apply IHb; [done|].
      apply run_suffix in Hmid as [k Hk]. rewrite Hk in Hst.
      by apply Forall_app in Hst as [_ ?].
  - intros [Ha Hb] st Hst. by rewrite IHa, IHb.
  - intros Ha st Hst. by rewrite IHa.
Qed.

Lemma re_match_requires (P : N → Prop) (r : regex) (s : pystr) :
  requires P r → Forall (λ c, ¬ P c) s → re_match r s = false.
Proof. intros Hr Hs. unfold re_match. by rewrite (run_requires P). Qed.

Lemma sub_at_start_requires (P : N → Prop) r repl (s : pystr) :
  requires P r → Forall (λ c, ¬ P c) s → sub_at_start r repl s = s.
Proof. intros Hr Hs. unfold sub_at_start. by rewrite (run_requires P). Qed.

Lemma sub_from_requires (P : N → Prop) r repl before (s : pystr) :
  requires P r → Forall (λ c, ¬ P c) s → sub_from r repl 0 before s = s.
Proof.
  intros Hr Hs. revert before.
  induction Hs as [|c s Hc Hs IH]; intros before; [done|].
  cbn [sub_from]. rewrite (run_requires P) by (done || by constructor).
  by rewrite IH.
Qed.

Lemma re_sub_requires (P : N → Prop) r repl (s : pystr) :
  requires P r → Forall (λ c, ¬ P c) s → re_sub r repl s = s.
Proof. apply sub_from_requires. Qed.

(** ** Strings that lack a character of the text to replace *)

Lemma is_prefix_elem (old s : pystr) (c : N) :
  is_prefix old s = true → c ∈ old → c ∈ s.
Proof.
  revert s. induction old as [|d old IH]; intros s Hp Hc.
  { by apply elem_of_nil in Hc. }
  destruct s as [|e s]; [done|]. cbn in Hp.
  apply andb_prop in Hp as [Hde Hp]. apply N.eqb_eq in Hde as <-.
  apply elem_of_cons in Hc as [->|Hc]; [by left|].
  right. by apply IH.
Qed.

Lemma str_replace_absent (old new s : pystr) (c : N) :
  c ∈ old → c ∉ s → str_replace old new s = s.
Proof.
  intros Hc. unfold str_replace. induction s as [|d s IH]; intros Hs; [done|].
  cbn [replace_from].
  destruct (is_prefix old (d :: s)) eqn:Hp.
  { destruct Hs. by apply (is_prefix_elem old). }
  rewrite IH; [done|]. intros Hin. apply Hs. by right.
Qed.

Lemma str_split_absent (sep : N) (s : pystr) :
  sep ∉ s → str_split sep s = [s].
Proof.
  induction s as [|c s IH]; intros Hs; [done|]. cbn.
  destruct (N.eqb_spec c sep) as [->|Hne]; [destruct Hs; by left|].
  rewrite IH; [done|]. intros Hin. apply Hs. by right.
Qed.

(** Finds, in a pattern, the part that requires the character. *)
Ltac required :=
  solve [ reflexivity
        | (intros ? ?%bool_decide_eq_true; assumption)
        | left; required
        | right; required ].


(** The example of the specification: header dropped, bullet stripped,
    blank lines collapsed to one. *)
Lemma sanitize_reply_with_header :
  _sanitize_analysis (H := ascii_runtime) reply_with_header
  = u "item um" ++ [10; 10]%N ++ u "Fim.".
Proof. reflexivity. Qed.

End MainProofs.

(* ================================================================= *)
(** * More on the paginated fetchers *)

Module PagesProofs.
Import Fetch Pages.

Lemma read_page_failed resp body err all_data :
  failed_page resp body →
  dict_get body (u "error") (JObj []) = JObj err →
  read_page resp all_data
  = Raise (RuntimeError (dict_get err (u "message") default_error_message)).
Proof.
  intros (Hbody & Hfail) Herr. unfold read_page. rewrite Hbody, bind_Ok.
  assert ((if negb (status_code resp =? 200) then Ok true
           else py_in (u "error") (JObj body)) = Ok true) as ->.
  { destruct Hfail as [Hstatus|Hkey].
    - by rewrite (proj2 (Z.eqb_neq _ _) Hstatus).
    - by destruct (negb _). }
  rewrite bind_Ok. cbv iota. cbn [py_get]. rewrite Herr, bind_Ok.
  cbn [py_get]. by rewrite bind_Ok.
Qed.

(** A pass goes on only with what the page named as next. *)
Lemma read_page_continue resp all_data next_url all_data' :
  read_page resp all_data = Ok (Continue next_url all_data') →
  ∃ data paging,
    json_body resp = Ok data
    ∧ py_get data (u "paging") (JObj []) = Ok paging
    ∧ py_get paging (u "next") JNull = Ok next_url
    ∧ truthy next_url = true.
Proof.
  unfold read_page.
  destruct (json_body resp) as [data|]; [|done]. rewrite bind_Ok.
  destruct (if negb _ then _ else _) as [failed|]; [|done].
  rewrite bind_Ok. destruct failed.
  { destruct (py_get data (u "error") _) as [err|]; [|done].
    rewrite bind_Ok. by destruct (py_get err _ _). }
  destruct (py_get data (u "data") _) as [page|]; [|done]. rewrite bind_Ok.
  destruct (py_iter page) as [rows|]; [|done]. rewrite bind_Ok. cbv zeta.
  destruct (py_get data (u "paging") _) as [paging|] eqn:Hpaging; [|done].
  rewrite bind_Ok.
  destruct (py_get paging (u "next") _) as [next|] eqn:Hnext; [|done].
  rewrite bind_Ok.
  destruct (truthy next) eqn:Htruthy; cbn [negb]; [|done].
  intros [= <- <-]. by exists data, paging.
Qed.

Lemma read_page_not_json resp e all_data :
  json_body resp = Raise e → read_page resp all_data = Raise e.
Proof. intros Hbody. unfold read_page. by rewrite Hbody. Qed.

(** [err.get] on an [error] that is not an object. *)
Lemma read_page_malformed_error resp body v all_data :
  failed_page resp body →
  dict_lookup body (u "error") = Some v →
  (∀ err, v ≠ JObj err) →
  read_page resp all_data = Raise AttributeError.
Proof.
  intros (Hbody & Hfail) Hv Hshape. unfold read_page. rewrite Hbody, bind_Ok.
  assert ((if negb (status_code resp =? 200) then Ok true
           else py_in (u "error") (JObj body)) = Ok true) as ->.
  { destruct Hfail as [Hstatus|Hkey].
    - by rewrite (proj2 (Z.eqb_neq _ _) Hstatus).
    - by destruct (negb _). }
  rewrite bind_Ok. cbv iota. cbn [py_get]. unfold dict_get. rewrite Hv.
  cbn [default from_option id]. rewrite bind_Ok.
  destruct v; try done. by destruct (Hshape kv).
Qed.

Section WithServer.
Context {W : Type} (http_get : request → W → result response * W).
Context (timeout : Z).

Lemma request_eta (req : request) :
  req_timeout req = timeout →
  {| req_url := req_url req; req_params := req_params req;
     req_timeout := timeout |} = req.
Proof. destruct req. by intros <-. Qed.

(** The loop goes through followed pages, whatever it had collected. *)
Lemma fetch_loop_followed req w rows issued req' w' :
  followed http_get timeout req w rows issued req' w' →
  req_timeout req = timeout →
  req_timeout req' = timeout
  ∧ ∀ fuel all_data before,
      fetch_loop http_get (length issued + fuel) timeout
        (req_url req) (req_params req) all_data before w
      = fetch_loop http_get fuel timeout
          (req_url req') (req_params req') (all_data ++ rows)
          (before ++ issued) w'.
Proof.
  induction 1 as [req w|req w resp w1 body rows cursor rows' issued req' w'
                         Hget Hpage Hnext _ IH];
    intros Htimeout.
  { split; [done|]. intros. by rewrite !app_nil_r. }
  destruct IH as [Htimeout' IH]; [done|]. split; [done|].
  intros fuel all_data before.
  cbn [length Nat.add fetch_loop]. rewrite request_eta by done.
  rewrite Hget, bind_Ok.
  rewrite (FetchProofs.read_page_next resp body rows cursor) by done.
  specialize (IH fuel (all_data ++ rows) (before ++ [req])).
  cbn [cursor_request req_url req_params] in IH. rewrite IH.
  by rewrite <- !app_assoc.
Qed.

(** The pass that comes after the followed pages. *)
Lemma fetch_loop_last_pass fuel first w0 rows issued req w r w' :
  followed http_get timeout first w0 rows issued req w →
  req_timeout first = timeout →
  http_get req w = (r, w') →
  (length issued < fuel)%nat →
  fetch_loop http_get fuel timeout (req_url first) (req_params first) [] [] w0
  = match resp ← r; read_page resp rows with
    | Raise e =>
        Some {| outcome := Raise e; calls := issued ++ [req]; world := w' |}
    | Ok (Break all_data) =>
        Some {| outcome := Ok all_data; calls := issued ++ [req];
                world := w' |}
    | Ok (Continue next_url all_data) =>
        fetch_loop http_get (fuel - S (length issued)) timeout next_url []
          all_data (issued ++ [req]) w'
    end.
Proof.
  intros Hfollowed Htimeout Hget Hfuel.
  apply fetch_loop_followed in Hfollowed as [Htimeout' Hloop]; [|done].
  replace fuel with (length issued + S (fuel - S (length issued)))%nat
    at 1 by lia.
  rewrite (Hloop (S (fuel - S (length issued))) [] []).
  cbn [fetch_loop app]. rewrite request_eta by done. by rewrite Hget.
Qed.

(** X1: the fetcher follows the next-page references until a page has
    none: when the server answers the first request and each cursor
    request with a successful page, the last of which names no next
    page, [fetch_insights] returns the rows of all pages in the order
    served and has issued one request per page, each cursor request
    carrying the cursor as its URL and no parameters. *)
Theorem pagination_follows_every_page
    fuel access_token ad_account_id date_preset since until
    w0 rows issued req w resp w' body last_rows :
  followed http_get timeout
    (first_request access_token ad_account_id date_preset since until timeout)
    w0 rows issued req w →
  http_get req w = (Ok resp, w') →
  page_of resp body last_rows →
  no_next body →
  (length issued < fuel)%nat →
  fetch_insights http_get fuel access_token ad_account_id date_preset
    since until timeout w0
  = Some {| outcome := Ok (rows ++ last_rows);
            calls := issued ++ [req];
            world := w' |}.
Proof.
  intros Hfollowed Hget Hpage Hlast Hfuel.
  apply fetch_loop_followed in Hfollowed as [Htimeout Hloop]; [|done].
  unfold fetch_insights.
  replace fuel with (length issued + S (fuel - S (length issued)))%nat by lia.
  specialize (Hloop (S (fuel - S (length issued))) [] []).
  cbn [first_request req_url req_params] in Hloop. rewrite Hloop.
  cbn [fetch_loop]. rewrite request_eta by done. rewrite Hget, bind_Ok.
  by rewrite (FetchProofs.read_page_last resp body last_rows) by done.
Qed.


(** After its first request the loop sends follow-up requests only. *)
Lemma fetch_loop_follow_ups fuel url params all_data before w f :
  fetch_loop http_get fuel timeout url params all_data before w = Some f →
  ∃ later,
    calls f = before
              ++ ({| req_url := url; req_params := params;
                     req_timeout := timeout |} :: later)
    ∧ Forall (follow_up timeout) later.
Proof.
  revert url params all_data before w.
  induction fuel as [|fuel IH]; intros url params all_data before w;
    [done|].
  cbn [fetch_loop].
  destruct (http_get _ w) as [r w1].
  destruct (resp ← r; read_page resp all_data) as [[rows|next rows]|e].
  - intros [= <-]. by exists [].
  - intros Hf. apply IH in Hf as (later & -> & Hlater).
    rewrite <- app_assoc. eexists. split; [done|].
    constructor; [by split|done].
  - intros [= <-]. by exists [].
Qed.

(** Where the follow-up requests go. *)
Lemma fetch_loop_cursors fuel url params all_data before w f :
  fetch_loop http_get fuel timeout url params all_data before w = Some f →
  ∃ later,
    calls f = before
              ++ ({| req_url := url; req_params := params;
                     req_timeout := timeout |} :: later)
    ∧ Forall (follow_up timeout) later
    ∧ cursors_followed http_get
        {| req_url := url; req_params := params; req_timeout := timeout |}
        w later.
Proof.
  revert url params all_data before w.
  induction fuel as [|fuel IH]; intros url params all_data before w;
    [done|].
  cbn [fetch_loop].
  destruct (http_get _ w) as [r w1] eqn:Hget.
  destruct (resp ← r; read_page resp all_data) as [[rows|next rows]|e]
    eqn:Hpass.
  - intros [= <-]. by exists [].
  - intros Hf. apply IH in Hf as (later & -> & Hlater & Hcursors).
    destruct r as [resp|]; [|done]. rewrite bind_Ok in Hpass.
    apply read_page_continue in Hpass
      as (data & paging & Hdata & Hpaging & Hnext & Htruthy).
    rewrite <- app_assoc. eexists. split; [done|]. split.
    + constructor; [by split|done].
    + cbn [cursors_followed]. by exists resp, w1, data, paging.
  - intros [= <-]. by exists [].
Qed.

(** X20: the query parameters are sent once: whatever the server answers,
    the first request of a fetch goes to the account's insights URL with
    the parameters, [access_token] among them, and every later request has
    no parameters and the same timeout, and goes to the URL that the
    response to the request before it named as next (the truthy value of
    [paging.next] in its body). This holds of both fetchers. *)
Theorem parameters_are_sent_once
    fuel access_token ad_account_id level ids date_preset since until w f :
  id_fields level = Some ids →
  fetch_insights http_get fuel access_token ad_account_id date_preset
    since until timeout w = Some f
  ∨ fetch_insights_by_level http_get fuel access_token ad_account_id level
      date_preset since until timeout w = Some f →
  ∃ first later,
    calls f = first :: later
    ∧ req_url first = insights_url ad_account_id
    ∧ dict_lookup (req_params first) (u "access_token")
      = Some (JStr access_token)
    ∧ Forall (follow_up timeout) later
    ∧ cursors_followed http_get first w later.
Proof.
  intros Hids [Hf|Hf].
  - apply fetch_loop_cursors in Hf as (later & -> & Hlater & Hcursors).
    by eexists _, later.
  - unfold fetch_insights_by_level in Hf. rewrite Hids in Hf.
    apply fetch_loop_cursors in Hf as (later & -> & Hlater & Hcursors).
    by eexists _, later.
Qed.

(** X3: the level is checked before anything is requested: when
    [fetch_insights_by_level] returns, it has issued no request exactly
    when the level is none of campaign, adset and ad, in which case it
    raised [ValueError] and left the remote side as it was; at a valid
    level the first request goes to the account's insights URL and asks
    for that level with its identification fields before the common
    ones. *)
Theorem level_checked_before_any_request
    fuel access_token ad_account_id level date_preset since until w f :
  fetch_insights_by_level http_get fuel access_token ad_account_id level
    date_preset since until timeout w = Some f →
  ((level ∉ valid_levels)
   ∧ f = {| outcome := Raise ValueError; calls := []; world := w |})
  ∨ (level ∈ valid_levels
     ∧ ∃ ids later,
         id_fields level = Some ids
         ∧ calls f = level_request access_token ad_account_id level ids
                       date_preset since until timeout :: later).
Proof.
  unfold fetch_insights_by_level, id_fields, str_eqb.
  repeat case_bool_decide; subst.
  - intros (later & Hcalls & _)%fetch_loop_follow_ups. right.
    split; [unfold valid_levels; rewrite !elem_of_cons; auto|].
    by eexists _, _.
  - intros (later & Hcalls & _)%fetch_loop_follow_ups. right.
    split; [unfold valid_levels; rewrite !elem_of_cons; auto|].
    by eexists _, _.
  - intros (later & Hcalls & _)%fetch_loop_follow_ups. right.
    split; [unfold valid_levels; rewrite !elem_of_cons; auto|].
    by eexists _, _.
  - intros [= <-]. left. split; [|done].
    unfold valid_levels. rewrite !not_elem_of_cons.
    repeat split; try done. apply not_elem_of_nil.
Qed.

(** At the level campaign [fetch_insights_by_level] is
    [fetch_insights]: same requests, same result, same effect on the remote
    side, whatever the server answers. *)
Remark by_level_campaign_is_fetch_insights
    fuel access_token ad_account_id date_preset since until w :
  fetch_insights_by_level http_get fuel access_token ad_account_id
    (u "campaign") date_preset since until timeout w
  = fetch_insights http_get fuel access_token ad_account_id date_preset
      since until timeout w.
Proof. reflexivity. Qed.


End WithServer.

(** X1 on the mock server with three pages. *)
Lemma pagination_follows_every_page_witness :
  fetch_insights mock_get_three 5 (u "token") (u "42") (u "last_7d")
    None None 30 0%nat
  = Some {| outcome := Ok [row_of "1"; row_of "2"; row_of "2a"; row_of "3"];
            calls := [ first_request (u "token") (u "42") (u "last_7d")
                         None None 30;
                       cursor_request (JStr (u "https://next/2")) 30;
                       cursor_request (JStr (u "https://next/3")) 30 ];
            world := 3%nat |}.
Proof.
  apply (pagination_follows_every_page mock_get_three 30 5 (u "token") (u "42")
           (u "last_7d") None None 0%nat
           ([row_of "1"; row_of "2"] ++ [row_of "2a"] ++ [])
           [ first_request (u "token") (u "42") (u "last_7d") None None 30;
             cursor_request (JStr (u "https://next/2")) 30 ]
           (cursor_request (JStr (u "https://next/3")) 30) 2%nat
           mock_page_2 3%nat [(u "data", JList [row_of "3"])] [row_of "3"]).
  - eapply (followed_page _ _ _ _ mock_page_1 1%nat
              [(u "data", JList [row_of "1"; row_of "2"]);
               (u "paging", JObj [(u "next", JStr (u "https://next/2"))])]);
      [reflexivity | by repeat split
      | exists [(u "next", JStr (u "https://next/2"))]; by repeat split |].
    eapply (followed_page _ _ _ _ mock_page_middle 2%nat
              [(u "data", JList [row_of "2a"]);
               (u "paging", JObj [(u "next", JStr (u "https://next/3"))])]);
      [reflexivity | by repeat split
      | exists [(u "next", JStr (u "https://next/3"))]; by repeat split |].
    apply followed_none.
  - reflexivity.
  - by repeat split.
  - by exists [].
  - cbn [length]. lia.
Defined.

(** X3 at the level video: nothing is requested. *)
Lemma level_checked_before_any_request_witness :
  ((u "video" ∉ valid_levels)
   ∧ {| outcome := Raise ValueError; calls := []; world := 0%nat |}
     = {| outcome := Raise ValueError; calls := []; world := 0%nat |})
  ∨ (u "video" ∈ valid_levels
     ∧ ∃ ids later,
         id_fields (u "video") = Some ids
         ∧ calls {| outcome := Raise ValueError; calls := []; world := 0%nat |}
           = level_request (u "token") (u "42") (u "video") ids (u "last_7d")
               None None 30 :: later).
Proof.
  apply (level_checked_before_any_request mock_get 30 5 (u "token") (u "42")
           (u "video") (u "last_7d") None None 0%nat).
  reflexivity.
Defined.


(** X20 on the mock server with three pages. *)
Lemma parameters_are_sent_once_witness :
  ∃ first later,
    [ first_request (u "token") (u "42") (u "last_7d") None None 30;
      cursor_request (JStr (u "https://next/2")) 30;
      cursor_request (JStr (u "https://next/3")) 30 ]
    = first :: later
    ∧ req_url first = insights_url (u "42")
    ∧ dict_lookup (req_params first) (u "access_token")
      = Some (JStr (u "token"))
    ∧ Forall (follow_up 30) later
    ∧ cursors_followed mock_get_three first 0%nat later.
Proof.
  apply (parameters_are_sent_once mock_get_three 30 5 (u "token") (u "42")
           (u "campaign") [u "campaign_id"; u "campaign_name"] (u "last_7d")
           None None 0%nat
           {| outcome := Ok [row_of "1"; row_of "2"; row_of "2a"; row_of "3"];
              calls := [ first_request (u "token") (u "42") (u "last_7d")
                           None None 30;
                         cursor_request (JStr (u "https://next/2")) 30;
                         cursor_request (JStr (u "https://next/3")) 30 ];
              world := 3%nat |}).
  - reflexivity.
  - left. reflexivity.
Defined.


End PagesProofs.

(* ================================================================= *)
(** * The conversation sent to the provider *)

Module DialogueProofs.
Import AiClient Dialogue.

Lemma supported_role_conversational r :
  supported_role r = u "user" ∨ supported_role r = u "assistant".
Proof.
  destruct r as [| | | |s| |]; try by left.
  cbn [supported_role]. unfold str_eqb.
  repeat case_bool_decide; subst; cbn [orb]; auto.
Qed.

Lemma last_eight_length {A : Type} (l : list A) :
  (length (last_eight l) ≤ 8)%nat.
Proof. unfold last_eight. rewrite length_drop. lia. Qed.

Lemma last_eight_app {A : Type} (old recent : list A) :
  length recent = 8%nat → last_eight (old ++ recent) = recent.
Proof.
  intros Hlen. unfold last_eight. rewrite length_app, Hlen.
  replace (length old + 8 - 8)%nat with (length old) by lia.
  by rewrite drop_app_length.
Qed.

(** The turns taken over are at most eight, each with a role the provider
    accepts from a conversation. *)
Lemma history_messages_shape history past :
  history_messages history = Ok past →
  (length past ≤ 8)%nat ∧ Forall conversational past.
Proof.
  destruct history as [[|m turns]|]; cbn [history_messages];
    try (intros [= <-]; split; [cbn; lia|constructor]).
  intros Hpast%MetaClientProofs.traverse_Forall2. split.
  - rewrite <- (Forall2_length _ _ _ Hpast). apply last_eight_length.
  - induction Hpast as [|x y xs ys Hxy _ IH]; constructor; [|done].
    destruct x; try done. cbn [py_get] in Hxy. rewrite !bind_Ok in Hxy.
    injection Hxy as <-. apply supported_role_conversational.
Qed.

Section WithProvider.
Context `{PyRuntime} {Client : Type}.
Context (openai_client : pystr → result Client).
Context (chat_completions_create : Client → chat_request → result json).
Context (_build_prompt : prompt_inputs → result pystr).


(** X6: with a key, the client is created first and at most one request
    follows: either the construction of the client, the prompt or the
    history raised and nothing was sent, or exactly one request was sent
    and the result is the provider's answer with [strip()] applied (or the
    exception either of them raised). *)
Theorem one_request_after_client_creation inputs (c : N) key history r t :
  analyze_campaigns_with_gpt openai_client chat_completions_create
    _build_prompt inputs (c :: key) history = (r, t) →
  (t = [ClientCreated (c :: key)] ∧ ∃ e, r = Raise e)
  ∨ ∃ client req,
      openai_client (c :: key) = Ok client
      ∧ t = [ClientCreated (c :: key); ChatCompletionRequested req]
      ∧ r = (answer ← chat_completions_create client req;
             strip_method answer).
Proof.
  unfold analyze_campaigns_with_gpt. cbn [truthy negb].
  rewrite bool_decide_eq_false_2 by done. cbn [negb].
  unfold emit, lift. cbn [mbind io_bind].
  destruct (openai_client (c :: key)) as [client|e].
  2:{ intros [= <- <-]. left. by eauto. }
  destruct (_build_prompt inputs) as [prompt|e].
  2:{ intros [= <- <-]. left. by eauto. }
  destruct (history_messages history) as [past|e].
  2:{ intros [= <- <-]. left. by eauto. }
  intros Hrun. right. eexists client, _. split; [done|].
  destruct (chat_completions_create client _) as [answer|e] eqn:Hanswer;
    injection Hrun as <- <-; rewrite Hanswer.
  - split; [done|]. rewrite bind_Ok. by destruct (strip_method answer).
  - by split.
Qed.

(** X7: only the last eight turns of the history are read: turns before
    them change nothing, not the request, not the result, and not even
    whether the call fails, however malformed they are. *)
Theorem older_turns_are_ignored inputs api_key old recent :
  length recent = 8%nat →
  analyze_campaigns_with_gpt openai_client chat_completions_create
    _build_prompt inputs api_key (Some (old ++ recent))
  = analyze_campaigns_with_gpt openai_client chat_completions_create
      _build_prompt inputs api_key (Some recent).
Proof.
  intros Hlen. unfold analyze_campaigns_with_gpt.
  assert (history_messages (Some (old ++ recent))
          = history_messages (Some recent)) as ->; [|done].
  unfold history_messages.
  rewrite (last_eight_app old recent Hlen).
  assert (last_eight recent = recent) as ->.
  { unfold last_eight. rewrite Hlen. done. }
  destruct recent as [|m recent]; [done|].
  by destruct (old ++ m :: recent) eqn:E; [destruct old|].
Qed.

End WithProvider.


(** X6 on the mock provider: one request, and the answer stripped. *)
Lemma one_request_after_client_creation_witness :
  ([ClientCreated (u "sk-test"); ChatCompletionRequested mock_request]
   = [ClientCreated (u "sk-test")]
   ∧ ∃ e, Ok (u "ROAS 2.1 na campanha A.") = Raise e)
  ∨ ∃ client req,
      mock_openai_client (u "sk-test") = Ok client
      ∧ [ClientCreated (u "sk-test"); ChatCompletionRequested mock_request]
        = [ClientCreated (u "sk-test"); ChatCompletionRequested req]
      ∧ Ok (u "ROAS 2.1 na campanha A.")
        = (answer ← mock_create client req;
           strip_method (H := ascii_runtime) answer).
Proof.
  apply (one_request_after_client_creation (H := ascii_runtime)
           mock_openai_client mock_create mock_prompt no_inputs
           115%N (u "k-test") (Some mock_history)).
  reflexivity.
Defined.

(** X7 on the mock provider: the malformed first turn of [mock_history]
    is not read. *)
Lemma older_turns_are_ignored_witness :
  analyze_campaigns_with_gpt (H := ascii_runtime) mock_openai_client
    mock_create mock_prompt no_inputs (u "sk-test") (Some mock_history)
  = analyze_campaigns_with_gpt (H := ascii_runtime) mock_openai_client
      mock_create mock_prompt no_inputs (u "sk-test")
      (Some (drop 1 mock_history)).
Proof.
  apply (older_turns_are_ignored (H := ascii_runtime) mock_openai_client
           mock_create mock_prompt no_inputs (u "sk-test")
           [JInt 0] (drop 1 mock_history)).
  reflexivity.
Defined.

End DialogueProofs.

(* ================================================================= *)
(** * What the sanitiser never returns *)

Module TidyProofs.
Import Main Tidy.

(** ** Strings *)

Lemma drop_while_suffix (f : N → bool) (s : pystr) :
  drop_while f s `suffix_of` s.
Proof.
  induction s as [|c s IH]; [done|]. cbn [drop_while].
  destruct (f c); [by apply suffix_cons_r|done].
Qed.

Lemma drop_while_head (f : N → bool) (s : pystr) (c : N) :
  head (drop_while f s) = Some c → f c = false.
Proof.
  induction s as [|d s IH]; [done|]. cbn [drop_while].
  destruct (f d) eqn:Hd; [done|]. by intros [= <-].
Qed.

Lemma last_suffix {A : Type} (l k : list A) (x : A) :
  l `suffix_of` k → last l = Some x → last k = Some x.
Proof.
  intros [pre ->] Hlast. induction pre as [|y pre IH]; [done|].
  cbn [app]. destruct (pre ++ l) eqn:E; [|done].
  apply app_eq_nil in E as [_ ->]. done.
Qed.

Lemma replace_from_Forall (P : N → Prop) (old new : pystr) :
  Forall P new →
  ∀ s skip, Forall P s → Forall P (replace_from old new skip s).
Proof.
  intros Hnew. induction s as [|c s IH]; intros skip Hs; [done|].
  inversion Hs as [|? ? Hc Hs']; subst. cbn [replace_from].
  destruct skip as [|k]; [|by apply IH].
  destruct (is_prefix old (c :: s)).
  - apply Forall_app. split; [done|by apply IH].
  - constructor; [done|by apply IH].
Qed.

Lemma str_replace_Forall (P : N → Prop) (old new s : pystr) :
  Forall P new → Forall P s → Forall P (str_replace old new s).
Proof. intros. by apply replace_from_Forall. Qed.

(** Replacing a character by another leaves none of it. *)
Lemma str_replace_character (c d : N) (s : pystr) :
  c ≠ d → Forall (λ x, x ≠ c) (str_replace [c] [d] s).
Proof.
  intros Hne. unfold str_replace. induction s as [|x s IH]; [done|].
  cbn [replace_from is_prefix length Nat.sub].
  destruct (N.eqb_spec c x) as [<-|Hx]; cbn [andb app].
  - constructor; [congruence|done].
  - constructor; [congruence|done].
Qed.

(** ** The matcher builds its groups from the subject *)

Lemma star_loop_from_subject (P : N → Prop) (step : cursor → list cursor) :
  (∀ st st', In st' (step st) → from_subject P st → from_subject P st') →
  ∀ fuel st st',
    In st' (star_loop step fuel st) → from_subject P st → from_subject P st'.
Proof.
  intros Hstep. induction fuel as [|fuel IH]; intros st st'; cbn [star_loop].
  { by intros [<-|[]]. }
  rewrite in_app_iff, in_flat_map. intros [(mid & Hmid & Hin)|[<-|[]]]; [|done].
  destruct (_ <? _)%nat; [|done]. intros Hst.
  eapply IH; [done|]. by eapply Hstep.
Qed.

Lemma run_from_subject (P : N → Prop) (r : regex) :
  ∀ st st', In st' (run r st) → from_subject P st → from_subject P st'.
Proof.
  induction r as [|c|f|a IHa b IHb|a IHa b IHb|a IHa|a IHa|f|f|];
    intros st st'; cbn [run].
  - by intros [<-|[]].
  - destruct (rest st) as [|d s] eqn:E; [done|]. destruct (c =? d)%N; [|done].
    intros [<-|[]] [Hrest Hgroups]. split; [|done]. cbn [step_over rest].
    rewrite E in Hrest. by inversion Hrest.
  - destruct (rest st) as [|d s] eqn:E; [done|]. destruct (f d); [|done].
    intros [<-|[]] [Hrest Hgroups]. split; [|done]. cbn [step_over rest].
    rewrite E in Hrest. by inversion Hrest.
  - rewrite in_flat_map. intros (mid & Hmid & Hin) Hst.
    eapply IHb; [done|]. by eapply IHa.
  - rewrite in_app_iff. intros [Hin|Hin]; [by apply IHa|by apply IHb].
  - by apply star_loop_from_subject.
  - rewrite in_map_iff. intros (mid & <- & Hmid) Hst.
    destruct (IHa _ _ Hmid Hst) as [Hrest Hgroups].
    split; [done|]. cbn [groups]. constructor; [|done].
    unfold consumed. apply Forall_take. by destruct Hst.
  - destruct (prev st) as [p|]; [|done]. destruct (f p); [|done].
    by intros [<-|[]].
  - destruct (rest st) as [|d s] eqn:E; [done|]. destruct (f d); [|done].
    by intros [<-|[]].
  - intros Hin. assert (st' = st) as ->; [|done].
    repeat case_match; try done; by destruct Hin as [<-|[]].
Qed.

(** A substitution whose replacement is built from the match, the groups
    and characters that satisfy [P] keeps [P] on every character. *)
Lemma sub_from_Forall (P : N → Prop) r repl :
  (∀ m gs, Forall P m → Forall (Forall P) gs → Forall P (repl m gs)) →
  ∀ s skip before,
    Forall P s → Forall P (sub_from r repl skip before s).
Proof.
  intros Hrepl. induction s as [|c s IH]; intros skip before Hs; [done|].
  assert (Forall P s) as Hs' by (by inversion Hs).
  cbn [sub_from]. destruct skip as [|k]; [|by apply IH].
  set (here := {| prev := before; rest := c :: s; groups := [] |}).
  destruct (run r here) as [|st others] eqn:Hrun.
  { constructor; [by inversion Hs|by apply IH]. }
  assert (from_subject P st) as [_ Hgroups].
  { apply (run_from_subject P r here); [rewrite Hrun; by left|].
    split; [done|constructor]. }
  destruct (length (consumed here st)) as [|k] eqn:Hlen.
  { constructor; [by inversion Hs|by apply IH]. }
  apply Forall_app. split; [|by apply IH].
  apply Hrepl; [|done]. unfold consumed. by apply Forall_take.
Qed.

Lemma re_sub_Forall (P : N → Prop) r repl (s : pystr) :
  (∀ m gs, Forall P m → Forall (Forall P) gs → Forall P (repl m gs)) →
  Forall P s → Forall P (re_sub r repl s).
Proof. intros. by apply sub_from_Forall. Qed.

Lemma constant_Forall (P : N → Prop) (t : pystr) :
  Forall P t →
  ∀ m gs, Forall P m → Forall (Forall P) gs → Forall P (constant t m gs).
Proof. done. Qed.

Lemma last_group_Forall (P : N → Prop) (gs : list pystr) :
  Forall (Forall P) gs → Forall P (default [] (last gs)).
Proof.
  intros Hgs. destruct (last gs) as [g|] eqn:Hg; [|done].
  apply last_Some in Hg as [pre ->].
  apply Forall_app in Hgs as [_ Hg]. by inversion Hg.
Qed.

Lemma head_group_Forall (P : N → Prop) (gs : list pystr) :
  Forall (Forall P) gs → Forall P (default [] (head gs)).
Proof. intros Hgs. destruct Hgs; [done|]. done. Qed.

Section WithRuntime.
Context `{PyRuntime}.

Lemma str_strip_Forall (P : N → Prop) (s : pystr) :
  Forall P s → Forall P (str_strip s).
Proof.
  intros Hs. unfold str_strip, str_rstrip, str_lstrip.
  apply Forall_reverse.
  destruct (drop_while_suffix is_space
              (reverse (drop_while is_space s))) as [k1 Hk1].
  destruct (drop_while_suffix is_space s) as [k2 Hk2].
  rewrite Hk2 in Hs. apply Forall_app in Hs as [_ Hs].
  apply Forall_reverse in Hs. rewrite Hk1 in Hs.
  by apply Forall_app in Hs as [_ ?].
Qed.

Lemma str_strip_trimmed (s : pystr) : trimmed (str_strip s).
Proof.
  unfold str_strip, str_rstrip, str_lstrip. split; intros c.
  - rewrite head_reverse. intros Hlast.
    apply (last_suffix _ _ _ (drop_while_suffix _ _)) in Hlast.
    rewrite last_reverse in Hlast. by apply drop_while_head in Hlast.
  - rewrite last_reverse. apply drop_while_head.
Qed.

(** ** Stray backslashes *)

Lemma star_loop_nonempty (step : cursor → list cursor) fuel st :
  star_loop step fuel st ≠ [].
Proof.
  destruct fuel; cbn [star_loop]; [done|].
  intros E. by apply app_eq_nil in E as [_ ?].
Qed.

Lemma run_seq (a b : regex) st :
  run (Seq a b) st = flat_map (run b) (run a st).
Proof. reflexivity. Qed.

Lemma run_star_stuck (a : regex) st : run a st = [] → run (Star a) st = [st].
Proof.
  intros Ha. cbn [run]. destruct (length (rest st)); cbn [star_loop]; [done|].
  by rewrite Ha.
Qed.

Lemma run_chr_hit (c : N) st (s : pystr) :
  rest st = c :: s → run (Chr c) st = [step_over st c s].
Proof. intros Hrest. cbn [run]. by rewrite Hrest, N.eqb_refl. Qed.

(** At a backslash the pattern [\s*\\\s*] matches, and the match ends
    after the backslash or further on. *)
Lemma run_stray_backslash before (s : pystr) :
  ∃ st others,
    run stray_backslash {| prev := before; rest := 92%N :: s; groups := [] |}
    = st :: others
    ∧ rest st `suffix_of` s.
Proof.
  set (here := {| prev := before; rest := 92%N :: s; groups := [] |}).
  set (after := step_over here 92 s).
  assert (run stray_backslash here = run (Seq (Star ws) Eps) after ++ [] ++ [])
    as Hrun.
  { unfold stray_backslash, seq. cbn [foldr].
    rewrite run_seq, (run_star_stuck ws here) by reflexivity.
    cbn [flat_map]. rewrite run_seq, (run_chr_hit 92 here s) by reflexivity.
    cbn [flat_map]. by rewrite !app_nil_r. }
  destruct (run (Seq (Star ws) Eps) after) as [|st others] eqn:Hafter.
  { exfalso. cbn [run] in Hafter.
    destruct (star_loop (run ws) (length (rest after)) after) eqn:Hloop;
      [by apply star_loop_nonempty in Hloop|done]. }
  exists st, (others ++ [] ++ []). split; [by rewrite Hrun|].
  apply (MainProofs.run_suffix (Seq (Star ws) Eps) after).
  rewrite Hafter. by left.
Qed.

(** Removing the stray backslashes leaves no backslash. *)
Lemma sub_from_stray_backslash (s : pystr) :
  ∀ skip before,
    Forall (λ c, c ≠ 92%N)
      (sub_from stray_backslash (constant []) skip before s).
Proof.
  induction s as [|c s IH]; intros skip before; [done|].
  cbn [sub_from]. destruct skip as [|k]; [|apply IH].
  destruct (N.eq_dec c 92) as [->|Hc].
  - destruct (run_stray_backslash before s) as (st & others & -> & Hsuffix).
    unfold consumed. cbn [rest]. rewrite length_take.
    apply suffix_length in Hsuffix.
    replace (length (92%N :: s)) with (S (length s)) by done.
    destruct (_ `min` _)%nat eqn:Hmin; [lia|]. apply IH.
  - destruct (run stray_backslash _) as [|st others].
    { constructor; [done|apply IH]. }
    destruct (length _); [constructor; [done|apply IH]|apply IH].
Qed.

(** ** The replacements add neither a tab nor a backslash *)

Lemma group_1_Forall (P : N → Prop) m gs :
  Forall P m → Forall (Forall P) gs → Forall P (group_1 m gs).
Proof. intros _ Hgs. by apply last_group_Forall. Qed.

Lemma group_1_comma_group_2_Forall (P : N → Prop) m gs :
  P 44%N →
  Forall P m → Forall (Forall P) gs → Forall P (group_1_comma_group_2 m gs).
Proof.
  intros Hcomma _ Hgs. unfold group_1_comma_group_2.
  repeat (apply Forall_app; split).
  - by apply last_group_Forall.
  - by constructor.
  - by apply head_group_Forall.
Qed.

(** X8: the sanitised text contains neither a tab nor a backslash,
    whatever the text and whatever the interpreter's tables: tabs become
    spaces, every backslash is removed with the white space around it, and
    no later step brings either back. *)
Theorem sanitize_output_has_no_tab_or_backslash (text : pystr) :
  (9%N ∉ _sanitize_analysis text) ∧ (92%N ∉ _sanitize_analysis text).
Proof.
  set (P := λ c : N, c ≠ 9%N ∧ c ≠ 92%N).
  set (Q := λ c : N, c ≠ 9%N).
  assert (Forall P (_sanitize_analysis text)) as Hout.
  2:{ rewrite Forall_forall in Hout.
      split; intros Hin; by destruct (Hout _ Hin). }
  unfold _sanitize_analysis. destruct text as [|c0 text]; [done|].
  cbn [truthy negb]. rewrite bool_decide_eq_false_2 by done. cbn [negb].
  cbv zeta.
  apply (str_strip_Forall P).
  apply (re_sub_Forall P);
    [intros m gs; by apply group_1_comma_group_2_Forall|].
  apply (re_sub_Forall P); [by apply constant_Forall; repeat constructor|].
  apply (str_replace_Forall P); [by repeat constructor|].
  apply (re_sub_Forall P); [by apply constant_Forall; repeat constructor|].
  apply (re_sub_Forall P); [by apply constant_Forall; repeat constructor|].
  apply (re_sub_Forall P); [apply group_1_Forall|].
  apply (re_sub_Forall P); [by apply constant_Forall; repeat constructor|].
  apply (str_replace_Forall P); [by repeat constructor|].
  apply (str_replace_Forall P); [by repeat constructor|].
  apply Forall_and. split; [|apply sub_from_stray_backslash].
  apply (re_sub_Forall Q); [by apply constant_Forall|].
  apply (re_sub_Forall Q); [by apply constant_Forall|].
  apply (str_replace_Forall Q); [by repeat constructor|].
  by apply str_replace_character.
Qed.

(** X9: the sanitised text never begins or ends with white space,
    whatever the text and whatever the interpreter's tables. *)
Theorem sanitize_output_is_trimmed (text : pystr) :
  trimmed (_sanitize_analysis text).
Proof.
  unfold _sanitize_analysis. destruct text as [|c text]; [by split|].
  cbn [truthy negb]. rewrite bool_decide_eq_false_2 by done. cbn [negb].
  cbv zeta. apply str_strip_trimmed.
Qed.

(** ** ASCII in, printable ASCII out *)

Lemma sub_at_start_Forall (P : N → Prop) r repl (s : pystr) :
  (∀ m gs, Forall P m → Forall (Forall P) gs → Forall P (repl m gs)) →
  Forall P s → Forall P (sub_at_start r repl s).
Proof.
  intros Hrepl Hs. unfold sub_at_start.
  destruct (run r (start_of s)) as [|st others] eqn:Hrun; [done|].
  assert (from_subject P st) as [Hrest Hgroups].
  { apply (run_from_subject P r (start_of s)); [rewrite Hrun; by left|].
    split; [done|constructor]. }
  apply Forall_app. split; [|done].
  apply Hrepl; [|done]. unfold consumed. by apply Forall_take.
Qed.

Lemma str_split_Forall (P : N → Prop) (sep : N) (s : pystr) :
  Forall P s → Forall (Forall P) (str_split sep s).
Proof.
  induction 1 as [|c s Hc _ IH]; cbn [str_split]; [by repeat constructor|].
  destruct (c =? sep)%N; [by constructor|].
  destruct (str_split sep s) as [|part parts]; [by repeat constructor|].
  inversion IH; subst. constructor; [by constructor|done].
Qed.

Lemma str_join_Forall (P : N → Prop) (sep : pystr) (parts : list pystr) :
  Forall P sep → Forall (Forall P) parts → Forall P (str_join sep parts).
Proof.
  intros Hsep. induction 1 as [|x rest Hx Hrest IH]; [done|].
  cbn [str_join]. destruct rest as [|y rest]; [done|].
  apply Forall_app. split; [done|]. apply Forall_app. by split.
Qed.

Lemma clean_lines_Forall (P : N → Prop) (lines : list pystr) :
  Forall (Forall P) lines → Forall (Forall P) (clean_lines lines).
Proof.
  unfold clean_lines. induction 1 as [|ln lines Hln _ IH]; [done|].
  cbn [flat_map]. destruct (existsb _ banned); [done|].
  constructor; [|done].
  apply sub_at_start_Forall; [by apply constant_Forall|].
  by apply sub_at_start_Forall; [apply constant_Forall|].
Qed.

(** Of ASCII text the filter keeps white space and printable characters. *)
Lemma filter_characters_ascii (t : pystr) :
  Forall (λ c, is_ascii c = true) t →
  Forall (λ c, printable_or_tab c = true) (filter_characters t).
Proof.
  unfold filter_characters. induction 1 as [|c t Hc _ IH]; [done|].
  cbn [flat_map]. apply Forall_app. split; [|done].
  case_bool_decide as Hws.
  { constructor; [|done].
    repeat (apply elem_of_cons in Hws as [->|Hws]; [done|]).
    by apply elem_of_nil in Hws. }
  unfold is_control, nfkc. rewrite Hc.
  destruct ((c <? 32)%N || (c =? 127)%N) eqn:Hcontrol; [done|].
  constructor; [|done].
  apply orb_false_iff in Hcontrol as [Hlow Hdel].
  apply N.ltb_ge in Hlow. apply N.eqb_neq in Hdel.
  unfold is_ascii in Hc. apply N.ltb_lt in Hc.
  unfold printable_or_tab, printable, between.
  rewrite (proj2 (N.leb_le 32 c)), (proj2 (N.leb_le c 126)) by lia. done.
Qed.

(** X21: an ASCII reply is sanitised to printable ASCII and newlines
    only: no control character, no tab, no carriage return, and nothing
    beyond ASCII, is in the text returned. *)
Theorem sanitize_ascii_gives_printable_text (text : pystr) :
  Forall (λ c, is_ascii c = true) text →
  Forall (λ c, printable c = true) (_sanitize_analysis text).
Proof.
  intros Hascii.
  set (P := λ c : N, printable c = true).
  set (Q := λ c : N, printable_or_tab c = true).
  unfold _sanitize_analysis. destruct text as [|c0 text]; [done|].
  cbn [truthy negb]. rewrite bool_decide_eq_false_2 by done. cbn [negb].
  cbv zeta.
  apply (str_strip_Forall P).
  apply (re_sub_Forall P);
    [intros m gs; by apply group_1_comma_group_2_Forall|].
  apply (re_sub_Forall P); [by apply constant_Forall; repeat constructor|].
  apply (str_replace_Forall P); [by repeat constructor|].
  apply (re_sub_Forall P); [by apply constant_Forall; repeat constructor|].
  apply (re_sub_Forall P); [by apply constant_Forall; repeat constructor|].
  apply (re_sub_Forall P); [apply group_1_Forall|].
  apply (re_sub_Forall P); [by apply constant_Forall; repeat constructor|].
  apply (str_replace_Forall P); [by repeat constructor|].
  apply (str_replace_Forall P); [by repeat constructor|].
  apply (re_sub_Forall P); [by apply constant_Forall|].
  apply (re_sub_Forall P); [by apply constant_Forall|].
  apply (str_replace_Forall P); [by repeat constructor|].
  eapply Forall_impl.
  { apply Forall_and. split.
    - apply (str_replace_Forall Q [9%N] [32%N]); [by repeat constructor|].
      apply (str_strip_Forall Q).
      apply (re_sub_Forall Q);
        [by apply constant_Forall; repeat constructor|].
      apply (str_join_Forall Q); [by repeat constructor|].
      apply (clean_lines_Forall Q), (str_split_Forall Q).
      apply filter_characters_ascii.
      apply (str_replace_Forall (λ c, is_ascii c = true));
        [by repeat constructor|].
      by apply (str_replace_Forall (λ c, is_ascii c = true));
        [repeat constructor|].
    - by apply (str_replace_character 9 32). }
  intros c [Hc Htab]. unfold Q, printable_or_tab in Hc. unfold P.
  apply orb_prop in Hc as [Hc|Hc]; [done|].
  by apply N.eqb_eq in Hc.
Qed.

End WithRuntime.

(** X21 on a reply with tabs and a stray backslash. *)
Lemma sanitize_ascii_gives_printable_text_witness :
  Forall (λ c, printable c = true)
    (_sanitize_analysis (H := ascii_runtime) reply_with_tabs).
Proof.
  apply (sanitize_ascii_gives_printable_text (H := ascii_runtime)
           reply_with_tabs).
  apply (bool_decide_unpack _). by vm_compute.
Defined.

End TidyProofs.

(* ================================================================= *)
(** * Intents and style directives *)

Module IntentsProofs.
Import Intents.

(** ** Substrings *)

Lemma is_prefix_app (p s : pystr) :
  is_prefix p s = true ↔ ∃ b, s = p ++ b.
Proof.
  revert s. induction p as [|c p IH]; intros s; cbn [is_prefix].
  { split; [by exists s|done]. }
  destruct s as [|d s].
  { split; [done|by intros [b ?]]. }
  rewrite andb_true_iff, N.eqb_eq, IH. split.
  - intros [-> [b ->]]. by exists b.
  - intros [b [= -> ->]]. split; [done|by exists b].
Qed.

Lemma is_substring_app (p s : pystr) :
  is_substring p s = true ↔ ∃ a b, s = a ++ p ++ b.
Proof.
  induction s as [|d s IH]; cbn [is_substring];
    rewrite orb_true_iff, is_prefix_app.
  - split.
    + intros [[b Hb]|?]; [|done]. by exists [], b.
    + intros (a & b & Hs). left.
      symmetry in Hs. apply app_eq_nil in Hs as [_ Hs].
      apply app_eq_nil in Hs as [-> _]. by exists [].
  - rewrite IH. split.
    + intros [[b Hb]|(a & b & ->)]; [by exists [], b|by exists (d :: a), b].
    + intros ([|c a] & b & Hs).
      * left. by exists b.
      * right. injection Hs as -> ->. by exists a, b.
Qed.

(** A text that contains a keyword contains every part of the keyword. *)
Lemma is_substring_trans (p k t : pystr) :
  is_substring p k = true → is_substring k t = true →
  is_substring p t = true.
Proof.
  rewrite !is_substring_app. intros (a & b & ->) (a' & b' & ->).
  exists (a' ++ a), (b ++ b'). by rewrite <- !app_assoc.
Qed.

(** A keyword that contains another keyword of the list decides nothing. *)
Lemma any_keyword_redundant (pre post : list pystr) (k k' t : pystr) :
  k' ∈ pre ++ post → is_substring k' k = true →
  any_keyword (pre ++ k :: post) t = any_keyword (pre ++ post) t.
Proof.
  intros Hin Hpart. unfold any_keyword.
  rewrite !existsb_app. cbn [existsb].
  destruct (is_substring k t) eqn:Hk; [|done].
  rewrite orb_true_l, orb_true_r. symmetry.
  rewrite <- existsb_app. apply existsb_exists. exists k'.
  split; [by apply list_elem_of_In|by eapply is_substring_trans].
Qed.

(** X10: three keywords of the endpoints decide nothing, because each
    contains another keyword of its list: criativos beside criativo,
    conjuntos beside conjunto in the test for ad sets, and queda de
    desempenho beside queda. Without them every test gives the same answer
    on every text. *)
Theorem redundant_keywords (t : pystr) :
  any_keyword creative_keywords t
  = any_keyword (delete 1%nat creative_keywords) t
  ∧ any_keyword adset_keywords t
    = any_keyword (delete 1%nat adset_keywords) t
  ∧ any_keyword diagnosis_keywords t
    = any_keyword (delete 3%nat diagnosis_keywords) t.
Proof.
  split; [|split].
  - apply (any_keyword_redundant [u "criativo"] _ (u "criativos")
             (u "criativo")); [by left|reflexivity].
  - apply (any_keyword_redundant [u "conjunto"] _ (u "conjuntos")
             (u "conjunto")); [by left|reflexivity].
  - apply (any_keyword_redundant [u "problema"; u "cairam"; u "queda"] _
             (u "queda de desempenho") (u "queda"));
      [by do 2 right; left|reflexivity].
Qed.

Section WithRuntime.
Context `{PyRuntime}.

(** X11: the endpoint asks for the ads exactly when it detects the
    intent to analyse creatives: [wants_ads] holds of a message if and
    only if analise_criativos is among its intents. *)
Theorem ads_wanted_iff_creative_intent (user_message : option pystr) :
  wants_ads user_message = true
  ↔ u "analise_criativos" ∈ intent user_message.
Proof.
  unfold wants_ads, intent.
  destruct (truthy _); [|by rewrite elem_of_nil]. cbv zeta.
  destruct (any_keyword creative_keywords _).
  { split; [intros _; by left|done]. }
  split; [done|]. intros Hin. exfalso.
  repeat match type of Hin with
         | context [if ?b then _ else _] => destruct b
         end;
    cbn [app] in Hin;
    repeat (apply elem_of_cons in Hin as [Hin|Hin]; [discriminate Hin|]);
    by apply elem_of_nil in Hin.
Qed.

(** X12: what [_build_prompt] makes of the intents the endpoint detects:
    the default directive is given exactly when no intent was detected,
    the creative report exactly when the ads are wanted, the go-to-market
    directive exactly when novo_produto or estrutura was detected, and it
    is given once even when both were; there are between one and four
    directives, all different. *)
Theorem style_of_detected_intents (user_message : option pystr) :
  let directives := style_guidance (Some (intent user_message)) in
  (default_mode ∈ directives ↔ intent user_message = [])
  ∧ (creative_mode ∈ directives ↔ wants_ads user_message = true)
  ∧ (go_to_market_mode ∈ directives
     ↔ u "novo_produto" ∈ intent user_message
       ∨ u "estrutura" ∈ intent user_message)
  ∧ NoDup directives
  ∧ (1 ≤ length directives ≤ 4)%nat.
Proof.
  unfold wants_ads, intent.
  destruct (truthy _); cbv zeta.
  2:{ apply (bool_decide_unpack _). by vm_compute. }
  destruct (any_keyword creative_keywords _),
           (any_keyword budget_keywords _),
           (any_keyword diagnosis_keywords _),
           (any_keyword product_keywords _),
           (any_keyword structure_keywords _);
    apply (bool_decide_unpack _); by vm_compute.
Qed.

(** An absent or empty message mentions nothing. *)
Lemma wants_ads_text (user_message : option pystr) :
  any_keyword creative_keywords (str_lower (default [] user_message))
  = wants_ads user_message.
Proof. by destruct user_message as [[|c m]|]. Qed.

Lemma wants_adsets_text (user_message : option pystr) :
  any_keyword adset_keywords (str_lower (default [] user_message))
  = wants_adsets user_message.
Proof. by destruct user_message as [[|c m]|]. Qed.

(** One refinement: [x] is appended when it is missing and wanted. *)
Lemma refined_level (x : pystr) (l : list pystr) (wanted : bool) :
  let l' := if negb (bool_decide (x ∈ l)) && wanted then l ++ [x] else l in
  (x ∈ l' ↔ x ∈ l ∨ wanted = true)
  ∧ (∀ y, y ≠ x → y ∈ l' ↔ y ∈ l)
  ∧ l `prefix_of` l'.
Proof.
  cbv zeta. case_bool_decide as Hx; destruct wanted; cbn [negb andb].
  - split; [tauto|]. split; [done|]. done.
  - split; [|split; [done|done]]. split; [tauto|]. by intros [?|?].
  - split; [|split].
    + rewrite elem_of_app, list_elem_of_singleton. tauto.
    + intros y Hy. rewrite elem_of_app, list_elem_of_singleton. tauto.
    + by apply prefix_app_r.
  - split; [|split; [done|done]]. split; [tauto|]. by intros [?|?].
Qed.


End WithRuntime.

End IntentsProofs.

(* ================================================================= *)
(** * More on purchase resolution and normalisation *)

Module ResolutionProofs.
Import MetaClient Actions MetaClientProofs.

Section WithRuntime.
Context `{PyRuntime}.
Implicit Types (e a : list (pystr * json)) (es : list (list (pystr * json))).

(** Every tag of the priority list is purchase-like. *)
Lemma priority_is_counted e :
  has_text_tag e = true → index_key e ∈ PURCHASE_PRIORITY → counted e = true.
Proof.
  intros Htext. rewrite text_tag_index_key by done. unfold counted.
  generalize (str_lower (text_tag e)). intros t Ht.
  unfold PURCHASE_PRIORITY in Ht.
  repeat (apply elem_of_cons in Ht as [->|Ht]; [by vm_compute|]).
  by apply elem_of_nil in Ht.
Qed.

Lemma pick_count_no_priority es :
  Forall (λ e, has_text_tag e = true) es →
  Forall (λ e, index_key e ∉ PURCHASE_PRIORITY) es →
  _pick_purchase_count (JList (JObj <$> es))
  = Ok (foldl Z.add 0 (count_of <$> filter (λ e, counted e = true) es)).
Proof.
  intros Htext Hnone. unfold _pick_purchase_count.
  rewrite iter_or_empty, bind_Ok, index_by_type_dicts, bind_Ok.
  rewrite no_priority_tag_scan by done. by apply fallback_count_from.
Qed.

Lemma pick_value_no_priority es :
  Forall (λ e, has_text_tag e = true) es →
  Forall (λ e, index_key e ∉ PURCHASE_PRIORITY) es →
  _pick_purchase_value (JList (JObj <$> es))
  = Ok (foldl PrimFloat.add 0%float
          (value_of <$> filter (λ e, counted e = true) es)).
Proof.
  intros Htext Hnone. unfold _pick_purchase_value.
  rewrite iter_or_empty, bind_Ok, index_by_type_dicts, bind_Ok.
  rewrite no_priority_tag_scan by done. by apply fallback_value_from.
Qed.

Lemma Forall_filter_keeps {A : Type} (P Q : A → Prop)
    `{∀ x, Decision (Q x)} (l : list A) :
  Forall P l → Forall P (filter Q l).
Proof.
  rewrite !Forall_forall. intros Hl x [_ Hx]%list_elem_of_filter. auto.
Qed.

Lemma filter_counted_twice es :
  filter (λ e, counted e = true) (filter (λ e, counted e = true) es)
  = filter (λ e, counted e = true) es.
Proof.
  induction es as [|e es IH]; [done|].
  rewrite filter_cons. destruct (decide (counted e = true)) as [He|He].
  - rewrite filter_cons_True by done. by rewrite IH.
  - done.
Qed.

(** X14: only purchase-like entries matter: the entries whose lowercased
    tag is neither in the allowed set nor ends with .purchase or _purchase
    (clicks, views, additions to the cart) can be removed from the list
    without changing the resolved purchase count or the resolved purchase
    value. Entries are dictionaries whose tag, when present, is text. *)
Theorem only_purchase_entries_matter es :
  Forall (λ e, has_text_tag e = true) es →
  _pick_purchase_count (JList (JObj <$> es))
  = _pick_purchase_count
      (JList (JObj <$> filter (λ e, counted e = true) es))
  ∧ _pick_purchase_value (JList (JObj <$> es))
    = _pick_purchase_value
        (JList (JObj <$> filter (λ e, counted e = true) es)).
Proof.
  intros Htext.
  assert (Forall (λ e, has_text_tag e = true)
            (filter (λ e, counted e = true) es)) as Htext'
    by by apply Forall_filter_keeps.
  destruct (priority_tag_cases es)
    as [(pre & t & post & before & a & after & Hprio & Hpre & -> & Ha & Hafter)
       |Hnone].
  - assert (counted a = true) as Hcounted.
    { apply priority_is_counted.
      - apply Forall_app in Htext as [_ Htext]. by inversion Htext.
      - rewrite Ha, Hprio. apply elem_of_app. right. by left. }
    assert (filter (λ e, counted e = true) (before ++ a :: after)
            = filter (λ e, counted e = true) before
              ++ a :: filter (λ e, counted e = true) after) as Hfilter.
    { by rewrite filter_app, filter_cons_True. }
    assert (Forall (λ t', Forall (λ e, index_key e ≠ t')
                            (filter (λ e, counted e = true)
                               (before ++ a :: after))) pre) as Hpre'.
    { eapply Forall_impl; [exact Hpre|]. intros t' Ht'.
      by apply Forall_filter_keeps. }
    assert (Forall (λ e, index_key e ≠ t)
              (filter (λ e, counted e = true) after)) as Hafter'
      by by apply Forall_filter_keeps.
    split.
    + rewrite (pick_count_by_priority pre t post _ before a after) by done.
      symmetry. by eapply pick_count_by_priority.
    + rewrite (pick_value_by_priority pre t post _ before a after) by done.
      symmetry. by eapply pick_value_by_priority.
  - assert (Forall (λ e, index_key e ∉ PURCHASE_PRIORITY)
              (filter (λ e, counted e = true) es)) as Hnone'
      by by apply Forall_filter_keeps.
    rewrite !pick_count_no_priority, !pick_value_no_priority by done.
    by rewrite filter_counted_twice.
Qed.

Lemma foldl_add_Permutation (l k : list Z) :
  l ≡ₚ k → ∀ z, foldl Z.add z l = foldl Z.add z k.
Proof.
  induction 1 as [|x l k _ IH|x y l|l k m _ IH1 _ IH2]; intros z; cbn [foldl].
  - done.
  - apply IH.
  - f_equal. lia.
  - by rewrite IH1.
Qed.

(** X15: when no tag occurs twice, the order of the entries does not
    matter: any reordering of the list resolves to the same purchase
    count, and to the same purchase value when some entry carries a tag of
    the priority list. (In the fallback the value is a floating-point sum
    taken in list order.) *)
Theorem order_is_irrelevant_without_repeated_tags es es' :
  es ≡ₚ es' →
  NoDup (index_key <$> es) →
  Forall (λ e, has_text_tag e = true) es →
  _pick_purchase_count (JList (JObj <$> es))
  = _pick_purchase_count (JList (JObj <$> es'))
  ∧ ((∃ e, e ∈ es ∧ index_key e ∈ PURCHASE_PRIORITY) →
     _pick_purchase_value (JList (JObj <$> es))
     = _pick_purchase_value (JList (JObj <$> es'))).
Proof.
  intros Hperm Hdistinct Htext.
  assert (Forall (λ e, has_text_tag e = true) es') as Htext'
    by by rewrite <- Hperm.
  destruct (priority_tag_cases es)
    as [(pre & t & post & before & a & after & Hprio & Hpre & Hes & Ha & Hafter)
       |Hnone].
  - assert (a ∈ es') as (before' & after' & Hes')%list_elem_of_split.
    { rewrite <- Hperm, Hes. apply elem_of_app. right. by left. }
    assert (Forall (λ e, index_key e ≠ t) after') as Hafter'.
    { rewrite Hperm, Hes', fmap_app, fmap_cons in Hdistinct.
      apply NoDup_app in Hdistinct as (_ & _ & Hdistinct).
      apply NoDup_cons in Hdistinct as [Hfresh _].
      apply Forall_forall. intros e He Heq. apply Hfresh.
      rewrite Ha, <- Heq. by apply list_elem_of_fmap_2. }
    assert (Forall (λ t', Forall (λ e, index_key e ≠ t') es') pre) as Hpre'.
    { eapply Forall_impl; [exact Hpre|]. intros t' Ht'. by rewrite <- Hperm. }
    split; [|intros _].
    + rewrite (pick_count_by_priority pre t post es before a after) by done.
      symmetry. by eapply pick_count_by_priority.
    + rewrite (pick_value_by_priority pre t post es before a after) by done.
      symmetry. by eapply pick_value_by_priority.
  - split.
    + assert (Forall (λ e, index_key e ∉ PURCHASE_PRIORITY) es') as Hnone'
        by by rewrite <- Hperm.
      rewrite !pick_count_no_priority by done. f_equal.
      apply foldl_add_Permutation. by rewrite Hperm.
    + intros (e & He & Hin). exfalso.
      rewrite Forall_forall in Hnone. by apply (Hnone e He).
Qed.

(** ** Rows that sold nothing *)

Lemma zero_div_positive (x : float) :
  (0 <? x)%float = true → (0 / x)%float = 0%float.
Proof.
  intros Hpos. apply Prim2SF_inj. rewrite div_spec.
  rewrite ltb_spec in Hpos. change (Prim2SF 0) with (S754_zero false) in *.
  by destruct (Prim2SF x) as [[]|[]| |[] ??].
Qed.

Lemma no_counted_entries es :
  Forall (λ e, counted e = false) es →
  filter (λ e, counted e = true) es = [].
Proof.
  induction 1 as [|e es He _ IH]; [done|].
  rewrite filter_cons_False; [done|]. by rewrite He.
Qed.

Lemma no_counted_no_priority es :
  Forall (λ e, has_text_tag e = true) es →
  Forall (λ e, counted e = false) es →
  Forall (λ e, index_key e ∉ PURCHASE_PRIORITY) es.
Proof.
  intros Htext Hnone. rewrite Forall_forall in Htext, Hnone.
  apply Forall_forall. intros e He Hin.
  specialize (Hnone e He).
  by rewrite (priority_is_counted e (Htext e He) Hin) in Hnone.
Qed.

(** One such row. *)
Lemma row_without_purchases_metrics (row : list (pystr * json)) acts vals :
  dict_get row (u "actions") (JList []) = JList (JObj <$> acts) →
  dict_get row (u "action_values") (JList []) = JList (JObj <$> vals) →
  Forall (λ e, has_text_tag e = true) (acts ++ vals) →
  Forall (λ e, counted e = false) (acts ++ vals) →
  ∃ m, row_metrics row = Ok m
       ∧ purchases m = 0
       ∧ purchase_value m = 0%float
       ∧ roas m = 0%float.
Proof.
  intros Hacts Hvals [Htext Htext']%Forall_app [Hnone Hnone']%Forall_app.
  assert (_pick_purchase_count
            (py_or (JList (JObj <$> acts)) (JList [])) = Ok 0) as Hcount.
  { assert (py_or (JList (JObj <$> acts)) (JList []) = JList (JObj <$> acts))
      as -> by by destruct acts.
    rewrite pick_count_no_priority
      by (done || by apply no_counted_no_priority).
    by rewrite no_counted_entries. }
  assert (_pick_purchase_value
            (py_or (JList (JObj <$> vals)) (JList [])) = Ok 0%float) as Hvalue.
  { assert (py_or (JList (JObj <$> vals)) (JList []) = JList (JObj <$> vals))
      as -> by by destruct vals.
    rewrite pick_value_no_priority
      by (done || by apply no_counted_no_priority).
    by rewrite no_counted_entries. }
  assert (∃ c, ctr_calc_of
                 (_to_int (dict_get row (u "clicks") (JInt 0)))
                 (_to_int (dict_get row (u "impressions") (JInt 0))) = Ok c)
    as [c Hc].
  { unfold ctr_calc_of. destruct (0 <? _) eqn:Hpos; [|by eexists].
    apply Z.ltb_lt in Hpos.
    destruct (int_true_div_to_int (dict_get row (u "clicks") (JInt 0)) _ Hpos)
      as [q ->].
    by eexists. }
  assert (roas_of 0 (_to_float (dict_get row (u "spend") (JFloat 0)))
          = Ok 0%float) as Hroas.
  { unfold roas_of, float_div. destruct (0 <? _)%float eqn:Hpos; [|done].
    by rewrite positive_float_not_zero, zero_div_positive. }
  unfold row_metrics. cbv zeta.
  rewrite Hc, bind_Ok, Hacts, Hcount, bind_Ok, Hvals, Hvalue, bind_Ok.
  rewrite Hroas, bind_Ok. eexists. split; [done|].
  cbn [purchases purchase_value roas]. by rewrite round4_zero.
Qed.

(** X16: rows without purchase-like entries sold nothing: when in every
    row neither [actions] nor [action_values] (each absent, or a list of
    dictionaries with text tags) has an entry whose lowercased tag is in
    the allowed set or ends with .purchase or _purchase, each of the three
    normalisers returns without error, and in every record purchases,
    purchase value and ROAS are zero, whatever the spend. *)
Theorem rows_without_purchase_entries_sold_nothing
    (raw : list (list (pystr * json))) :
  Forall without_purchases raw →
  ∃ ms, Forall sold_nothing ms
        ∧ (∃ out, normalize_insights raw = Ok out
                  ∧ campaign_metrics <$> out = ms)
        ∧ (∃ out, normalize_insights_adset raw = Ok out
                  ∧ adset_metrics <$> out = ms)
        ∧ (∃ out, normalize_insights_ad raw = Ok out
                  ∧ ad_metrics <$> out = ms).
Proof.
  intros Hraw.
  assert (∃ ms, Forall2 (λ row m, row_metrics row = Ok m) raw ms
                ∧ Forall sold_nothing ms) as (ms & Hms & Hzero).
  { induction Hraw as [|row raw Hrow _ (ms & Hms & Hzero)]; [by exists []|].
    destruct Hrow as (acts & vals & Hacts & Hvals & Htext & Hnone).
    destruct (row_without_purchases_metrics row acts vals)
      as (m & Hm & Hsold); [done..|].
    exists (m :: ms). split; by constructor. }
  exists ms. split; [done|]. split; [|split].
  - by apply (normaliser_maps_row_metrics _ campaign_metrics).
  - by apply (normaliser_maps_row_metrics _ adset_metrics).
  - by apply (normaliser_maps_row_metrics _ ad_metrics).
Qed.

(** ** The fallback looks at suffixes only *)

(** The allowed set and the priority list hold the same tags. *)
Lemma allowed_is_priority (t : pystr) : t ∈ allowed ↔ t ∈ PURCHASE_PRIORITY.
Proof.
  unfold allowed, PURCHASE_PRIORITY. rewrite !elem_of_cons, !elem_of_nil.
  tauto.
Qed.

Lemma filter_agree {A : Type} (P Q : A → Prop)
    `{∀ x, Decision (P x)} `{∀ x, Decision (Q x)} (l : list A) :
  Forall (λ x, P x ↔ Q x) l → filter P l = filter Q l.
Proof.
  induction 1 as [|x l Hx _ IH]; [done|].
  rewrite !filter_cons, IH.
  destruct (decide (P x)), (decide (Q x)); tauto.
Qed.

Lemma counted_by_suffix es :
  Forall (λ e, has_text_tag e = true) es →
  Forall (λ e, index_key e ∉ PURCHASE_PRIORITY) es →
  filter (λ e, counted e = true) es
  = filter (λ e, purchase_suffix (str_lower (text_tag e)) = true) es.
Proof.
  intros Htext Hnone. apply filter_agree.
  rewrite Forall_forall in Htext, Hnone. apply Forall_forall. intros e He.
  specialize (Hnone e He). rewrite text_tag_index_key in Hnone by auto.
  unfold counted, purchase_like, purchase_suffix.
  rewrite bool_decide_eq_false_2; [done|]. by rewrite allowed_is_priority.
Qed.

(** X17: in the fallback the allowed set decides nothing: it holds the
    very tags of the priority list, so when no entry carries a priority
    tag, an entry is added to the purchase count (and to the purchase
    value) exactly when its lowercased tag ends with .purchase or
    _purchase. *)
Theorem fallback_counts_by_suffix es :
  Forall (λ e, has_text_tag e = true) es →
  Forall (λ e, index_key e ∉ PURCHASE_PRIORITY) es →
  _pick_purchase_count (JList (JObj <$> es))
  = Ok (sum_int
          (count_of
             <$> filter (λ e, purchase_suffix (str_lower (text_tag e)) = true)
                   es))
  ∧ _pick_purchase_value (JList (JObj <$> es))
    = Ok (sum_float
            (value_of
               <$> filter (λ e, purchase_suffix (str_lower (text_tag e)) = true)
                     es)).
Proof.
  intros Htext Hnone.
  rewrite pick_count_no_priority, pick_value_no_priority by done.
  by rewrite counted_by_suffix.
Qed.

(** ** Rows that were never clicked *)

(** One such row. *)
Lemma unclicked_row_metrics (row : list (pystr * json)) m :
  row_metrics row = Ok m →
  0 < _to_int (dict_get row (u "impressions") (JInt 0)) →
  _to_int (dict_get row (u "clicks") (JInt 0)) = 0 →
  ctr m = round4 (_to_float (dict_get row (u "ctr") (JFloat 0))).
Proof.
  intros Hm Hshown Hclicks. unfold row_metrics in Hm. cbv zeta in Hm.
  rewrite Hclicks in Hm. unfold ctr_calc_of, int_true_div in Hm.
  rewrite (proj2 (Z.ltb_lt _ _) Hshown) in Hm.
  rewrite (proj2 (Z.eqb_neq _ _)) in Hm by lia.
  change (0 =? 0) with true in Hm. cbv iota in Hm.
  rewrite (proj2 (Z.ltb_ge _ _)) in Hm by lia.
  rewrite !bind_Ok in Hm.
  destruct (_pick_purchase_count _) as [n|]; [|done]. rewrite bind_Ok in Hm.
  destruct (_pick_purchase_value _) as [x|]; [|done]. rewrite bind_Ok in Hm.
  destruct (roas_of _ _) as [r|]; [|done]. rewrite bind_Ok in Hm.
  by injection Hm as <-.
Qed.

(** X18: a row with impressions and no clicks keeps the ctr the API
    reported: in every record that a normaliser produced from a row whose
    coerced impressions are positive and whose coerced clicks are zero,
    the ctr is the rounded API value, whatever it is, because the
    recomputed percentage is zero, which is not above zero. *)
Theorem unclicked_rows_keep_the_api_ctr raw ms :
  normalized_metrics raw ms →
  Forall2 (λ row m,
             unclicked row →
             ctr m = round4 (_to_float (dict_get row (u "ctr") (JFloat 0))))
          raw ms.
Proof.
  intros Hms. apply normalized_metrics_rows in Hms.
  eapply Forall2_impl; [exact Hms|]. intros row m Hm [Hshown Hclicks].
  by apply unclicked_row_metrics.
Qed.

(** ** Rows are normalised one by one *)

Lemma traverse_app {A B : Type} (f : A → result B) (xs ys : list A) :
  traverse f (xs ++ ys)
  = (out1 ← traverse f xs; out2 ← traverse f ys; Ok (out1 ++ out2)).
Proof.
  induction xs as [|x xs IH]; cbn [app traverse].
  { rewrite bind_Ok. by destruct (traverse f ys). }
  destruct (f x) as [y|e]; [|done]. rewrite !bind_Ok, IH.
  destruct (traverse f xs) as [out1|e]; [|done]. rewrite !bind_Ok.
  by destruct (traverse f ys).
Qed.

(** X19: each of the three normalisers works row by row and keeps the
    order: normalising the rows of two pages at once gives the records of
    the first page followed by those of the second, and when a row makes
    the normaliser fail, the failure of the earliest such row is the
    result. *)
Theorem normalisation_is_row_by_row (raw1 raw2 : list (list (pystr * json))) :
  normalize_insights (raw1 ++ raw2)
  = (out1 ← normalize_insights raw1;
     out2 ← normalize_insights raw2;
     Ok (out1 ++ out2))
  ∧ normalize_insights_adset (raw1 ++ raw2)
    = (out1 ← normalize_insights_adset raw1;
       out2 ← normalize_insights_adset raw2;
       Ok (out1 ++ out2))
  ∧ normalize_insights_ad (raw1 ++ raw2)
    = (out1 ← normalize_insights_ad raw1;
       out2 ← normalize_insights_ad raw2;
       Ok (out1 ++ out2)).
Proof. repeat split; apply traverse_app. Qed.

End WithRuntime.

(** X14 on a list with clicks, a purchase and an addition to the cart. *)
Lemma only_purchase_entries_matter_witness :
  _pick_purchase_count (H := ascii_runtime) (JList (JObj <$> actions_mixed))
  = _pick_purchase_count (H := ascii_runtime)
      (JList (JObj <$> filter (λ e, counted (H := ascii_runtime) e = true)
                         actions_mixed))
  ∧ _pick_purchase_value (H := ascii_runtime) (JList (JObj <$> actions_mixed))
    = _pick_purchase_value (H := ascii_runtime)
        (JList (JObj <$> filter (λ e, counted (H := ascii_runtime) e = true)
                           actions_mixed)).
Proof.
  apply (only_purchase_entries_matter (H := ascii_runtime) actions_mixed).
  by repeat constructor.
Defined.

(** X15 on three entries without a tag of the priority list, reversed. *)
Lemma order_is_irrelevant_without_repeated_tags_witness :
  _pick_purchase_count (H := ascii_runtime) (JList (JObj <$> actions_custom))
  = _pick_purchase_count (H := ascii_runtime)
      (JList (JObj <$> reverse actions_custom))
  ∧ ((∃ e, e ∈ actions_custom
           ∧ index_key (H := ascii_runtime) e ∈ PURCHASE_PRIORITY) →
     _pick_purchase_value (H := ascii_runtime)
       (JList (JObj <$> actions_custom))
     = _pick_purchase_value (H := ascii_runtime)
         (JList (JObj <$> reverse actions_custom))).
Proof.
  apply (order_is_irrelevant_without_repeated_tags (H := ascii_runtime)
           actions_custom (reverse actions_custom)).
  - by rewrite reverse_Permutation.
  - apply (bool_decide_unpack _). by vm_compute.
  - by repeat constructor.
Defined.

(** X16 on a row with clicks and spend but no purchase. *)
Lemma rows_without_purchase_entries_sold_nothing_witness :
  ∃ ms, Forall sold_nothing ms
        ∧ (∃ out, normalize_insights (H := ascii_runtime)
                    [row_without_purchases] = Ok out
                  ∧ campaign_metrics <$> out = ms)
        ∧ (∃ out, normalize_insights_adset (H := ascii_runtime)
                    [row_without_purchases] = Ok out
                  ∧ adset_metrics <$> out = ms)
        ∧ (∃ out, normalize_insights_ad (H := ascii_runtime)
                    [row_without_purchases] = Ok out
                  ∧ ad_metrics <$> out = ms).
Proof.
  apply (rows_without_purchase_entries_sold_nothing (H := ascii_runtime)
           [row_without_purchases]).
  constructor; [|constructor].
  exists [entry "link_click" (JStr (u "4"))], [].
  split; [reflexivity|]. split; [reflexivity|].
  split; by repeat constructor.
Defined.

(** X17 on two custom conversions and a page view. *)
Lemma fallback_counts_by_suffix_witness :
  _pick_purchase_count (H := ascii_runtime) (JList (JObj <$> actions_custom))
  = Ok (sum_int
          (count_of (H := ascii_runtime)
             <$> filter
                   (λ e, purchase_suffix
                           (str_lower (H := ascii_runtime) (text_tag e))
                         = true)
                   actions_custom))
  ∧ _pick_purchase_value (H := ascii_runtime)
      (JList (JObj <$> actions_custom))
    = Ok (sum_float
            (value_of (H := ascii_runtime)
               <$> filter
                     (λ e, purchase_suffix
                             (str_lower (H := ascii_runtime) (text_tag e))
                           = true)
                     actions_custom)).
Proof.
  apply (fallback_counts_by_suffix (H := ascii_runtime) actions_custom).
  - by repeat constructor.
  - repeat constructor; apply (bool_decide_unpack _); by vm_compute.
Defined.

(** X18 on a row shown 500 times, never clicked, with an API ctr of 1.5. *)
Lemma unclicked_rows_keep_the_api_ctr_witness :
  Forall2 (λ row m,
             unclicked (H := ascii_runtime) row →
             ctr m = round4 (_to_float (H := ascii_runtime)
                               (dict_get row (u "ctr") (JFloat 0))))
    [row_without_clicks]
    [ {| impressions := 500; clicks := 0; spend := 0; cpm := 0; cpc := 0;
         ctr := 1.5; purchases := 0; purchase_value := 0; roas := 0 |} ].
Proof.
  apply (unclicked_rows_keep_the_api_ctr (H := ascii_runtime)
           [row_without_clicks]).
  left. eexists. split; [by vm_compute|reflexivity].
Defined.

End ResolutionProofs.

(* ================================================================= *)
(** * Text that the sanitiser leaves as it is *)

Module SettledProofs.
Import Main Settled MainProofs.

(** ** The matcher finds only matches *)

Lemma star_loop_matches (a : regex) :
  (∀ st st', In st' (run a st) → matches a st st') →
  ∀ fuel st st', In st' (star_loop (run a) fuel st) → matches (Star a) st st'.
Proof.
  intros Ha. induction fuel as [|fuel IH]; intros st st'; cbn [star_loop].
  { intros [<-|[]]. constructor. }
  rewrite in_app_iff, in_flat_map.
  intros [(mid & Hmid & Hin)|[<-|[]]]; [|constructor].
  destruct (_ <? _)%nat; [|done].
  eapply matches_star_more; [by apply Ha|by apply IH].
Qed.

Lemma run_matches (r : regex) :
  ∀ st st', In st' (run r st) → matches r st st'.
Proof.
  induction r as [|c|f|a IHa b IHb|a IHa b IHb|a IHa|a IHa|f|f|];
    intros st st'; cbn [run].
  - intros [<-|[]]. constructor.
  - destruct (rest st) as [|d s] eqn:E; [done|].
    destruct (N.eqb_spec c d) as [<-|]; [|done].
    intros [<-|[]]. by constructor.
  - destruct (rest st) as [|d s] eqn:E; [done|].
    destruct (f d) eqn:Hd; [|done].
    intros [<-|[]]. by constructor.
  - rewrite in_flat_map. intros (mid & Hmid & Hin).
    eapply matches_seq; [by apply IHa|by apply IHb].
  - rewrite in_app_iff. intros [Hin|Hin].
    + apply matches_alt_l. by apply IHa.
    + apply matches_alt_r. by apply IHb.
  - by apply star_loop_matches.
  - rewrite in_map_iff. intros (mid & <- & Hmid).
    apply matches_group. by apply IHa.
  - destruct (prev st) as [p|] eqn:E; [|done].
    destruct (f p) eqn:Hp; [|done].
    intros [<-|[]]. by econstructor.
  - destruct (rest st) as [|d s] eqn:E; [done|].
    destruct (f d) eqn:Hd; [|done].
    intros [<-|[]]. by econstructor.
  - intros Hin. assert (st' = st) as ->.
    { repeat case_match; try done; by destruct Hin as [<-|[]]. }
    constructor. repeat case_match; try done; auto.
Qed.

(** A pattern that matches nowhere from here does not match here. *)
Lemma nowhere_suffix (bad : pystr → bool) (s tl : pystr) :
  nowhere bad s = true → tl `suffix_of` s → bad tl = false.
Proof.
  intros Hs [pre ->]. induction pre as [|c pre IH]; cbn [app nowhere] in Hs.
  - destruct tl; apply andb_prop in Hs as [Hbad _];
      by apply negb_true_iff in Hbad.
  - apply andb_prop in Hs as [_ Hs]. by apply IH.
Qed.

(** ** Substitutions that leave the text as it is *)

Lemma sub_from_skip r repl (s : pystr) :
  ∀ k before,
    ∃ before', sub_from r repl k before s
               = sub_from r repl 0 before' (drop k s).
Proof.
  induction s as [|c s IH]; intros k before.
  { exists before. by destruct k. }
  destruct k as [|k]; [by exists before|].
  cbn [sub_from drop]. apply IH.
Qed.

Lemma sub_from_fixed r repl (n : nat) :
  ∀ s before,
    (length s ≤ n)%nat →
    (∀ tl before', tl `suffix_of` s → fixed_at r repl before' tl) →
    sub_from r repl 0 before s = s.
Proof.
  induction n as [|n IH]; intros s before Hlen Hfixed.
  { destruct s; [done|]. cbn [length] in Hlen. lia. }
  destruct s as [|c s]; [done|]. cbn [length] in Hlen.
  assert (∀ b, sub_from r repl 0 b s = s) as Hs.
  { intros b. apply IH; [lia|]. intros tl b' Htl. apply Hfixed.
    by apply suffix_cons_r. }
  cbn [sub_from].
  assert (fixed_at r repl before (c :: s)) as Hhere by (by apply Hfixed).
  unfold fixed_at in Hhere. cbv zeta in Hhere.
  destruct (run r _) as [|st others]; [by rewrite Hs|].
  destruct (length (consumed _ st)) as [|k] eqn:Hk; [by rewrite Hs|].
  rewrite Hhere.
  destruct (sub_from_skip r repl s k (Some c)) as [b ->].
  rewrite IH; [|rewrite length_drop; lia|].
  2:{ intros tl b' Htl. apply Hfixed. apply suffix_cons_r.
      etrans; [exact Htl|]. apply suffix_drop. }
  unfold consumed in *. cbn [rest] in *.
  rewrite length_take in Hk.
  assert (length (c :: s) - length (rest st) = S k)%nat as Hcut
    by (cbn [length] in *; lia).
  rewrite Hcut. cbn [take app]. by rewrite take_drop.
Qed.

Lemma re_sub_fixed r repl (s : pystr) :
  (∀ tl before, tl `suffix_of` s → fixed_at r repl before tl) →
  re_sub r repl s = s.
Proof. intros. by apply (sub_from_fixed r repl (length s)). Qed.

Lemma same_text_fixed r repl before (s : pystr) :
  (∀ st, let here := {| prev := before; rest := s; groups := [] |} in
         matches r here st →
         repl (consumed here st) (groups st) = consumed here st) →
  fixed_at r repl before s.
Proof.
  intros Hsame. unfold fixed_at. cbv zeta.
  destruct (run r _) as [|st others] eqn:Hrun; [done|].
  apply Hsame, run_matches. rewrite Hrun. by left.
Qed.

Lemma no_match_fixed r repl before (s : pystr) :
  (∀ st, ¬ matches r {| prev := before; rest := s; groups := [] |} st) →
  fixed_at r repl before s.
Proof. intros Hnone. apply same_text_fixed. intros st here Hm. by destruct (Hnone st). Qed.

(** ** Replacements that leave the text as it is *)

Lemma replace_from_drop (old new s : pystr) :
  ∀ k, replace_from old new k s = replace_from old new 0 (drop k s).
Proof.
  induction s as [|c s IH]; intros k; [by destruct k|].
  destruct k as [|k]; [done|]. cbn [replace_from drop]. apply IH.
Qed.

Lemma is_prefix_here (p tail : pystr) : is_prefix p (p ++ tail) = true.
Proof.
  induction p as [|c p IH]; [done|]. cbn [app is_prefix].
  by rewrite N.eqb_refl.
Qed.

Lemma str_replace_here (old new tail : pystr) :
  old ≠ [] →
  str_replace old new (old ++ tail) = new ++ str_replace old new tail.
Proof.
  destruct old as [|c old]; [done|]. intros _.
  pose proof (is_prefix_here (c :: old) tail) as Hp.
  unfold str_replace. cbn [app] in *. cbn [replace_from]. rewrite Hp.
  rewrite replace_from_drop.
  replace (length (c :: old) - 1)%nat with (length old)
    by (cbn [length]; lia).
  by rewrite drop_app_length.
Qed.

Lemma str_replace_next (old new : pystr) (c : N) (s : pystr) :
  is_prefix old (c :: s) = false →
  str_replace old new (c :: s) = c :: str_replace old new s.
Proof. unfold str_replace. cbn [replace_from]. by intros ->. Qed.

Lemma str_replace_no_occurrence (old new s : pystr) :
  (∀ tl, tl `suffix_of` s → is_prefix old tl = false) →
  str_replace old new s = s.
Proof.
  induction s as [|c s IH]; intros Hs; [done|].
  rewrite str_replace_next by (by apply Hs).
  rewrite IH; [done|]. intros tl Htl. apply Hs. by apply suffix_cons_r.
Qed.

(** ** Splitting into lines and joining them again *)

Lemma str_join_split (sep : N) (s : pystr) :
  str_join [sep] (str_split sep s) = s.
Proof.
  induction s as [|c s IH]; [done|]. cbn [str_split].
  destruct (N.eqb_spec c sep) as [->|Hne].
  - destruct (str_split sep s) as [|part parts] eqn:E.
    { by destruct s; cbn in E; repeat case_match. }
    cbn [str_join app] in *. by rewrite IH.
  - destruct (str_split sep s) as [|part parts] eqn:E.
    { by destruct s; cbn in E; repeat case_match. }
    destruct parts as [|part' parts]; cbn [str_join app] in *; by f_equal.
Qed.

(** ** Paragraph breaks go to the token and come back *)

Lemma token_text : PARA = [60; 60; 80; 65; 82; 65; 62; 62]%N.
Proof. reflexivity. Qed.

Lemma token_not_empty : PARA ≠ [].
Proof. by rewrite token_text. Qed.

(** What the protected text begins with, short of the token, the text
    began with. *)
Lemma prefix_survives (x : N) (q : pystr) :
  (∀ tail, is_prefix (x :: q) (PARA ++ tail) = false) →
  (∀ t, is_prefix q (str_replace [10; 10]%N PARA t) = true → is_prefix q t = true) →
  ∀ t, is_prefix (x :: q) (str_replace [10; 10]%N PARA t) = true → is_prefix (x :: q) t = true.
Proof.
  intros Htoken Hq t. destruct t as [|c t]; [done|].
  destruct (is_prefix [10; 10]%N (c :: t)) eqn:Hnn.
  - apply IntentsProofs.is_prefix_app in Hnn as [tail ->].
    rewrite str_replace_here by done. by rewrite Htoken.
  - rewrite str_replace_next by done. cbn [is_prefix].
    intros [Hx Hrest]%andb_prop. rewrite Hx. by apply Hq.
Qed.

Lemma token_tail_survives (t : pystr) :
  is_prefix [60; 80; 65; 82; 65; 62; 62]%N (str_replace [10; 10]%N PARA t) = true →
  is_prefix [60; 80; 65; 82; 65; 62; 62]%N t = true.
Proof.
  revert t. do 7 (apply prefix_survives; [done|]). done.
Qed.

Lemma restore_protect (n : nat) :
  ∀ t, (length t ≤ n)%nat →
       (∀ tl, tl `suffix_of` t → is_prefix PARA tl = false) →
       str_replace PARA [10; 10]%N (str_replace [10; 10]%N PARA t) = t.
Proof.
  induction n as [|n IH]; intros t Hlen Hnone.
  { destruct t; [done|]. cbn [length] in Hlen. lia. }
  destruct t as [|c t]; [done|]. cbn [length] in Hlen.
  destruct (is_prefix [10; 10]%N (c :: t)) eqn:Hnn.
  - apply IntentsProofs.is_prefix_app in Hnn as [tail Htail].
    rewrite Htail, str_replace_here by done.
    rewrite str_replace_here by apply token_not_empty.
    rewrite IH; [done| |].
    + apply (f_equal length) in Htail. cbn [length app] in Htail. lia.
    + intros tl Htl. apply Hnone. rewrite Htail.
      by do 2 apply suffix_cons_r.
  - rewrite str_replace_next by done.
    rewrite str_replace_next.
    { rewrite IH; [done|lia|]. intros tl Htl. apply Hnone.
      by apply suffix_cons_r. }
    destruct (is_prefix PARA (c :: str_replace [10; 10]%N PARA t)) eqn:Htoken; [|done].
    rewrite <- (Hnone (c :: t)) by done.
    rewrite token_text in *. cbn [is_prefix] in Htoken |- *.
    apply andb_prop in Htoken as [-> Htoken].
    apply token_tail_survives in Htoken. cbn [is_prefix] in Htoken.
    by rewrite Htoken.
Qed.

(** When newlines come in pairs only, none is left in the protected
    text. *)
Lemma protect_no_newline (n : nat) :
  ∀ t, (length t ≤ n)%nat →
       (∀ tl, tl `suffix_of` t → is_prefix [10; 10; 10]%N tl = false) →
       (∀ tl, tl `suffix_of` t → lone_newline tl = false) →
       head t ≠ Some 10%N →
       Forall (λ c, c ≠ 10%N) (str_replace [10; 10]%N PARA t).
Proof.
  induction n as [|n IH]; intros t Hlen Hthree Hlone Hhead.
  { destruct t; [constructor|]. cbn [length] in Hlen. lia. }
  destruct t as [|c t]; [constructor|]. cbn [length] in Hlen.
  assert (c ≠ 10%N) as Hc by (by intros ->).
  rewrite str_replace_next
    by (cbn [is_prefix]; by destruct (N.eqb_spec 10 c)).
  constructor; [done|].
  destruct t as [|d t]; [constructor|]. cbn [length] in Hlen.
  destruct (N.eqb_spec d 10) as [->|Hd].
  - assert (lone_newline (c :: 10%N :: t) = false) as Hl by (by apply Hlone).
    cbn [lone_newline] in Hl.
    destruct (N.eqb_spec c 10) as [|_]; [done|]. cbn in Hl.
    destruct t as [|e t]; [done|].
    apply negb_false_iff, N.eqb_eq in Hl as ->. cbn [length] in Hlen.
    change (10 :: 10 :: t)%N with ([10; 10]%N ++ t).
    rewrite str_replace_here by done.
    apply Forall_app. split; [by rewrite token_text; repeat constructor|].
    apply IH.
    + lia.
    + intros tl Htl. apply Hthree. by do 3 apply suffix_cons_r.
    + intros tl Htl. apply Hlone. by do 3 apply suffix_cons_r.
    + assert (is_prefix [10; 10; 10]%N ([10; 10]%N ++ t) = false) as Hn
        by (apply Hthree; by apply suffix_cons_r).
      destruct t as [|e t]; [done|]. cbn in Hn.
      intros [= ->]. done.
  - apply IH.
    + cbn [length]. lia.
    + intros tl Htl. apply Hthree. by apply suffix_cons_r.
    + intros tl Htl. apply Hlone. by apply suffix_cons_r.
    + by intros [= ->].
Qed.

(** ** What a match of one of the patterns looks like *)

Lemma consumed_app (from to : cursor) (pre : pystr) :
  rest from = pre ++ rest to → consumed from to = pre.
Proof.
  intros E. unfold consumed. rewrite E, length_app.
  replace (length pre + length (rest to) - length (rest to))%nat
    with (length pre) by lia.
  by rewrite take_app_length.
Qed.

Lemma matches_star_class (f : N → bool) (st st' : cursor) :
  matches (Star (Class f)) st st' →
  ∃ pre, rest st = pre ++ rest st'
         ∧ Forall (λ c, f c = true) pre
         ∧ groups st' = groups st.
Proof.
  intros Hm. remember (Star (Class f)) as r eqn:Hr.
  induction Hm as [| | | | | |a st|a st mid st' Hfirst _ _ IH| | | |];
    try discriminate.
  { by exists []. }
  injection Hr as ->. destruct (IH eq_refl) as (pre & E & Hpre & Hg).
  inversion Hfirst as [| |f' d st0 s Hrest Hd| | | | | | | | |]; subst.
  cbn [step_over rest groups] in *.
  exists (d :: pre). rewrite Hrest, E. by repeat split; [constructor|].
Qed.

(** Taking a match apart, piece by piece. *)
Ltac invert_matches :=
  repeat match goal with
         | H : matches Eps _ _ |- _ => inversion H; clear H; subst
         | H : matches (Chr _) _ _ |- _ => inversion H; clear H; subst
         | H : matches (Class _) _ _ |- _ => inversion H; clear H; subst
         | H : matches (Seq _ _) _ _ |- _ => inversion H; clear H; subst
         | H : matches (Alt _ _) _ _ |- _ => inversion H; clear H; subst
         | H : matches (Group _) _ _ |- _ => inversion H; clear H; subst
         | H : matches (Star (Class _)) _ _ |- _ =>
             apply matches_star_class in H as (? & ? & ? & ?)
         end;
  cbv beta in *; cbn [step_over rest groups prev] in *;
  repeat match goal with
         | E : rest ?m = _, E' : context [rest ?m] |- _ =>
             lazymatch type of E' with
             | rest m = _ => fail
             | _ => rewrite E in E'
             end
         end.

(** A run of white space ends in a white space. *)
Lemma run_end (f : N → bool) (a : N) (pre tail : pystr) :
  f a = true → Forall (λ c, f c = true) pre →
  ∃ w before, f w = true ∧ a :: pre ++ tail = before ++ w :: tail.
Proof.
  intros Ha Hpre. destruct pre as [|x pre _] using rev_ind.
  { by exists a, []. }
  apply Forall_app in Hpre as [_ Hx]. inversion Hx; subst.
  exists x, (a :: pre). split; [done|]. by rewrite <- app_assoc.
Qed.

Section WithRuntime.
Context `{PyRuntime}.

Lemma unsettled_clauses (s : pystr) :
  unsettled_at s = false →
  is_prefix [10; 10; 10]%N s = false
  ∧ is_prefix PARA s = false
  ∧ is_prefix (u "R $") s = false
  ∧ double_space s = false
  ∧ space_then_punctuation s = false
  ∧ space_then_paren s = false
  ∧ paren_then_space s = false
  ∧ lone_newline s = false
  ∧ loose_currency s = false
  ∧ spaced_decimal s = false.
Proof. unfold unsettled_at. rewrite !orb_false_iff. tauto. Qed.

Lemma suffix_elem (c : N) (s t : pystr) : c :: s `suffix_of` t → c ∈ t.
Proof. intros [pre ->]. apply elem_of_app. right. by left. Qed.

Lemma suffix_app_inv (front s t : pystr) :
  front ++ s `suffix_of` t → s `suffix_of` t.
Proof. intros [k ->]. exists (k ++ front). by rewrite <- app_assoc. Qed.

Lemma suffix_tail (c : N) (s t : pystr) :
  c :: s `suffix_of` t → s `suffix_of` t.
Proof. intros [pre ->]. exists (pre ++ [c]). by rewrite <- app_assoc. Qed.

Lemma matches_blank_lines (here st : cursor) :
  matches blank_lines here st → is_prefix [10; 10; 10]%N (rest here) = true.
Proof.
  unfold blank_lines, seq. cbn [foldr]. intros Hm. invert_matches.
  repeat match goal with E : _ = (_ :: _) |- _ => rewrite E; clear E end.
  done.
Qed.

Lemma matches_blanks (here st : cursor) :
  matches blanks here st →
  ∃ a b tail, rest here = a :: b :: tail
              ∧ a ∈ [32; 9]%N ∧ b ∈ [32; 9]%N.
Proof.
  unfold blanks, seq, one_of. cbn [foldr]. intros Hm. invert_matches. subst.
  repeat match goal with
         | E : bool_decide _ = true |- _ => apply bool_decide_eq_true in E
         end.
  eauto 10.
Qed.

Lemma blanks_fixed (t : pystr) :
  9%N ∉ t →
  (∀ tl, tl `suffix_of` t → double_space tl = false) →
  re_sub blanks (constant [32]%N) t = t.
Proof.
  intros Htab Hdouble. apply re_sub_fixed. intros tl before Htl.
  apply no_match_fixed. intros st Hm.
  apply matches_blanks in Hm as (a & b & tail & E & Ha & Hb).
  cbn [rest] in E. subst.
  assert (a = 32%N ∧ b = 32%N) as [-> ->].
  { apply elem_of_cons in Ha as [->|Ha%list_elem_of_singleton];
      apply elem_of_cons in Hb as [->|Hb%list_elem_of_singleton]; subst;
      try done; destruct Htab.
    - by apply (suffix_elem _ _ _ (suffix_tail _ _ _ Htl)).
    - by apply (suffix_elem _ _ _ Htl).
    - by apply (suffix_elem _ _ _ Htl). }
  specialize (Hdouble _ Htl). by cbn in Hdouble.
Qed.

Lemma matches_space_before_punctuation (here st : cursor) :
  matches space_before_punctuation here st →
  ∃ a pre p tail, rest here = a :: pre ++ p :: tail
                  ∧ is_space a = true
                  ∧ Forall (λ c, is_space c = true) pre
                  ∧ punctuation p = true.
Proof.
  unfold space_before_punctuation, seq, plus, one_of, ws. cbn [foldr].
  intros Hm. invert_matches. subst. unfold punctuation. eauto 10.
Qed.

Lemma matches_space_before_paren (here st : cursor) :
  matches space_before_paren here st →
  ∃ a pre tail, rest here = a :: pre ++ 41%N :: tail
                ∧ is_space a = true
                ∧ Forall (λ c, is_space c = true) pre.
Proof.
  unfold space_before_paren, seq, plus, ws. cbn [foldr].
  intros Hm. invert_matches. subst. eauto 10.
Qed.

Lemma matches_space_after_paren (here st : cursor) :
  matches space_after_paren here st →
  ∃ a tail, rest here = 40%N :: a :: tail ∧ is_space a = true.
Proof.
  unfold space_after_paren, seq, plus, ws. cbn [foldr].
  intros Hm. invert_matches. subst. eauto 10.
Qed.

Lemma matches_currency_space (here st : cursor) :
  matches currency_space here st →
  ∃ a pre, rest here = 82%N :: 36%N :: a :: pre ++ rest st
           ∧ is_space a = true
           ∧ Forall (λ c, is_space c = true) pre.
Proof.
  unfold currency_space, seq, plus, ws. cbn [foldr].
  intros Hm. invert_matches. subst. eauto 10.
Qed.

Lemma space_before_punctuation_fixed (t : pystr) :
  (∀ tl, tl `suffix_of` t → space_then_punctuation tl = false) →
  re_sub space_before_punctuation group_1 t = t.
Proof.
  intros Hnone. apply re_sub_fixed. intros tl before Htl.
  apply no_match_fixed. intros st Hm.
  apply matches_space_before_punctuation in Hm
    as (a & pre & p & tail & E & Ha & Hpre & Hp).
  cbn [rest] in E. subst.
  destruct (run_end is_space a pre (p :: tail) Ha Hpre)
    as (w & front & Hw & E).
  rewrite E in Htl.
  assert (w :: p :: tail `suffix_of` t) as Hhere
    by (by apply suffix_app_inv in Htl).
  specialize (Hnone _ Hhere). cbn [space_then_punctuation] in Hnone.
  by rewrite Hw, Hp in Hnone.
Qed.

Lemma space_before_paren_fixed (t : pystr) :
  (∀ tl, tl `suffix_of` t → space_then_paren tl = false) →
  re_sub space_before_paren (constant [41]%N) t = t.
Proof.
  intros Hnone. apply re_sub_fixed. intros tl before Htl.
  apply no_match_fixed. intros st Hm.
  apply matches_space_before_paren in Hm as (a & pre & tail & E & Ha & Hpre).
  cbn [rest] in E. subst.
  destruct (run_end is_space a pre (41%N :: tail) Ha Hpre)
    as (w & front & Hw & E).
  rewrite E in Htl.
  assert (w :: 41%N :: tail `suffix_of` t) as Hhere
    by (by apply suffix_app_inv in Htl).
  specialize (Hnone _ Hhere). cbn [space_then_paren] in Hnone.
  by rewrite Hw in Hnone.
Qed.

Lemma space_after_paren_fixed (t : pystr) :
  (∀ tl, tl `suffix_of` t → paren_then_space tl = false) →
  re_sub space_after_paren (constant [40]%N) t = t.
Proof.
  intros Hnone. apply re_sub_fixed. intros tl before Htl.
  apply no_match_fixed. intros st Hm.
  apply matches_space_after_paren in Hm as (a & tail & E & Ha).
  cbn [rest] in E. subst.
  specialize (Hnone _ Htl). cbn [paren_then_space] in Hnone.
  by rewrite Ha in Hnone.
Qed.

Lemma currency_space_fixed (t : pystr) :
  (∀ tl, tl `suffix_of` t → loose_currency tl = false) →
  re_sub currency_space (constant (u "R$ ")) t = t.
Proof.
  intros Hnone. apply re_sub_fixed. intros tl before Htl.
  apply same_text_fixed. intros st here Hm.
  apply matches_currency_space in Hm as (a & pre & E & Ha & Hpre).
  rewrite (consumed_app here st ([82; 36; a]%N ++ pre))
    by (by rewrite <- app_assoc).
  subst here. cbn [rest] in E. subst.
  specialize (Hnone _ Htl). cbn [loose_currency] in Hnone.
  rewrite Ha in Hnone. cbn in Hnone.
  apply negb_false_iff, andb_prop in Hnone as [->%N.eqb_eq Hnext].
  destruct Hpre as [|x pre Hx _]; [done|].
  cbn in Hnext. by rewrite Hx in Hnext.
Qed.

Lemma matches_decimal_comma (here st : cursor) :
  matches decimal_comma here st →
  ∃ d1 pre1 pre2 d2 more,
    rest here = d1 :: pre1 ++ 44%N :: pre2 ++ (d2 :: more) ++ rest st
    ∧ is_digit d1 = true
    ∧ Forall (λ c, is_space c = true) pre1
    ∧ Forall (λ c, is_space c = true) pre2
    ∧ is_digit d2 = true
    ∧ groups st = (d2 :: more) :: [d1] :: groups here.
Proof.
  unfold decimal_comma, seq, opt, ws, digit. cbn [foldr].
  intros Hm. invert_matches.
  all: subst;
    repeat match goal with
           | E : rest ?m = ?c :: _
             |- context [consumed ?m (step_over ?m ?c _)] =>
               rewrite (consumed_app m _ [c]) by exact E
           | E : rest ?m = ?c :: ?c' :: _
             |- context [consumed ?m (step_over (step_over ?m ?c _) ?c' _)] =>
               rewrite (consumed_app m _ [c; c']) by exact E
           | E : groups _ = _ |- _ => rewrite E
           | E : rest ?h = _ |- context [rest ?h] => rewrite E
           end.
  - eexists _, _, _, _, [_]. by repeat split.
  - eexists _, _, _, _, []. by repeat split.
Qed.

Lemma reaches_digit_run (pre : pystr) (d : N) (tail : pystr) :
  Forall (λ c, is_space c = true) pre → is_digit d = true →
  reaches_digit (pre ++ d :: tail) = true.
Proof.
  intros Hpre Hd. induction Hpre as [|w pre Hw _ IH]; cbn [app reaches_digit].
  - by rewrite Hd.
  - by rewrite Hw, IH, orb_true_r.
Qed.

Lemma decimal_comma_fixed (t : pystr) :
  (∀ tl, tl `suffix_of` t → space_then_punctuation tl = false) →
  (∀ tl, tl `suffix_of` t → spaced_decimal tl = false) →
  re_sub decimal_comma group_1_comma_group_2 t = t.
Proof.
  intros Hpunct Hspaced. apply re_sub_fixed. intros tl before Htl.
  apply same_text_fixed. intros st here Hm.
  apply matches_decimal_comma in Hm
    as (d1 & pre1 & pre2 & d2 & more & E & Hd1 & Hpre1 & Hpre2 & Hd2 & Hg).
  subst here. cbn [rest groups] in *. subst.
  destruct Hpre1 as [|a pre1 Ha Hpre1].
  2:{ destruct (run_end is_space a pre1
                  (44%N :: pre2 ++ (d2 :: more) ++ rest st) Ha Hpre1)
        as (w & front & Hw & E).
      cbn [app] in Htl, E. rewrite E in Htl.
      apply suffix_tail, suffix_app_inv in Htl.
      specialize (Hpunct _ Htl). cbn [space_then_punctuation] in Hpunct.
      by rewrite Hw in Hpunct. }
  destruct Hpre2 as [|a pre2 Ha Hpre2].
  2:{ specialize (Hspaced _ Htl). cbn [app spaced_decimal] in Hspaced.
      rewrite Hd1, Ha in Hspaced.
      pose proof (reaches_digit_run (a :: pre2) d2 (more ++ rest st)) as Hr.
      cbn [app] in Hr. rewrite Hr in Hspaced; [done|by constructor|done]. }
  rewrite (consumed_app _ st (d1 :: 44%N :: d2 :: more)) by done.
  by rewrite Hg.
Qed.


Lemma blank_lines_fixed (t : pystr) :
  (∀ tl, tl `suffix_of` t → is_prefix [10; 10; 10]%N tl = false) →
  re_sub blank_lines (constant [10; 10]%N) t = t.
Proof.
  intros Hnone. apply re_sub_fixed. intros tl before Htl.
  apply no_match_fixed. intros st Hm%matches_blank_lines.
  cbn [rest] in Hm. by rewrite Hnone in Hm.
Qed.

(** ** The steps before the patterns *)

Lemma settled_character_kept (c : N) :
  settled_character c = true →
  (if bool_decide (c ∈ [10; 32; 9]%N) then [c]
   else if is_control c then [] else nfkc c) = [c].
Proof.
  unfold settled_character. intros Hc.
  destruct (bool_decide (c ∈ [10; 32; 9]%N)) eqn:Hin; [done|].
  apply bool_decide_eq_false in Hin.
  apply orb_prop in Hc as [[Hc|Hc]%orb_prop|Hc].
  - apply N.eqb_eq in Hc as ->. destruct Hin. by left.
  - apply N.eqb_eq in Hc as ->. destruct Hin. right. by left.
  - apply andb_prop in Hc as [[Hctl Hn]%andb_prop _].
    apply negb_true_iff in Hctl. rewrite Hctl.
    by apply bool_decide_eq_true in Hn.
Qed.

Lemma filter_characters_settled (t : pystr) :
  forallb settled_character t = true → filter_characters t = t.
Proof.
  unfold filter_characters.
  induction t as [|c t IH]; cbn [forallb flat_map]; [done|].
  intros [Hc Ht]%andb_prop.
  by rewrite settled_character_kept, IH.
Qed.

(** A settled character is no carriage return, no tab and no backslash. *)
Lemma settled_character_not (t : pystr) (x : N) :
  forallb settled_character t = true → x ∈ [13; 9; 92]%N → x ∉ t.
Proof.
  intros Ht Hx Hin%list_elem_of_In.
  apply (proj1 (forallb_forall _ _) Ht) in Hin.
  unfold settled_character in Hin.
  repeat (apply elem_of_cons in Hx as [->|Hx];
          [by rewrite ?andb_false_r in Hin|]).
  by apply elem_of_nil in Hx.
Qed.

Lemma sub_at_start_no_match r repl (s : pystr) :
  re_match r s = false → sub_at_start r repl s = s.
Proof. unfold re_match, sub_at_start. by destruct (run r _). Qed.

Lemma clean_lines_settled (lines : list pystr) :
  forallb (λ ln, negb (is_header ln || is_marked ln)) lines = true →
  clean_lines lines = lines.
Proof.
  unfold clean_lines.
  induction lines as [|ln lines IH]; cbn [forallb flat_map]; [done|].
  intros [[Hheader Hmarked]%negb_true_iff%orb_false_iff Hlines]%andb_prop.
  apply orb_false_iff in Hmarked as [Hbullet Hnumber].
  unfold is_header in Hheader. rewrite Hheader.
  rewrite (sub_at_start_no_match bullet_marker) by done.
  rewrite (sub_at_start_no_match number_marker) by done.
  by rewrite IH.
Qed.

Lemma str_strip_settled (t : pystr) :
  no_outer_space t = true → str_strip t = t.
Proof.
  unfold no_outer_space, str_strip, str_rstrip, str_lstrip.
  intros [Hhead Hlast]%andb_prop.
  assert (drop_while is_space t = t) as ->.
  { destruct t as [|c t]; [done|]. cbn [drop_while].
    by apply negb_true_iff in Hhead as ->. }
  rewrite <- head_reverse in Hlast.
  destruct (reverse t) as [|c r] eqn:E.
  { by rewrite <- (reverse_involutive t), E. }
  cbn [head drop_while] in *. apply negb_true_iff in Hlast as ->.
  by rewrite <- E, reverse_involutive.
Qed.

(** ** Settled text is a fixed point of the sanitiser *)

Lemma sanitize_settled (t : pystr) :
  settled t = true → _sanitize_analysis t = t.
Proof.
  unfold settled.
  intros [[[Hchars Hlines]%andb_prop Houter]%andb_prop Hnowhere]%andb_prop.
  assert (∀ tl, tl `suffix_of` t → unsettled_at tl = false) as Hnone
    by (intros tl; by apply nowhere_suffix).
  pose proof (λ tl Htl, unsettled_clauses tl (Hnone tl Htl)) as Hclauses.
  clear Hnone Hnowhere.
  assert ((13%N ∉ t) ∧ (9%N ∉ t) ∧ (92%N ∉ t)) as (Hcr & Htab & Hbackslash).
  { repeat split; apply settled_character_not; try done.
    - by left.
    - right. by left.
    - right. right. by left. }
  assert (head t ≠ Some 10%N) as Hhead.
  { unfold no_outer_space in Houter. apply andb_prop in Houter as [Hh _].
    destruct t as [|c t]; [done|]. by intros [= ->]. }
  unfold _sanitize_analysis. destruct (negb (truthy (JStr t))); [done|].
  cbv zeta.
  rewrite (str_replace_absent [13; 10]%N _ t 13) by (done || by left).
  rewrite (str_replace_absent [13]%N _ t 13) by (done || by left).
  rewrite filter_characters_settled by done.
  rewrite clean_lines_settled, str_join_split by done.
  rewrite blank_lines_fixed by (intros; by apply Hclauses).
  rewrite (str_strip_settled t) by done.
  rewrite (str_replace_absent [9]%N _ t 9) by (done || by left).
  assert (Forall (λ c, c ≠ 10%N) (str_replace [10; 10]%N PARA t)) as Hpairs.
  { apply (protect_no_newline (length t)); [done| | |done].
    - intros; by apply Hclauses.
    - intros; by apply Hclauses. }
  rewrite (re_sub_requires (λ c, c = 10%N) wrapped_word);
    [|cbn; required|done].
  rewrite (re_sub_requires (λ c, c = 92%N) stray_backslash);
    [|cbn; required|].
  2:{ apply TidyProofs.str_replace_Forall.
      - by rewrite token_text; repeat constructor.
      - apply Forall_forall. by intros c Hc ->. }
  rewrite (str_replace_absent [10]%N _ _ 10);
    [|by left|by intros Hin; rewrite Forall_forall in Hpairs;
              apply (Hpairs _ Hin)].
  rewrite (restore_protect (length t)) by (done || intros; by apply Hclauses).
  rewrite blanks_fixed by (done || intros; by apply Hclauses).
  rewrite space_before_punctuation_fixed by (intros; by apply Hclauses).
  rewrite space_after_paren_fixed by (intros; by apply Hclauses).
  rewrite space_before_paren_fixed by (intros; by apply Hclauses).
  rewrite str_replace_no_occurrence by (intros; by apply Hclauses).
  rewrite currency_space_fixed by (intros; by apply Hclauses).
  rewrite decimal_comma_fixed by (intros; by apply Hclauses).
  by apply str_strip_settled.
Qed.


End WithRuntime.


(** Why the text has to be settled: what a first pass leaves can still
    hold a list marker made by joining two lines, a banned header that a
    stripped marker uncovered, or four newlines in a row, left by a
    removed backslash or by the paragraph token written out in the input;
    a second pass changes each of them. *)
Lemma second_pass_changes_unsettled_text :
  let sanitize := _sanitize_analysis (H := ascii_runtime) in
  (sanitize (u "1." ++ [10%N] ++ u "x") = u "1. x"
   ∧ sanitize (u "1. x") = u "x")
  ∧ (sanitize (u "- Resposta direta: X") = u "Resposta direta: X"
     ∧ sanitize (u "Resposta direta: X") = [])
  ∧ (sanitize (u "a" ++ [10; 10; 92; 10; 10]%N ++ u "b")
     = u "a" ++ [10; 10; 10; 10]%N ++ u "b"
     ∧ sanitize (u "a" ++ [10; 10; 10; 10]%N ++ u "b")
       = u "a" ++ [10; 10]%N ++ u "b")
  ∧ (sanitize (u "a<<PARA>>" ++ [10; 10]%N ++ u "b")
     = u "a" ++ [10; 10; 10; 10]%N ++ u "b").
Proof. repeat split; reflexivity. Qed.

End SettledProofs.

(* ================================================================= *)
(** * The share-of-total columns in binary64 *)

Module SharesProofs.
Import AiClient Rounding.

(** ** The number of binary digits *)

Lemma digits2_pos_bounds (p : positive) :
  2 ^ (Z.pos (digits2_pos p) - 1) ≤ Z.pos p < 2 ^ Z.pos (digits2_pos p).
Proof.
  induction p as [p IH|p IH|]; cbn [digits2_pos]; [| |done].
  - rewrite Pos2Z.inj_succ. change (Z.pos p~1) with (2 * Z.pos p + 1).
    replace (Z.succ (Z.pos (digits2_pos p)) - 1)
      with (Z.succ (Z.pos (digits2_pos p) - 1)) by lia.
    rewrite !Z.pow_succ_r by lia.
    revert IH. generalize (2 ^ (Z.pos (digits2_pos p) - 1)), (2 ^ Z.pos (digits2_pos p)). lia.
  - rewrite Pos2Z.inj_succ. change (Z.pos p~0) with (2 * Z.pos p).
    replace (Z.succ (Z.pos (digits2_pos p)) - 1)
      with (Z.succ (Z.pos (digits2_pos p) - 1)) by lia.
    rewrite !Z.pow_succ_r by lia.
    revert IH. generalize (2 ^ (Z.pos (digits2_pos p) - 1)), (2 ^ Z.pos (digits2_pos p)). lia.
Qed.

Lemma Zdigits2_nonneg (m : Z) : 0 ≤ Zdigits2 m.
Proof. by destruct m. Qed.

Lemma Zdigits2_bounds (m : Z) :
  0 < m → 2 ^ (Zdigits2 m - 1) ≤ m < 2 ^ Zdigits2 m.
Proof. destruct m as [|p|p]; [lia| |lia]. intros _. apply digits2_pos_bounds. Qed.

Lemma Zdigits2_le (m k : Z) : 0 ≤ m < 2 ^ k → 0 ≤ k → Zdigits2 m ≤ k.
Proof.
  intros [Hm Hk] Hk0. destruct (Z.eq_dec m 0) as [->|Hne]; [done|].
  destruct (Zdigits2_bounds m) as [Hlow _]; [lia|].
  pose proof (Zdigits2_nonneg m).
  destruct (Z.le_gt_cases (Zdigits2 m) k) as [|Hgt]; [done|].
  assert (2 ^ k ≤ 2 ^ (Zdigits2 m - 1)) by (apply Z.pow_le_mono_r; lia).
  lia.
Qed.

(** ** Shifting a mantissa to the right *)

Lemma shr_1_spec (mrs : shr_record) (a b : Z) :
  0 ≤ shr_m mrs → 0 < b → 0 ≤ a < b →
  inbetween (loc_of_shr_record mrs) a b →
  ∃ a', 0 ≤ shr_m (shr_1 mrs)
        ∧ 0 ≤ a' < 2 * b
        ∧ inbetween (loc_of_shr_record (shr_1 mrs)) a' (2 * b)
        ∧ shr_m mrs * b + a = shr_m (shr_1 mrs) * (2 * b) + a'.
Proof.
  destruct mrs as [m r s]. cbn [shr_m]. intros Hm Hb Ha Hloc.
  destruct m as [|[p|p|]|p]; [| | | |lia].
  - exists a. destruct r, s; cbn in *; lia.
  - exists (b + a). destruct r, s; cbn in *; lia.
  - exists a. destruct r, s; cbn in *; lia.
  - exists (b + a). destruct r, s; cbn in *; lia.
Qed.

Lemma shr_iter_spec (p : positive) :
  ∀ (mrs : shr_record) (a b : Z),
    0 ≤ shr_m mrs → 0 < b → 0 ≤ a < b →
    inbetween (loc_of_shr_record mrs) a b →
    ∃ a', 0 ≤ shr_m (iter_pos shr_1 p mrs)
          ∧ 0 ≤ a' < b * 2 ^ Z.pos p
          ∧ inbetween (loc_of_shr_record (iter_pos shr_1 p mrs)) a'
              (b * 2 ^ Z.pos p)
          ∧ shr_m mrs * b + a
            = shr_m (iter_pos shr_1 p mrs) * (b * 2 ^ Z.pos p) + a'.
Proof.
  induction p as [p IH|p IH|]; intros mrs a b Hm Hb Ha Hloc;
    cbn [iter_pos].
  - destruct (shr_1_spec mrs a b) as (a1 & Hm1 & Ha1 & Hl1 & E1); [done..|].
    destruct (IH (shr_1 mrs) a1 (2 * b)) as (a2 & Hm2 & Ha2 & Hl2 & E2);
      [done|lia|done..|].
    assert (0 < 2 ^ Z.pos p) by (apply Z.pow_pos_nonneg; lia).
    destruct (IH (iter_pos shr_1 p (shr_1 mrs)) a2 (2 * b * 2 ^ Z.pos p))
      as (a3 & Hm3 & Ha3 & Hl3 & E3); [done|lia|done..|].
    replace (b * 2 ^ Z.pos p~1) with (2 * b * 2 ^ Z.pos p * 2 ^ Z.pos p).
    { exists a3. repeat split; try done; lia. }
    replace (Z.pos p~1) with (Z.pos p + Z.pos p + 1) by lia.
    rewrite !Z.pow_add_r, Z.pow_1_r by lia. ring.
  - assert (0 < 2 ^ Z.pos p) by (apply Z.pow_pos_nonneg; lia).
    destruct (IH mrs a b) as (a2 & Hm2 & Ha2 & Hl2 & E2); [done..|].
    destruct (IH (iter_pos shr_1 p mrs) a2 (b * 2 ^ Z.pos p))
      as (a3 & Hm3 & Ha3 & Hl3 & E3); [done|lia|done..|].
    replace (b * 2 ^ Z.pos p~0) with (b * 2 ^ Z.pos p * 2 ^ Z.pos p).
    { exists a3. repeat split; try done; lia. }
    replace (Z.pos p~0) with (Z.pos p + Z.pos p) by lia.
    rewrite Z.pow_add_r by lia. ring.
  - destruct (shr_1_spec mrs a b) as (a1 & Hm1 & Ha1 & Hl1 & E1); [done..|].
    exists a1. rewrite Z.pow_1_r, (Z.mul_comm b 2).
    repeat split; (done || lia).
Qed.

(** ** The exponent of a rounded mantissa *)

Lemma fexp_mono (x y : Z) : x ≤ y → fexp prec emax x ≤ fexp prec emax y.
Proof. unfold fexp, SpecFloat.emin, prec, emax. lia. Qed.

Lemma fexp_succ (x : Z) : fexp prec emax (x + 1) ≤ fexp prec emax x + 1.
Proof. unfold fexp, SpecFloat.emin, prec, emax. lia. Qed.

Lemma fexp_emin (x : Z) : SpecFloat.emin prec emax ≤ fexp prec emax x.
Proof. unfold fexp, SpecFloat.emin, prec, emax. lia. Qed.

Lemma fexp_fixed (x : Z) : SpecFloat.emin prec emax ≤ x → fexp prec emax x ≤ x.
Proof. unfold fexp, SpecFloat.emin, prec, emax. lia. Qed.

Lemma loc_of_shr_record_of_loc (m : Z) (l : location) :
  loc_of_shr_record (shr_record_of_loc m l) = l
  ∧ shr_m (shr_record_of_loc m l) = m.
Proof. by destruct l as [|[]]. Qed.

(** The digits left of a mantissa that lost [k] bits. *)
Lemma Zdigits2_shifted (m m' k d : Z) :
  0 ≤ m' → 0 ≤ k → 0 ≤ d → m' * 2 ^ k ≤ m → m < 2 ^ d →
  Zdigits2 m' ≤ Z.max (d - k) 0.
Proof.
  intros Hm' Hk Hd Hle Hlt.
  assert (0 < 2 ^ k) by (apply Z.pow_pos_nonneg; lia).
  destruct (Z.le_gt_cases d k) as [Hdk|Hdk].
  - assert (2 ^ d ≤ 2 ^ k) by (apply Z.pow_le_mono_r; lia).
    assert (m' = 0) as -> by nia. cbn. lia.
  - assert (2 ^ d = 2 ^ (d - k) * 2 ^ k) as E
      by (rewrite <- Z.pow_add_r by lia; f_equal; lia).
    assert (m' < 2 ^ (d - k)) by nia.
    pose proof (Zdigits2_le m' (d - k)). lia.
Qed.

Lemma shr_fexp_spec (m e : Z) (l : location) (a b : Z) :
  0 ≤ m → 0 < b → 0 ≤ a < b → inbetween l a b →
  ∃ a' k,
    0 ≤ k
    ∧ snd (shr_fexp prec emax m e l) = e + k
    ∧ 0 ≤ shr_m (fst (shr_fexp prec emax m e l))
    ∧ 0 ≤ a' < b * 2 ^ k
    ∧ inbetween (loc_of_shr_record (fst (shr_fexp prec emax m e l))) a'
        (b * 2 ^ k)
    ∧ m * b + a = shr_m (fst (shr_fexp prec emax m e l)) * (b * 2 ^ k) + a'
    ∧ (k = 0 ∧ fexp prec emax (Zdigits2 m + e) ≤ e
       ∨ e + k = fexp prec emax (Zdigits2 m + e)).
Proof.
  intros Hm Hb Ha Hloc. unfold shr_fexp, shr.
  destruct (loc_of_shr_record_of_loc m l) as [El Em].
  destruct (fexp prec emax (Zdigits2 m + e) - e) as [|p|p] eqn:En.
  - exists a, 0. cbn [fst snd]. rewrite El, Em, Z.pow_0_r, Z.mul_1_r.
    repeat split; try (done || lia).
  - destruct (shr_iter_spec p (shr_record_of_loc m l) a b)
      as (a' & Hm' & Ha' & Hl' & E); [by rewrite ?El, ?Em..|].
    exists a', (Z.pos p). cbn [fst snd]. rewrite Em in E.
    repeat split; try (done || lia).
  - exists a, 0. cbn [fst snd]. rewrite El, Em, Z.pow_0_r, Z.mul_1_r.
    repeat split; try (done || lia).
Qed.

Lemma round_nearest_even_spec (m : Z) (l : location) (a B : Z) :
  0 ≤ a < B → inbetween l a B →
  (round_nearest_even m l = m ∨ round_nearest_even m l = m + 1)
  ∧ 2 * Z.abs (round_nearest_even m l * B - (m * B + a)) ≤ B
  ∧ (l = loc_Exact → round_nearest_even m l = m).
Proof.
  intros Ha Hloc. destruct l as [|[]]; cbn [round_nearest_even inbetween] in *;
    try destruct (Z.even m);
    repeat split; first [by left|by right|lia|done].
Qed.

Lemma Zdigits2_upper (m : Z) : 0 ≤ m → m < 2 ^ Zdigits2 m.
Proof.
  intros Hm. destruct (Z.eq_dec m 0) as [->|Hne]; [done|].
  apply Zdigits2_bounds. lia.
Qed.

Lemma Zdigits2_succ (m : Z) :
  0 ≤ m →
  Zdigits2 (m + 1) ≤ Zdigits2 m
  ∨ m + 1 = 2 ^ Zdigits2 m ∧ Zdigits2 (m + 1) ≤ Zdigits2 m + 1.
Proof.
  intros Hm. pose proof (Zdigits2_upper m Hm) as Hup.
  pose proof (Zdigits2_nonneg m) as Hd.
  destruct (Z.eq_dec (m + 1) (2 ^ Zdigits2 m)) as [E|Hne].
  - right. split; [done|]. apply Zdigits2_le; [|lia].
    rewrite E, Z.pow_add_r, Z.pow_1_r by lia.
    assert (0 < 2 ^ Zdigits2 m) by (apply Z.pow_pos_nonneg; lia). lia.
  - left. apply Zdigits2_le; lia.
Qed.

(** The mantissa that [binary_round_aux] rounds to, before it is put in
    canonical form: it is within half a unit of the exact one. *)
Lemma binary_round_aux_spec (sx : bool) (mx ex : Z) (lx : location)
    (a b : Z) :
  0 ≤ mx → 0 < b → 0 ≤ a < b → inbetween lx a b →
  ∃ m2 k,
    0 ≤ k ∧ 0 ≤ m2
    ∧ 2 * Z.abs (m2 * (b * 2 ^ k) - (mx * b + a)) ≤ b * 2 ^ k
    ∧ (k = 0 ∧ (lx = loc_Exact → m2 = mx)
       ∨ ex + k = fexp prec emax (Zdigits2 mx + ex))
    ∧ match binary_round_aux prec emax sx mx ex lx with
      | S754_zero _ => m2 = 0
      | S754_finite s m e =>
          s = sx ∧ ∃ j, 0 ≤ j ∧ e = ex + k + j ∧ m2 = Z.pos m * 2 ^ j
      | S754_infinity _ => True
      | S754_nan => False
      end.
Proof.
  intros Hmx Hb Ha Hloc. unfold binary_round_aux.
  destruct (shr_fexp_spec mx ex lx a b)
    as (a1 & k & Hk & Ee & Hm1 & Ha1 & Hl1 & E & Hcase); [done..|].
  destruct (shr_fexp prec emax mx ex lx) as [mrs1 e1]. cbn [fst snd] in *.
  subst e1.
  assert (0 < 2 ^ k) as Hpow by (apply Z.pow_pos_nonneg; lia).
  set (B := b * 2 ^ k) in *.
  destruct (round_nearest_even_spec (shr_m mrs1) (loc_of_shr_record mrs1)
              a1 B) as (Hround & Herr & Hexact); [done..|].
  set (m1 := shr_m mrs1) in *.
  set (m2 := round_nearest_even m1 (loc_of_shr_record mrs1)) in *.
  assert (0 ≤ m2) as Hm2 by lia.
  (* the exponent is canonical for the truncated mantissa *)
  assert (fexp prec emax (Zdigits2 m1 + (ex + k)) ≤ ex + k) as Hcanon.
  { destruct Hcase as [[-> Hle]|Hfexp].
    - assert (m1 = mx) as -> by (subst B; nia).
      by rewrite Z.add_0_r.
    - pose proof (Zdigits2_upper mx Hmx) as Hup.
      pose proof (Zdigits2_nonneg mx) as Hd.
      assert (m1 * 2 ^ k ≤ mx) as Hshift by (subst B; nia).
      pose proof (Zdigits2_shifted mx m1 k (Zdigits2 mx) Hm1 Hk Hd Hshift Hup).
      revert Hfexp. unfold fexp, SpecFloat.emin, prec, emax. lia. }
  exists m2, k. split; [done|]. split; [done|]. split.
  { rewrite E. lia. }
  split.
  { destruct Hcase as [[-> Hle]|Hfexp]; [left|by right].
    split; [done|]. intros ->. cbn [inbetween] in Hloc. subst a.
    subst B. rewrite Z.pow_0_r, Z.mul_1_r in *.
    assert (m1 = mx) as Em by nia. rewrite Em in *.
    assert (a1 = 0) as -> by lia.
    destruct (loc_of_shr_record mrs1) as [|[]]; cbn [inbetween] in Hl1; lia. }
  (* the second shift loses nothing *)
  unfold shr_fexp, shr.
  destruct (loc_of_shr_record_of_loc m2 loc_Exact) as [_ Eshr].
  destruct (fexp prec emax (Zdigits2 m2 + (ex + k)) - (ex + k))
    as [|p|p] eqn:En; cbn [fst snd].
  - rewrite Eshr. destruct m2 as [|m|m]; [done| |lia].
    destruct (_ <=? _); [|done].
    split; [done|]. exists 0. rewrite Z.pow_0_r. lia.
  - assert (m2 = m1 + 1 ∧ m2 = 2 ^ Zdigits2 m1 ∧ p = 1%positive)
      as (Hup & Hcarry & ->).
    { destruct Hround as [E2|E2].
      { rewrite E2 in En. lia. }
      destruct (Zdigits2_succ m1 Hm1) as [Hd|[Hd1 Hd2]].
      { rewrite E2 in En.
        pose proof (fexp_mono (Zdigits2 (m1 + 1) + (ex + k))
                      (Zdigits2 m1 + (ex + k))). lia. }
      rewrite E2 in En.
      pose proof (fexp_mono (Zdigits2 (m1 + 1) + (ex + k))
                    (Zdigits2 m1 + 1 + (ex + k))).
      pose proof (fexp_succ (Zdigits2 m1 + (ex + k))).
      replace (Zdigits2 m1 + 1 + (ex + k))
        with (Zdigits2 m1 + (ex + k) + 1) in * by lia.
      repeat split; [done|lia|lia]. }
    cbn [iter_pos].
    destruct (shr_1_spec (shr_record_of_loc m2 loc_Exact) 0 1)
      as (a3 & Hm3 & Ha3 & _ & E3); [by rewrite ?Eshr|lia|lia|done|].
    rewrite Eshr in E3.
    assert (1 ≤ Zdigits2 m1) as Hd1.
    { pose proof (Zdigits2_nonneg m1).
      destruct (Z.eq_dec (Zdigits2 m1) 0) as [E0|]; [|lia].
      rewrite E0 in *. assert (m1 = 0) as E1 by lia.
      rewrite Hup, E1 in En. change (Zdigits2 (0 + 1)) with 1 in En.
      revert Hcanon En.
      unfold fexp, SpecFloat.emin, prec, emax. lia. }
    assert (m2 = 2 * 2 ^ (Zdigits2 m1 - 1)) as Heven.
    { rewrite Hcarry, <- Z.pow_succ_r by lia. f_equal. lia. }
    assert (a3 = 0) as -> by lia.
    destruct (shr_m (shr_1 (shr_record_of_loc m2 loc_Exact)))
      as [|m|m] eqn:E4; [lia| |lia].
    destruct (_ <=? _); [|done].
    split; [done|]. exists 1. rewrite Z.pow_1_r. lia.
  - rewrite Eshr. destruct m2 as [|m|m]; [done| |lia].
    destruct (_ <=? _); [|done].
    split; [done|]. exists 0. rewrite Z.pow_0_r. lia.
Qed.

(** ** Powers of two as rationals *)

Lemma pow2_pos (e : Z) : (0 < 2 ^ e)%Q.
Proof. by apply Qpower_0_lt. Qed.

Lemma pow2_add (x y : Z) : (2 ^ (x + y) == 2 ^ x * 2 ^ y)%Q.
Proof. by apply Qpower_plus. Qed.

Lemma pow2_le (x y : Z) : x ≤ y → (2 ^ x <= 2 ^ y)%Q.
Proof. intros Hxy. by apply Qpower_le_compat_l. Qed.

Lemma pow2_Z (k : Z) : 0 ≤ k → (inject_Z (2 ^ k) == 2 ^ k)%Q.
Proof. intros Hk. by rewrite Zpower_Qpower. Qed.

(** A mantissa within half a unit of the exact one gives a number within
    half a unit in the last place of the exact one. *)
Lemma half_unit (m2 b K mx a P v : Q) :
  (0 < b → 0 < P →
   - (b * K) <= 2 * (m2 * (b * K) - (mx * b + a)) →
   2 * (m2 * (b * K) - (mx * b + a)) <= b * K →
   v == (mx + a / b) * P →
   Qabs (m2 * (K * P) - v) <= (1 # 2) * (K * P))%Q.
Proof.
  intros Hb HP Hlow Hhigh Hv.
  assert (0 < P / b)%Q as Ht by (by apply Qlt_shift_div_l; lra).
  assert (m2 * (K * P) - v
          == P / b * (m2 * (b * K) - (mx * b + a)))%Q as Hdiff.
  { rewrite Hv. field. lra. }
  assert ((1 # 2) * (K * P) == P / b * ((1 # 2) * (b * K)))%Q as Hhalf.
  { field. lra. }
  generalize dependent (P / b)%Q. intros t Ht Hdiff Hhalf.
  generalize dependent (m2 * (b * K) - (mx * b + a))%Q. intros X ? ? Hdiff.
  apply Qabs_Qle_condition. rewrite Hdiff, Hhalf.
  assert (0 <= t * (2 * X + b * K))%Q by (apply Qmult_le_0_compat; lra).
  assert (0 <= t * (b * K - 2 * X))%Q by (apply Qmult_le_0_compat; lra).
  split; lra.
Qed.

Lemma half_pow2 (e : Z) : ((1 # 2) * 2 ^ e == 2 ^ (e - 1))%Q.
Proof.
  replace (e - 1) with (e + -1) by lia. rewrite pow2_add.
  change (2 ^ (-1))%Q with (/ 2)%Q. field.
Qed.

(** The error of a rounding: at most the unit roundoff times the exact
    number, or half the smallest positive float. [v] is the exact
    number, [(mx + a / b) * 2 ^ ex], and [lx] says where [a / b] lies. *)
Lemma binary_round_aux_error (sx : bool) (mx ex : Z) (lx : location)
    (a b : Z) (v : Q) :
  0 ≤ mx → 0 < b → 0 ≤ a < b → inbetween lx a b →
  (v == (inject_Z mx + inject_Z a / inject_Z b) * 2 ^ ex)%Q →
  (lx = loc_Exact ∨ ((1 # 2) * 2 ^ ex <= unit_roundoff * v + tiny)%Q) →
  match binary_round_aux prec emax sx mx ex lx with
  | S754_zero _ => (Qabs (0 - v) <= unit_roundoff * v + tiny)%Q
  | S754_finite s m e =>
      s = sx
      ∧ (Qabs (inject_Z (Z.pos m) * 2 ^ e - v)
         <= unit_roundoff * v + tiny)%Q
  | S754_infinity _ => True
  | S754_nan => False
  end.
Proof.
  intros Hmx Hb Ha Hloc Hv Henough.
  destruct (binary_round_aux_spec sx mx ex lx a b)
    as (m2 & k & Hk & Hm2 & Herr & Hcase & Hres); [done..|].
  assert (0 < 2 ^ k) as Hpow by (apply Z.pow_pos_nonneg; lia).
  pose proof (pow2_pos ex) as HP. pose proof (pow2_pos k) as HK.
  assert (0 < inject_Z b)%Q as Hqb by (rewrite <- (Zlt_Qlt 0); lia).
  assert (0 <= inject_Z a)%Q as Hqa by (rewrite <- (Zle_Qle 0); lia).
  assert (0 <= inject_Z mx)%Q as Hqmx by (rewrite <- (Zle_Qle 0); lia).
  assert (0 < unit_roundoff)%Q as Hu by apply pow2_pos.
  assert (0 < tiny)%Q as Ht by apply pow2_pos.
  (* the exact number is at least the mantissa it starts with *)
  assert (inject_Z mx * 2 ^ ex <= v)%Q as Hlow.
  { rewrite Hv.
    assert (0 <= inject_Z a / inject_Z b)%Q
      by (apply Qle_shift_div_l; [done|lra]).
    assert (0 <= inject_Z a / inject_Z b * 2 ^ ex)%Q
      by (apply Qmult_le_0_compat; lra).
    lra. }
  assert (0 <= inject_Z mx * 2 ^ ex)%Q by (apply Qmult_le_0_compat; lra).
  assert (0 <= unit_roundoff * v)%Q by (apply Qmult_le_0_compat; lra).
  (* the rounded mantissa, at its exponent, is within the bound *)
  assert (Qabs (inject_Z m2 * (2 ^ k * 2 ^ ex) - v)
          <= unit_roundoff * v + tiny)%Q as Hr.
  { assert (Qabs (inject_Z m2 * (2 ^ k * 2 ^ ex) - v)
            <= (1 # 2) * (2 ^ k * 2 ^ ex))%Q as Hhalf.
    { apply (half_unit _ (inject_Z b) _ (inject_Z mx) (inject_Z a));
        try done.
      - assert (- (b * 2 ^ k) ≤ 2 * (m2 * (b * 2 ^ k) + - (mx * b + a)))
          as Hz by lia.
        rewrite Zle_Qle in Hz. revert Hz.
        rewrite !inject_Z_opp, !inject_Z_mult, !inject_Z_plus,
          !inject_Z_opp, !inject_Z_plus, !inject_Z_mult, pow2_Z by done.
        change (inject_Z 2) with 2%Q. generalize (2 ^ k)%Q. intros K. lra.
      - assert (2 * (m2 * (b * 2 ^ k) + - (mx * b + a)) ≤ b * 2 ^ k)
          as Hz by lia.
        rewrite Zle_Qle in Hz. revert Hz.
        rewrite !inject_Z_mult, !inject_Z_plus,
          !inject_Z_opp, !inject_Z_plus, !inject_Z_mult, pow2_Z by done.
        change (inject_Z 2) with 2%Q. generalize (2 ^ k)%Q. intros K. lra. }
    destruct Hcase as [[-> Hexact]|Hfexp].
    - destruct Henough as [->|Henough].
      + cbn [inbetween] in Hloc.
        assert (inject_Z m2 * (2 ^ 0 * 2 ^ ex) - v == 0)%Q as ->.
        { rewrite Hexact, Hv, Hloc by done.
          change (2 ^ 0)%Q with 1%Q. field. lra. }
        change (Qabs 0) with 0%Q. lra.
      + eapply Qle_trans; [exact Hhalf|].
        change (2 ^ 0)%Q with 1%Q. lra.
    - eapply Qle_trans; [exact Hhalf|].
      rewrite <- pow2_add, half_pow2.
      unfold fexp, SpecFloat.emin, prec, emax in Hfexp.
      destruct (Z.max_spec (Zdigits2 mx + ex - 53) (3 - 1024 - 53))
        as [[Hlt Emax]|[Hge Emax]]; rewrite Emax in Hfexp.
      + replace (k + ex - 1) with (-1075) by lia. fold tiny. lra.
      + assert (0 < mx) as Hpos.
        { destruct (Z.eq_dec mx 0) as [E0|]; [|lia].
          rewrite E0 in Hfexp. cbn in Hfexp. lia. }
        destruct (Zdigits2_bounds mx Hpos) as [Hdigits _].
        pose proof (Zdigits2_nonneg mx) as Hd.
        assert (1 ≤ Zdigits2 mx).
        { destruct (Z.eq_dec (Zdigits2 mx) 0) as [E0|]; [|lia].
          rewrite E0 in Hfexp. lia. }
        rewrite Zle_Qle, pow2_Z in Hdigits by lia.
        replace (k + ex - 1) with (-53 + (Zdigits2 mx - 1 + ex)) by lia.
        rewrite !pow2_add. fold unit_roundoff.
        assert (unit_roundoff * (2 ^ (Zdigits2 mx - 1) * 2 ^ ex)
                <= unit_roundoff * v)%Q.
        { apply Qmult_le_l; [done|].
          eapply Qle_trans; [|exact Hlow].
          apply Qmult_le_r; done. }
        lra. }
  destruct (binary_round_aux prec emax sx mx ex lx) as [s|s| |s m e];
    [|done|done|].
  - rewrite Hres in Hr.
    assert (inject_Z 0 * (2 ^ k * 2 ^ ex) - v == 0 - v)%Q as E0 by ring.
    by rewrite E0 in Hr.
  - destruct Hres as (-> & j & Hj & -> & E). split; [done|].
    assert (inject_Z (Z.pos m) * 2 ^ (ex + k + j)
            == inject_Z m2 * (2 ^ k * 2 ^ ex))%Q as ->; [|done].
    rewrite E, inject_Z_mult, pow2_Z, !pow2_add by done. ring.
Qed.

(** ** The error of a division and of a multiplication *)

Lemma new_location_spec (my r : Z) :
  0 ≤ r < my → inbetween (new_location my r) r my.
Proof.
  intros Hr. unfold new_location, new_location_even, new_location_odd.
  destruct (Z.even my) eqn:Heven.
  - destruct (Z.eqb_spec r 0) as [->|Hne]; [done|].
    destruct (Z.compare_spec (2 * r) my); cbn [inbetween]; lia.
  - destruct (Z.eqb_spec r 0) as [->|Hne]; [done|].
    assert (Z.odd my = true) as Hodd by (by rewrite <- Z.negb_even, Heven).
    apply Z.odd_spec in Hodd as [h ->].
    destruct (Z.compare_spec (2 * r + 1) (2 * h + 1)); cbn [inbetween]; lia.
Qed.

Lemma SFdiv_error (mx : positive) (ex : Z) (my : positive) (ey : Z) :
  let v := (inject_Z (Z.pos mx) * 2 ^ ex
            / (inject_Z (Z.pos my) * 2 ^ ey))%Q in
  match SFdiv prec emax (S754_finite false mx ex) (S754_finite false my ey) with
  | S754_zero _ => (Qabs (0 - v) <= unit_roundoff * v + tiny)%Q
  | S754_finite s m e =>
      s = false
      ∧ (Qabs (inject_Z (Z.pos m) * 2 ^ e - v)
         <= unit_roundoff * v + tiny)%Q
  | S754_infinity _ => True
  | S754_nan => False
  end.
Proof.
  intros v. unfold SFdiv, SFdiv_core_binary.
  set (d1 := Zdigits2 (Z.pos mx)). set (d2 := Zdigits2 (Z.pos my)).
  set (e' := Z.min (fexp prec emax (d1 + ex - (d2 + ey))) (ex - ey)).
  set (s := ex - ey - e').
  assert (0 ≤ s) as Hs by (subst s e'; lia).
  set (m' := match s with
             | 0 => Z.pos mx
             | Z.pos _ => Z.shiftl (Z.pos mx) s
             | Z.neg _ => 0
             end).
  assert (m' = Z.pos mx * 2 ^ s) as Em'.
  { subst m'. destruct s as [|p|p] eqn:Es; [lia| |lia].
    by rewrite Z.shiftl_mul_pow2. }
  pose proof (Z_div_mod m' (Z.pos my) eq_refl) as Hdiv.
  destruct (Z.div_eucl m' (Z.pos my)) as [q r]. destruct Hdiv as [Eq Hr].
  assert (0 < 2 ^ s) by (apply Z.pow_pos_nonneg; lia).
  assert (0 ≤ q) as Hq by nia.
  pose proof (pow2_pos ex) as Hpex. pose proof (pow2_pos ey) as Hpey.
  pose proof (pow2_pos e') as Hpe'.
  assert (0 < inject_Z (Z.pos mx))%Q as Hqmx by (by rewrite <- (Zlt_Qlt 0)).
  assert (0 < inject_Z (Z.pos my))%Q as Hqmy by (by rewrite <- (Zlt_Qlt 0)).
  assert (0 < inject_Z (Z.pos my) * 2 ^ ey)%Q as Hy
    by (apply Qmult_lt_0_compat; done).
  apply (binary_round_aux_error false q e' (new_location (Z.pos my) r)
           r (Z.pos my) v); [done|done|done|by apply new_location_spec| |].
  - (* the exact quotient *)
    assert (inject_Z (Z.pos mx) * 2 ^ s
            == inject_Z (Z.pos my) * inject_Z q + inject_Z r)%Q as Hq'.
    { rewrite <- pow2_Z, <- !inject_Z_mult, <- inject_Z_plus by done.
      by rewrite <- Em', Eq. }
    assert (2 ^ ex == 2 ^ s * 2 ^ ey * 2 ^ e')%Q as Hex.
    { rewrite <- !pow2_add. by replace (s + ey + e') with ex by (subst s; lia). }
    subst v. rewrite Hex.
    transitivity (inject_Z (Z.pos mx) * 2 ^ s / inject_Z (Z.pos my) * 2 ^ e')%Q.
    { field. split; lra. }
    rewrite Hq'. field. lra.
  - (* the quotient has digits enough *)
    right.
    assert (0 < unit_roundoff)%Q as Hu by apply pow2_pos.
    assert (0 < tiny)%Q as Ht by apply pow2_pos.
    set (D := d1 + ex - (d2 + ey)) in *.
    assert (2 ^ (D - 1) <= v)%Q as Hv.
    { subst v. apply Qle_shift_div_l; [done|].
      destruct (Zdigits2_bounds (Z.pos mx) eq_refl) as [Hlow _].
      destruct (Zdigits2_bounds (Z.pos my) eq_refl) as [_ Hup].
      fold d1 in Hlow. fold d2 in Hup.
      pose proof (Zdigits2_nonneg (Z.pos my)) as Hd2. fold d2 in Hd2.
      assert (1 ≤ d1) as Hd1.
      { subst d1. cbn. lia. }
      rewrite Zle_Qle, pow2_Z in Hlow by lia.
      apply Z.lt_le_incl in Hup. rewrite Zle_Qle, pow2_Z in Hup by lia.
      replace (D - 1) with (d1 - 1 + ex - d2 - ey) by (subst D; lia).
      assert (2 ^ (d1 - 1 + ex - d2 - ey) * (2 ^ d2 * 2 ^ ey)
              == 2 ^ (d1 - 1) * 2 ^ ex)%Q as E.
      { rewrite <- !pow2_add. by replace (d1 - 1 + ex - d2 - ey + (d2 + ey))
          with (d1 - 1 + ex) by lia. }
      pose proof (pow2_pos (d1 - 1 + ex - d2 - ey)) as Hp.
      apply Qle_trans
        with (2 ^ (d1 - 1 + ex - d2 - ey) * (2 ^ d2 * 2 ^ ey))%Q.
      - apply Qmult_le_l; [done|]. apply Qmult_le_r; done.
      - rewrite E. apply Qmult_le_r; done. }
    assert (0 <= unit_roundoff * v)%Q.
    { apply Qmult_le_0_compat; [lra|]. pose proof (pow2_pos (D - 1)). lra. }
    rewrite half_pow2.
    assert (e' ≤ fexp prec emax D) as He' by (subst e'; lia).
    unfold fexp, SpecFloat.emin, prec, emax in He'.
    destruct (Z.max_spec (D - 53) (3 - 1024 - 53)) as [[_ Emax]|[_ Emax]];
      rewrite Emax in He'.
    + apply Qle_trans with (2 ^ (-1075))%Q; [apply pow2_le; lia|].
      fold tiny. lra.
    + apply Qle_trans with (2 ^ (-53 + (D - 1)))%Q; [apply pow2_le; lia|].
      rewrite pow2_add. fold unit_roundoff.
      assert (unit_roundoff * 2 ^ (D - 1) <= unit_roundoff * v)%Q
        by (apply Qmult_le_l; done).
      lra.
Qed.

Lemma SFmul_error (mx : positive) (ex : Z) (my : positive) (ey : Z) :
  let v := (inject_Z (Z.pos mx) * 2 ^ ex
            * (inject_Z (Z.pos my) * 2 ^ ey))%Q in
  match SFmul prec emax (S754_finite false mx ex) (S754_finite false my ey) with
  | S754_zero _ => (Qabs (0 - v) <= unit_roundoff * v + tiny)%Q
  | S754_finite s m e =>
      s = false
      ∧ (Qabs (inject_Z (Z.pos m) * 2 ^ e - v)
         <= unit_roundoff * v + tiny)%Q
  | S754_infinity _ => True
  | S754_nan => False
  end.
Proof.
  intros v. unfold SFmul. cbn [xorb].
  apply (binary_round_aux_error false (Z.pos (mx * my)) (ex + ey) loc_Exact
           0 1 v); [done|done|lia|done| |by left].
  subst v. rewrite Pos2Z.inj_mul, inject_Z_mult, pow2_add. field.
Qed.

(** ** One share *)

(** A share and the exact quotient it stands for. *)
Lemma share_error (x t : float) :
  is_finite x = true → (0 <= float_value x)%Q →
  is_finite t = true → (0 < float_value t)%Q →
  is_finite (x / t * 100) = true →
  (Qabs (float_value (x / t * 100)
         - 100 * (float_value x / float_value t))
   <= (2 * unit_roundoff + unit_roundoff * unit_roundoff)
      * (100 * (float_value x / float_value t))
      + 102 * tiny)%Q.
Proof.
  unfold is_finite, float_value. rewrite mul_spec, div_spec.
  change (Prim2SF 100) with (S754_finite false 7036874417766400 (-46)).
  intros Hfx Hx Hft Hpos Hfs.
  assert (0 < unit_roundoff)%Q as Hu by apply pow2_pos.
  assert (unit_roundoff <= 1 # 100)%Q as Hu' by (by vm_compute).
  assert (0 < tiny)%Q as Ht by apply pow2_pos.
  assert (0 <= unit_roundoff * tiny)%Q by (apply Qmult_le_0_compat; lra).
  assert (unit_roundoff * tiny <= (1 # 100) * tiny)%Q
    by (apply Qmult_le_r; done).
  assert (∀ (m : positive) (e : Z), 0 < inject_Z (Z.pos m) * 2 ^ e)%Q
    as Hfinite.
  { intros m e.
    apply Qmult_lt_0_compat; [by rewrite <- (Zlt_Qlt 0)|apply pow2_pos]. }
  destruct (Prim2SF t) as [st|st| |st mt et]; [lra|done|done|].
  destruct st; [pose proof (Hfinite mt et); lra|].
  rewrite Qmult_1_l in *.
  destruct (Prim2SF x) as [sx|sx| |sx mx ex]; [|done|done|].
  { cbn [SFdiv SFmul xorb].
    assert (0 - 100 * (0 / (inject_Z (Z.pos mt) * 2 ^ et)) == 0)%Q
      as -> by (unfold Qdiv; ring).
    assert ((2 * unit_roundoff + unit_roundoff * unit_roundoff)
            * (100 * (0 / (inject_Z (Z.pos mt) * 2 ^ et))) == 0)%Q
      as -> by (unfold Qdiv; ring).
    change (Qabs 0) with 0%Q. lra. }
  destruct sx; [pose proof (Hfinite mx ex); lra|].
  rewrite Qmult_1_l in *.
  pose proof (SFdiv_error mx ex mt et) as Hdiv. cbv zeta in Hdiv.
  set (v := (inject_Z (Z.pos mx) * 2 ^ ex
             / (inject_Z (Z.pos mt) * 2 ^ et))%Q) in *.
  assert (0 <= v)%Q as Hv.
  { subst v. apply Qle_shift_div_l; [done|]. pose proof (Hfinite mx ex). lra. }
  assert (0 <= unit_roundoff * v)%Q by (apply Qmult_le_0_compat; lra).
  assert (0 <= unit_roundoff * (unit_roundoff * v))%Q
    by (apply Qmult_le_0_compat; lra).
  unfold SF64mul, SF64div in *.
  destruct (SFdiv prec emax _ _) as [sq|sq| |sq mq eq]; [|done|done|].
  - (* the quotient underflowed to zero *)
    cbn [SFmul]. apply Qabs_Qle_condition in Hdiv.
    apply Qabs_Qle_condition. split; lra.
  - destruct Hdiv as [-> Hdiv].
    pose proof (SFmul_error mq eq 7036874417766400 (-46)) as Hmul.
    cbv zeta in Hmul.
    set (q := (inject_Z (Z.pos mq) * 2 ^ eq)%Q) in *.
    assert (q * (inject_Z 7036874417766400 * 2 ^ (-46)) == 100 * q)%Q as E100.
    { assert (inject_Z 7036874417766400 * 2 ^ (-46) == 100)%Q as ->
        by (by vm_compute).
      ring. }
    apply Qabs_Qle_condition in Hdiv.
    assert (unit_roundoff * q
            <= unit_roundoff * (v + unit_roundoff * v + tiny))%Q
      by (apply Qmult_le_l; lra).
    assert (unit_roundoff * (v - unit_roundoff * v - tiny)
            <= unit_roundoff * q)%Q
      by (apply Qmult_le_l; lra).
    destruct (SFmul prec emax _ _) as [sp|sp| |sp mp ep]; [|done|done|].
    + rewrite E100 in Hmul. apply Qabs_Qle_condition in Hmul.
      apply Qabs_Qle_condition. split; lra.
    + destruct Hmul as [-> Hmul]. rewrite E100 in Hmul.
      rewrite Qmult_1_l.
      apply Qabs_Qle_condition in Hmul.
      apply Qabs_Qle_condition. split; lra.
Qed.

(** ** A column of shares *)

Lemma exact_sum_permutation (xs ys : list float) :
  xs ≡ₚ ys → (exact_sum xs == exact_sum ys)%Q.
Proof.
  induction 1 as [|x xs ys _ IH|x y xs|xs ys zs _ IH1 _ IH2]; cbn.
  - reflexivity.
  - fold (exact_sum xs). fold (exact_sum ys). by rewrite IH.
  - fold (exact_sum xs). ring.
  - by rewrite IH1.
Qed.

(** The shares of a column add up to 100 times the exact total over the
    computed one, within the rounding of the divisions and of the
    multiplications. *)
Lemma shares_sum_error (t : float) (xs : list float) :
  Forall (λ x, is_finite x = true ∧ (0 <= float_value x)%Q) xs →
  is_finite t = true → (0 < float_value t)%Q →
  Forall (λ s, is_finite s = true) ((λ x, (x / t * 100)%float) <$> xs) →
  (Qabs (exact_sum ((λ x, (x / t * 100)%float) <$> xs)
         - 100 * (exact_sum xs / float_value t))
   <= (2 * unit_roundoff + unit_roundoff * unit_roundoff)
      * (100 * (exact_sum xs / float_value t))
      + 102 * inject_Z (Z.of_nat (length xs)) * tiny)%Q.
Proof.
  intros Hxs Hft Ht. induction Hxs as [|x xs [Hfx Hx] _ IH].
  - intros _. cbn [fmap list_fmap exact_sum foldr length Z.of_nat].
    assert (0 - 100 * (0 / float_value t) == 0)%Q as -> by (unfold Qdiv; ring).
    change (Qabs 0) with 0%Q. unfold Qdiv. ring_simplify. lra.
  - rewrite fmap_cons, Forall_cons. intros [Hfs Hrest].
    specialize (IH Hrest).
    pose proof (share_error x t Hfx Hx Hft Ht Hfs) as Hshare.
    cbn [exact_sum foldr length].
    fold (exact_sum xs).
    fold (exact_sum ((λ x, (x / t * 100)%float) <$> xs)).
    rewrite Nat2Z.inj_succ, <- Z.add_1_r, inject_Z_plus.
    change (inject_Z 1) with 1%Q.
    apply Qabs_Qle_condition in IH. apply Qabs_Qle_condition in Hshare.
    apply Qabs_Qle_condition.
    unfold Qdiv in *. revert IH Hshare.
    generalize (/ float_value t)%Q, (float_value x), (exact_sum xs),
      (float_value (x / t * 100)),
      (exact_sum ((λ x, (x / t * 100)%float) <$> xs)),
      (inject_Z (Z.of_nat (length xs))), unit_roundoff, tiny.
    intros w vx S vs Ss n u η ? ?. split; lra.
Qed.

Lemma column_sums_to_100 (accuracy : Q) (t : float) (xs : list float) :
  let shares := (λ x, (x / t * 100)%float) <$> xs in
  shareable xs t shares → total_within accuracy xs t →
  sums_to_100_within accuracy xs t shares.
Proof.
  intros shares (Hxs & Hft & Ht & Hshares) Htotal.
  pose proof (shares_sum_error t xs Hxs Hft Ht Hshares) as Hsum.
  unfold total_within in Htotal. unfold sums_to_100_within.
  fold shares in Hsum.
  assert (0 < / float_value t)%Q as Hw by (by apply Qinv_lt_0_compat).
  assert (float_value t * / float_value t == 1)%Q as Hinv
    by (apply Qmult_inv_r; lra).
  apply Qabs_Qle_condition in Htotal as [Hlow Hhigh].
  apply Qabs_Qle_condition in Hsum.
  assert (0 <= / float_value t
               * (accuracy * exact_sum xs
                  - (float_value t - exact_sum xs)))%Q
    by (apply Qmult_le_0_compat; lra).
  assert (0 <= / float_value t
               * (accuracy * exact_sum xs
                  + (float_value t - exact_sum xs)))%Q
    by (apply Qmult_le_0_compat; lra).
  apply Qabs_Qle_condition. unfold Qdiv in *.
  revert Hsum Hinv H H0.
  generalize (/ float_value t)%Q, (float_value t), (exact_sum xs),
    (exact_sum shares), (inject_Z (Z.of_nat (length xs))),
    unit_roundoff, tiny.
  intros w vt S Ss n u η ? ? ? ?. split; lra.
Qed.

(** ** The frame of one granularity *)

Lemma or_one_not_zero (total : float) : (or_one total =? 0)%float = false.
Proof.
  unfold or_one, truthy. by destruct (total =? 0)%float eqn:Hz.
Qed.

Lemma or_one_zero (total : float) :
  (total =? 0)%float = true → or_one total = 1%float.
Proof. unfold or_one, truthy. by intros ->. Qed.




End SharesProofs.
